(** * pf1-sequential-attacks: sequential full attack resolution

    A shallow embedding of [scripts/sequential-attacks.mjs] (the planner inside
    [sequentialProcessWrapper], the per-step context derivation and the
    [SequentialAttackTracker] dialog controller) and of the alternative
    chat-card variant, followed by the properties established about them.

    Conventions.
    - JavaScript numbers that hold counts, costs and bonuses are integers here
      ([Z]); the power attack multiplier is a rational ([Q]), so that
      [Math.floor] is [Qfloor]. A field that may be absent is an [option], and
      so is a number computed from one ([None] for [NaN]).
    - Host calls (the PF1 system, Foundry) are opaque: what they return is an
      input ([Env]), and each awaited host call may throw ([fault]).
    - A handler runs to completion before the next command is taken. *)

From Stdlib Require Import ZArith QArith Qround.
From stdpp Require Import gmap strings list pretty.

Local Open Scope Z_scope.
Set Warnings "-clear-no-such-hyp".

(** ** Host data *)

(** [atk.chargeCost]: absent until the planner assigns it a number or [null]. *)
Inductive JsCost :=
  | CostUndefined
  | CostNull
  | CostNum (c : Z).

(** One entry of [shared.attacks]. [ammo] is [atk.ammo?.id], [manyshot] is
    [atk.type === "manyshot"]. *)
Record Attack := {
  label : string;
  manyshot : bool;
  attackBonus : string;
  hasAmmo : bool;
  ammo : option string;
  chargeCost : JsCost
}.

Definition with_chargeCost (c : JsCost) (a : Attack) : Attack :=
  {| label := label a; manyshot := manyshot a; attackBonus := attackBonus a;
     hasAmmo := hasAmmo a; ammo := ammo a; chargeCost := c |}.

(** The fields of [rollData] the module reads or writes. *)
Record RollData := {
  rd_attributes_bab_total : Z;                  (* rollData.attributes.bab.total *)
  rd_bab : option Z;                            (* rollData.bab *)
  rd_action_powerAttack_damageBonus : option Z; (* rollData.action?.powerAttack?.damageBonus *)
  rd_chargeCost : Z;                            (* rollData.chargeCost *)
  rd_fullAttack : Z;
  rd_powerAttackBonus : Z;
  rd_powerAttackPenalty : option Z;             (* [None]: NaN *)
  rd_attackCount : option nat
}.

Definition set_fullAttack (v : Z) (r : RollData) : RollData :=
  {| rd_attributes_bab_total := rd_attributes_bab_total r; rd_bab := rd_bab r;
     rd_action_powerAttack_damageBonus := rd_action_powerAttack_damageBonus r;
     rd_chargeCost := rd_chargeCost r; rd_fullAttack := v;
     rd_powerAttackBonus := rd_powerAttackBonus r;
     rd_powerAttackPenalty := rd_powerAttackPenalty r;
     rd_attackCount := rd_attackCount r |}.

Definition set_powerAttack (bonus : Z) (penalty : option Z) (r : RollData)
  : RollData :=
  {| rd_attributes_bab_total := rd_attributes_bab_total r; rd_bab := rd_bab r;
     rd_action_powerAttack_damageBonus := rd_action_powerAttack_damageBonus r;
     rd_chargeCost := rd_chargeCost r; rd_fullAttack := rd_fullAttack r;
     rd_powerAttackBonus := bonus; rd_powerAttackPenalty := penalty;
     rd_attackCount := rd_attackCount r |}.

Definition set_attackCount (v : option nat) (r : RollData) : RollData :=
  {| rd_attributes_bab_total := rd_attributes_bab_total r; rd_bab := rd_bab r;
     rd_action_powerAttack_damageBonus := rd_action_powerAttack_damageBonus r;
     rd_chargeCost := rd_chargeCost r; rd_fullAttack := rd_fullAttack r;
     rd_powerAttackBonus := rd_powerAttackBonus r;
     rd_powerAttackPenalty := rd_powerAttackPenalty r;
     rd_attackCount := v |}.

(** The fields of [actionUse.action] the module reads. *)
Record Action := {
  hasAttack : bool;
  ammo_type : string;                    (* action.ammo.type, falsy when empty *)
  ammo_cost : Z;                         (* action.ammo.cost *)
  uses_perAttack : bool;                 (* action.uses?.perAttack *)
  isSelfCharged : bool;
  getPowerAttackMult : RollData -> Q
}.

(** The fields of [actionUse.shared] the module reads or writes. *)
Record Shared := {
  sh_fullAttack : bool;
  sh_powerAttack : bool;
  sh_formData_charge : bool;             (* shared.formData?.charge *)
  sh_charge : bool;
  sh_attackBonus : list string;
  sh_attacks : list Attack;
  sh_rollData : RollData;
  sh_totalChargeCost : Z
}.

Definition set_charge_cleared (parts : list string) (s : Shared) : Shared :=
  {| sh_fullAttack := sh_fullAttack s; sh_powerAttack := sh_powerAttack s;
     sh_formData_charge := false; sh_charge := false; sh_attackBonus := parts;
     sh_attacks := sh_attacks s; sh_rollData := sh_rollData s;
     sh_totalChargeCost := sh_totalChargeCost s |}.

Definition set_attacks (l : list Attack) (s : Shared) : Shared :=
  {| sh_fullAttack := sh_fullAttack s; sh_powerAttack := sh_powerAttack s;
     sh_formData_charge := sh_formData_charge s; sh_charge := sh_charge s;
     sh_attackBonus := sh_attackBonus s; sh_attacks := l;
     sh_rollData := sh_rollData s; sh_totalChargeCost := sh_totalChargeCost s |}.

Definition set_rollData (r : RollData) (s : Shared) : Shared :=
  {| sh_fullAttack := sh_fullAttack s; sh_powerAttack := sh_powerAttack s;
     sh_formData_charge := sh_formData_charge s; sh_charge := sh_charge s;
     sh_attackBonus := sh_attackBonus s; sh_attacks := sh_attacks s;
     sh_rollData := r; sh_totalChargeCost := sh_totalChargeCost s |}.

Definition set_totalChargeCost (c : Z) (s : Shared) : Shared :=
  {| sh_fullAttack := sh_fullAttack s; sh_powerAttack := sh_powerAttack s;
     sh_formData_charge := sh_formData_charge s; sh_charge := sh_charge s;
     sh_attackBonus := sh_attackBonus s; sh_attacks := sh_attacks s;
     sh_rollData := sh_rollData s; sh_totalChargeCost := c |}.

(** ** Step context ([_resolveCurrentAttack], lines 399-427) *)

(** [String.prototype.includes]. *)
Fixpoint includes (s t : string) : bool :=
  String.prefix t s ||
  match s with
  | EmptyString => false
  | String _ s' => includes s' t
  end.

(** [`[${chargeLabel}]`], with [chargeLabel] the localisation of [PF1.Charge]. *)
Definition chargeTag (chargeLabel : string) : string :=
  String.append "[" (String.append chargeLabel "]").

(** [!part?.includes?.(chargeTag)]: the term does not carry the charge tag. *)
Definition untagged (chargeLabel : string) (part : string) : Prop :=
  includes part (chargeTag chargeLabel) = false.

#[global] Instance untagged_dec chargeLabel part :
  Decision (untagged chargeLabel part).
Proof. unfold untagged. apply _. Defined.

(** Lines 404-410: past the first attack a selected charge is cleared and its
    term filtered out of [shared.attackBonus]. *)
Definition clearCharge (chargeLabel : string) (idx : nat) (s : Shared) : Shared :=
  if (0 <? idx)%nat && sh_formData_charge s then
    set_charge_cleared (filter (untagged chargeLabel) (sh_attackBonus s)) s
  else s.

(** Lines 415-427: [rollData.fullAttack] and the power attack values. The
    multiplier is the rational number it denotes and its product with the
    integer bonus is exact; the source multiplies doubles, which gives the same
    floor whenever the multiplier is a double and the product needs no
    rounding, as with the multiplier 1.5. *)
Definition applyPowerAttack (action : Action) (s : Shared) (rollData : RollData)
  : RollData :=
  let rollData := set_fullAttack (if sh_fullAttack s then 1 else 0) rollData in
  if sh_powerAttack s then
    let basePowerAttackBonus :=
      default 2 (rd_action_powerAttack_damageBonus rollData) in
    let powerAttackBonus :=
      (1 + rd_attributes_bab_total rollData / 4) * basePowerAttackBonus in
    let paMult := getPowerAttackMult action rollData in
    let powerAttackBonus := Qfloor (inject_Z powerAttackBonus * paMult) in
    let powerAttackPenalty :=
      (fun bab => - (1 + bab / 4)) <$> rd_bab rollData in
    set_powerAttack powerAttackBonus powerAttackPenalty rollData
  else set_powerAttack 0 (Some 0) rollData.

(** Lines 399-427 as one update of [actionUse.shared]: [refreshed] is the roll
    data [actionUse.getRollData()] has just produced. *)
Definition prepareStep (chargeLabel : string) (action : Action) (idx : nat)
    (refreshed : RollData) (s : Shared) : Shared :=
  let s := clearCharge chargeLabel idx (set_rollData refreshed s) in
  set_rollData (applyPowerAttack action s (sh_rollData s)) s.

(** What the roll of one step is evaluated against: the roll data, the
    [extraParts] of [chatAttack.addAttack] (line 473) and the charge flag.
    [ctx_addAttack] tells whether [addAttack] is called with them (line 471):
    a manyshot attack gets no attack roll of its own. *)
Record StepContext := {
  ctx_rollData : RollData;
  ctx_addAttack : bool;
  ctx_extraParts : list string;
  ctx_charge : bool
}.

Definition stepContext (atk : Attack) (s : Shared) : StepContext :=
  {| ctx_rollData := sh_rollData s;
     ctx_addAttack := negb (manyshot atk);
     ctx_extraParts := sh_attackBonus s ++ [attackBonus atk];
     ctx_charge := sh_formData_charge s |}.

(** ** Planning ([sequentialProcessWrapper], lines 144-172) *)

Inductive PlanError :=
  | INSUFFICIENT_AMMO
  | INSUFFICIENT_CHARGES.

Definition truthy (s : string) : bool :=
  match s with EmptyString => false | _ => true end.

(** Lines 144-151. *)
Definition filterAmmo (action : Action) (attacks : list Attack)
  : PlanError + list Attack :=
  if truthy (ammo_type action) && (0 <? ammo_cost action) then
    let attacks := filter (fun o => hasAmmo o = true) attacks in
    if (length attacks =? 0)%nat then inl INSUFFICIENT_AMMO else inr attacks
  else inr attacks.

(** The numbers of the planner are JavaScript numbers, IEEE 754 doubles; the
    charge cost and the pool are integer-valued ones, written as the integer
    they hold. [roundDouble z] is the double nearest to [z], ties going to the
    even significand: the integers of magnitude up to [2 ^ 53] are doubles;
    beyond that a double is a multiple of the power of two that leaves 53
    significant bits. Magnitudes from [2 ^ 1024] on stand for the infinities,
    which compare with the finite doubles as these integers do. *)
Definition roundDouble (z : Z) : Z :=
  let a := Z.abs z in
  if a <=? 2 ^ 53 then z
  else
    let ulp := 2 ^ (Z.log2 a - 52) in
    let q := a / ulp in
    let r := a mod ulp in
    let q := if 2 * r <? ulp then q
             else if ulp <? 2 * r then q + 1
             else if Z.even q then q else q + 1 in
    Z.sgn z * (q * ulp).

(** [n * x] in doubles: [1 * x] is [x], any other product is the exact
    product rounded. *)
Definition timesDouble (n x : Z) : Z :=
  if n =? 1 then x else roundDouble (n * x).

(** The exact products of the charge filter for [n] attacks are doubles. *)
Definition exactProducts (cost : Z) (n : nat) : Prop :=
  forall i : nat, (i < n)%nat ->
    roundDouble ((Z.of_nat i + 1) * cost) = (Z.of_nat i + 1) * cost.

(** Lines 163-166: the loop over [shared.attacks.entries()]. *)
Definition assignChargeCost (charges cost : Z) (attacks : list Attack)
  : list Attack :=
  imap (fun index atk =>
          if timesDouble (Z.of_nat index + 1) cost <=? charges
          then with_chargeCost (CostNum cost) atk
          else with_chargeCost CostNull atk) attacks.

Definition notNull (c : JsCost) : bool :=
  match c with CostNull => false | _ => true end.

(** Lines 159-172. [charges] is [item.charges]. *)
Definition filterCharges (action : Action) (rollData : RollData) (charges : Z)
    (attacks : list Attack) : PlanError + list Attack :=
  if negb (rd_chargeCost rollData =? 0) && uses_perAttack action then
    let cost := rd_chargeCost rollData in
    let attacks := assignChargeCost charges cost attacks in
    let attacks := filter (fun o => notNull (chargeCost o) = true) attacks in
    if (length attacks =? 0)%nat then inl INSUFFICIENT_CHARGES else inr attacks
  else inr attacks.

(** The two filters in sequence; the result is the tracker's [allAttacks]. *)
Definition planAttacks (action : Action) (rollData : RollData) (charges : Z)
    (attacks : list Attack) : PlanError + list Attack :=
  match filterAmmo action attacks with
  | inl e => inl e
  | inr attacks => filterCharges action rollData charges attacks
  end.

(** ** The world the tracker acts on *)

(** An ammunition item of the actor: [system.quantity], [system.abundant]. *)
Record AmmoItem := {
  quantity : option Z;
  abundant : bool
}.

(** Calls that leave the module: the roll, resource writes, the chat card, the
    error notification. [trace] lists them oldest first. *)
Inductive Event :=
  | RollAttack (idx : nat) (ctx : StepContext) (* the ChatAttack of lines 464-476 *)
  | CommitAmmo (idx : nat)            (* _subtractSingleAttackAmmo, line 550 *)
  | CommitCharge (idx : nat) (c : Z)  (* item.addCharges(-c), line 556 *)
  | PostMessage (idx : nat)           (* actionUse.postMessage(), line 572 *)
  | NotifyError (msg : string).       (* ui.notifications.error *)

Record World := {
  items : gmap string AmmoItem;       (* actor.items *)
  charges : Z;                        (* item.charges *)
  uses_self_value : Z;                (* action.uses.self.value *)
  shared : Shared;                    (* actionUse.shared *)
  trace : list Event
}.

Definition set_items (m : gmap string AmmoItem) (w : World) : World :=
  {| items := m; charges := charges w; uses_self_value := uses_self_value w;
     shared := shared w; trace := trace w |}.

Definition set_charges (c : Z) (w : World) : World :=
  {| items := items w; charges := c; uses_self_value := uses_self_value w;
     shared := shared w; trace := trace w |}.

Definition set_uses_self_value (v : Z) (w : World) : World :=
  {| items := items w; charges := charges w; uses_self_value := v;
     shared := shared w; trace := trace w |}.

Definition set_shared (s : Shared) (w : World) : World :=
  {| items := items w; charges := charges w;
     uses_self_value := uses_self_value w; shared := s; trace := trace w |}.

Definition emit (e : Event) (w : World) : World :=
  {| items := items w; charges := charges w;
     uses_self_value := uses_self_value w; shared := shared w;
     trace := trace w ++ [e] |}.

(** The awaited host calls of [_resolveCurrentAttack], in source order. *)
Inductive Stage :=
  | AtGetTargets      (* lines 430-450: conditionals, targets *)
  | AtRoll            (* lines 460-536: ChatAttack rolls, notes, footnotes *)
  | AtScriptCalls     (* line 544 *)
  | AtAmmoWrite       (* line 651: actor.updateEmbeddedDocuments *)
  | AtAddCharges      (* line 556 *)
  | AtSelfUpdate      (* line 561 *)
  | AtPostMessage     (* lines 565-572 *)
  | AtPostUse.        (* lines 575-577 *)

#[global] Instance Stage_eq_dec : EqDecision Stage.
Proof. solve_decision. Defined.

Inductive Exn :=
  | TypeError                 (* property read on [undefined] *)
  | HostError (s : Stage).

(** What the host answers during one attempt to resolve an attack. *)
Record Env := {
  refreshed : RollData;       (* actionUse.getRollData() *)
  hookResult : bool;          (* Hooks.call("pf1PreActionUse") !== false *)
  reject : bool;              (* shared.scriptData?.reject *)
  fault : option Stage        (* the host call that throws, if any *)
}.

(** State and exception monad of the asynchronous handlers. *)
Definition M (A : Type) : Type := World -> World * (Exn + A).

Definition ret {A} (a : A) : M A := fun w => (w, inr a).

Definition bind {A B} (m : M A) (k : A -> M B) : M B :=
  fun w => match m w with
           | (w', inl e) => (w', inl e)
           | (w', inr a) => k a w'
           end.

Definition throw {A} (e : Exn) : M A := fun w => (w, inl e).
Definition get : M World := fun w => (w, inr w).
Definition modify (f : World -> World) : M unit := fun w => (f w, inr tt).
Definition when (b : bool) (m : M unit) : M unit := if b then m else ret tt.

Notation "x <- m ;; k" := (bind m (fun x => k))
  (at level 100, m at next level, right associativity).
Notation "m ;;; k" := (bind m (fun _ => k))
  (at level 100, right associativity).

(** An awaited host call: throws when it is the one [env] marks. *)
Definition host (env : Env) (s : Stage) : M unit :=
  if decide (fault env = Some s) then throw (HostError s) else ret tt.

(** [_subtractSingleAttackAmmo] (lines 640-652). *)
Definition _subtractSingleAttackAmmo (env : Env) (action : Action)
    (atk : Attack) (ammoCost : Z) : M unit :=
  if negb (hasAttack action) then ret tt
  else if negb (truthy (ammo_type action)) then ret tt
  else match ammo atk with
  | None => ret tt
  | Some id =>
    w <- get ;;
    match items w !! id with
    | None => ret tt
    | Some ammoItem =>
      if abundant ammoItem then ret tt
      else
        let newQty := default 0 (quantity ammoItem) - ammoCost in
        host env AtAmmoWrite ;;;
        modify (fun w => set_items
          (<[id := {| quantity := Some newQty; abundant := abundant ammoItem |}]>
             (items w)) w)
    end
  end.

(** [atk.chargeCost && atk.chargeCost > 0]. *)
Definition chargeDue (atk : Attack) : option Z :=
  match chargeCost atk with
  | CostNum c => if 0 <? c then Some c else None
  | _ => None
  end.

(** ** The tracker *)

Inductive Button := NextBtn | SkipBtn | CancelBtn | CloseBtn.

#[global] Instance Button_eq_dec : EqDecision Button.
Proof. solve_decision. Defined.

Inductive RunResult := completed | cancelled.

(** [SequentialAttackTracker]. [dialog] holds the buttons of the rendered
    tracker body, [None] while the dialog has no element; [result] is the value
    the promise of [run()] resolved to; [timers] counts pending auto-close
    timeouts. *)
Record Tracker := {
  allAttacks : list Attack;
  currentIndex : nat;
  resolvedIndices : gset nat;
  skippedIndices : gset nat;
  _completed : bool;
  dialog : option (list Button);
  result : option RunResult;
  timers : nat
}.

(** The constructor followed by [run()]: the dialog is rendered. *)
Definition newTracker (allAttacks : list Attack) : Tracker :=
  {| allAttacks := allAttacks; currentIndex := 0%nat; resolvedIndices := ∅;
     skippedIndices := ∅; _completed := false;
     dialog := Some [NextBtn; SkipBtn; CancelBtn]; result := None;
     timers := 0%nat |}.

(** The buttons [_buildTrackerBody] writes (lines 330-341). *)
Definition _buildTrackerBody (t : Tracker) : list Button :=
  if _completed t then [CloseBtn] else [NextBtn; SkipBtn; CancelBtn].

(** A promise keeps the first value it is resolved with. *)
Definition _resolve (r : RunResult) (t : Tracker) : Tracker :=
  {| allAttacks := allAttacks t; currentIndex := currentIndex t;
     resolvedIndices := resolvedIndices t; skippedIndices := skippedIndices t;
     _completed := _completed t; dialog := dialog t;
     result := match result t with None => Some r | Some r' => Some r' end;
     timers := timers t |}.

Definition set_completed (t : Tracker) : Tracker :=
  {| allAttacks := allAttacks t; currentIndex := currentIndex t;
     resolvedIndices := resolvedIndices t; skippedIndices := skippedIndices t;
     _completed := true; dialog := dialog t; result := result t;
     timers := timers t |}.

(** [dialog.close()]: the [close] callback, then the element is gone. *)
Definition dialog_close (t : Tracker) : Tracker :=
  let t := if _completed t then t else _resolve cancelled t in
  {| allAttacks := allAttacks t; currentIndex := currentIndex t;
     resolvedIndices := resolvedIndices t; skippedIndices := skippedIndices t;
     _completed := _completed t; dialog := None; result := result t;
     timers := timers t |}.

(** [_updateDialog] (lines 616-635). *)
Definition _updateDialog (t : Tracker) : Tracker :=
  match dialog t with
  | None => t
  | Some _ =>
    {| allAttacks := allAttacks t; currentIndex := currentIndex t;
       resolvedIndices := resolvedIndices t; skippedIndices := skippedIndices t;
       _completed := _completed t; dialog := Some (_buildTrackerBody t);
       result := result t;
       timers := if _completed t then S (timers t) else timers t |}
  end.

(** Lines 589-595 and 606-611: record [idx] in one of the two sets, move on,
    mark completion. *)
Definition markResolved (t : Tracker) : Tracker :=
  let idx := currentIndex t in
  {| allAttacks := allAttacks t; currentIndex := (idx + 1)%nat;
     resolvedIndices := resolvedIndices t ∪ {[idx]};
     skippedIndices := skippedIndices t;
     _completed := if (length (allAttacks t) <=? idx + 1)%nat then true
                   else _completed t;
     dialog := dialog t; result := result t; timers := timers t |}.

Definition markSkipped (t : Tracker) : Tracker :=
  let idx := currentIndex t in
  {| allAttacks := allAttacks t; currentIndex := (idx + 1)%nat;
     resolvedIndices := resolvedIndices t;
     skippedIndices := skippedIndices t ∪ {[idx]};
     _completed := if (length (allAttacks t) <=? idx + 1)%nat then true
                   else _completed t;
     dialog := dialog t; result := result t; timers := timers t |}.

(** The methods of the tracker run on the tracker object and the world
    together: [this] reads the object, [setThis] writes it, [liftW] runs a
    computation that touches the world only. *)
Definition MT (A : Type) : Type :=
  Tracker * World -> (Tracker * World) * (Exn + A).

Definition bindT {A B} (m : MT A) (k : A -> MT B) : MT B :=
  fun st => match m st with
            | (st', inl e) => (st', inl e)
            | (st', inr a) => k a st'
            end.

Definition this : MT Tracker := fun st => (st, inr (fst st)).

Definition setThis (f : Tracker -> Tracker) : MT unit :=
  fun st => ((f (fst st), snd st), inr tt).

Definition liftW {A} (m : M A) : MT A :=
  fun st => ((fst st, fst (m (snd st))), snd (m (snd st))).

Section Tracker.

Variable chargeLabel : string.
Variable action : Action.

(** Lines 546-578: the part guarded by the hook result and the script calls. *)
Definition commitAndPost (env : Env) (idx : nat) (atk : Attack) : M unit :=
  let ammoCost := ammo_cost action in
  when (negb (ammoCost =? 0) && hasAmmo atk)
    (modify (emit (CommitAmmo idx)) ;;;
     _subtractSingleAttackAmmo env action atk ammoCost) ;;;
  match chargeDue atk with
  | Some c =>
    modify (fun w => set_shared (set_totalChargeCost c (shared w)) w) ;;;
    modify (emit (CommitCharge idx c)) ;;;
    host env AtAddCharges ;;;
    modify (fun w => set_charges (charges w - c) w)
  | None => ret tt
  end ;;;
  when ((idx =? 0)%nat && isSelfCharged action)
    (host env AtSelfUpdate ;;;
     modify (fun w => set_uses_self_value (uses_self_value w - 1) w)) ;;;
  host env AtPostMessage ;;;
  modify (emit (PostMessage idx)) ;;;
  host env AtPostUse.

(** Lines 393-586 of [_resolveCurrentAttack]: the work of one attempt on the
    shared state and the world, up to the restore of the shared arrays. [t] is
    [this] as lines 387-392 read it; these lines do not mention the tracker
    again. *)
Definition rollCurrentAttack (env : Env) (t : Tracker) : M unit :=
  let idx := currentIndex t in
  (* 399-427 *)
  modify (fun w =>
    set_shared (prepareStep chargeLabel action idx (refreshed env) (shared w)) w) ;;;
  (* 430-450 *)
  host env AtGetTargets ;;;
  (* 392, 465: atk.label of an absent attack; the narrowing to [undefined]
     that precedes it in the source is not modelled *)
  match allAttacks t !! idx with
  | None => throw TypeError
  | Some atk =>
    (* 455-461 *)
    w0 <- get ;;
    let origAttacks := sh_attacks (shared w0) in
    modify (fun w =>
      let s := set_attacks [atk] (shared w) in
      set_shared (set_rollData (set_attackCount (Some idx) (sh_rollData s)) s) w) ;;;
    (* 464-510 *)
    modify (fun w => emit (RollAttack idx (stepContext atk (shared w))) w) ;;;
    host env AtRoll ;;;
    (* 516-523: atk.ammo.id *)
    (if hasAmmo atk then
       match ammo atk with None => throw TypeError | Some _ => ret tt end
     else ret tt) ;;;
    (* 540-579 *)
    when (hookResult env)
      (host env AtScriptCalls ;;;
       when (negb (reject env)) (commitAndPost env idx atk)) ;;;
    (* 582-586 *)
    modify (fun w =>
      let s := set_attacks origAttacks (shared w) in
      set_shared (set_rollData (set_attackCount None (sh_rollData s)) s) w)
  end.

(** [_resolveCurrentAttack] (lines 386-599) on the tracker object and the
    world: the tracker is read, the work is done, and only then is the tracker
    written (lines 589-598). An exception leaves both as they are at the
    throw. *)
Definition _resolveCurrentAttack (env : Env) : MT unit :=
  bindT this (fun t =>                              (* 387-392 *)
  bindT (liftW (rollCurrentAttack env t)) (fun _ => (* 393-586 *)
  bindT (setThis markResolved) (fun _ =>            (* 589-595 *)
  setThis _updateDialog))).                         (* 598 *)

(** [_skipCurrentAttack] (lines 604-614). *)
Definition _skipCurrentAttack (t : Tracker) : Tracker :=
  _updateDialog (markSkipped t).

(** The click handler of the next button (lines 348-361): an exception is
    logged and shown to the user; nothing is rolled back. *)
Definition onNext (env : Env) (st : Tracker * World) : Tracker * World :=
  match _resolveCurrentAttack env st with
  | (st', inr _) => st'
  | (st', inl _) =>
    (fst st',
     emit (NotifyError "Error resolving attack. Check console.") (snd st'))
  end.

Definition onSkip (st : Tracker * World) : Tracker * World :=
  (_skipCurrentAttack (fst st), snd st).

(** Lines 368-373. *)
Definition onCancel (st : Tracker * World) : Tracker * World :=
  (dialog_close (_resolve cancelled (set_completed (fst st))), snd st).

(** Lines 375-380. *)
Definition onClose (st : Tracker * World) : Tracker * World :=
  (_resolve completed (dialog_close (set_completed (fst st))), snd st).

(** The two operations of the controller, called on the tracker directly. *)
Inductive Op :=
  | Advance (env : Env)
  | Skip.

Definition applyOp (o : Op) (st : Tracker * World) : Tracker * World :=
  match o with
  | Advance env => onNext env st
  | Skip => onSkip st
  end.

Definition runOps (os : list Op) (st : Tracker * World) : Tracker * World :=
  foldl (fun st o => applyOp o st) st os.

(** What can happen to the dialog: a click on one of its buttons, its own
    close control, an auto-close timeout. *)
Inductive Command :=
  | Click (b : Button) (env : Env)
  | DialogX
  | Timeout.

Definition rendered (b : Button) (t : Tracker) : bool :=
  match dialog t with
  | Some bs => bool_decide (b ∈ bs)
  | None => false
  end.

(** Lines 627-632. *)
Definition onTimeout (st : Tracker * World) : Tracker * World :=
  let t := fst st in
  match timers t with
  | O => st
  | S n =>
    let t := {| allAttacks := allAttacks t; currentIndex := currentIndex t;
                resolvedIndices := resolvedIndices t;
                skippedIndices := skippedIndices t;
                _completed := _completed t; dialog := dialog t;
                result := result t; timers := n |} in
    match dialog t with
    | None => (t, snd st)
    | Some _ => (dialog_close (_resolve completed t), snd st)
    end
  end.

(** A click reaches a handler only through a button of the rendered body
    ([_activateListeners] binds to what [html.find] returns). *)
Definition step (c : Command) (st : Tracker * World) : Tracker * World :=
  match c with
  | Click b env =>
    if rendered b (fst st) then
      match b with
      | NextBtn => onNext env st
      | SkipBtn => onSkip st
      | CancelBtn => onCancel st
      | CloseBtn => onClose st
      end
    else st
  | DialogX =>
    match dialog (fst st) with
    | None => st
    | Some _ => (dialog_close (fst st), snd st)
    end
  | Timeout => onTimeout st
  end.

Definition run (cs : list Command) (st : Tracker * World) : Tracker * World :=
  foldl (fun st c => step c st) st cs.

End Tracker.

(** ** The chat-card variant: one button per attack *)

Module ChatCard.

(** An entry of [attackParts]: a [bonus, label] pair, or the [undefined] an
    out-of-range array read yields. *)
Inductive JsPart :=
  | PartUndefined
  | Part (bonus label : string).

(** [action.system] or [action.data], as far as the module looks into it. *)
Record Layout := {
  attackParts : option (list JsPart)
}.

Record ItemAction := {
  system : option Layout;
  data : option Layout
}.

(** [action?.system?.attackParts ?? action?.data?.attackParts ?? []]. *)
Definition getAttackParts (action : ItemAction) : list JsPart :=
  match system action ≫= attackParts with
  | Some parts => parts
  | None =>
    match data action ≫= attackParts with
    | Some parts => parts
    | None => []
    end
  end.

(** Lines 167-171 and 180-184: the assignment picks the layout by presence. *)
Definition setAttackParts (parts : list JsPart) (action : ItemAction)
  : ItemAction :=
  match system action with
  | Some _ => {| system := Some {| attackParts := Some parts |};
                 data := data action |}
  | None =>
    match data action with
    | Some _ => {| system := None;
                   data := Some {| attackParts := Some parts |} |}
    | None => action
    end
  end.

(** [origParts[i]] for an integer [i]. *)
Definition at_index (parts : list JsPart) (i : Z) : JsPart :=
  if i <? 0 then PartUndefined
  else default PartUndefined (parts !! Z.to_nat i).

Record ButtonState := {
  disabled : bool;
  used : bool                 (* class pf1-seq--used *)
}.

(** The module-level flag, the actions reachable from the message flags, the
    clicked button and the console. *)
Record State := {
  _pendingSingleAttack : option string;
  actions : gmap string ItemAction;
  btn : ButtonState;
  console : list string
}.

(** What [action.use({ skipDialog: true })] does: it may throw, and the host
    may leave an array of its own in [attackParts]. *)
Record UseEnv := {
  use_throws : bool;
  use_leaves : option (list JsPart)
}.

Definition use (env : UseEnv) (action : ItemAction) : ItemAction * bool :=
  (match use_leaves env with
   | Some parts => setAttackParts parts action
   | None => action
   end, use_throws env).

Definition markUsed : ButtonState := {| disabled := true; used := true |}.
Definition markFree : ButtonState := {| disabled := false; used := false |}.

(** The click handler of a roll button (lines 126-187). *)
Definition onRollClick (actionId : string) (attackIndex : Z) (env : UseEnv)
    (st : State) : State :=
  match actions st !! actionId with
  | None =>
    {| _pendingSingleAttack := _pendingSingleAttack st; actions := actions st;
       btn := btn st;
       console := console st ++ ["Could not find the action to roll."] |}
  | Some action =>
    let origParts := getAttackParts action in
    if Z.of_nat (length origParts) <? attackIndex then
      {| _pendingSingleAttack := _pendingSingleAttack st; actions := actions st;
         btn := markFree;
         console := console st ++ ["Attack index out of range."] |}
    else
      let singlePart :=
        if attackIndex =? 0 then []
        else [at_index origParts (attackIndex - 1)] in
      (* line 163: the flag holds [{ actionId }] while [use] runs, for the
         pf1PreActionUse hook to let the call through *)
      (* try *)
      let '(action, threw) := use env (setAttackParts singlePart action) in
      (* catch *)
      let btn' := if threw then markFree else markUsed in
      let console' :=
        if threw then console st ++ ["Error rolling sequential attack."]
        else console st in
      (* finally *)
      {| _pendingSingleAttack := None;
         actions := <[actionId := setAttackParts origParts action]> (actions st);
         btn := btn'; console := console' |}
  end.

End ChatCard.

(** ** Sample data *)

Definition sampleRollData (babTotal : Z) (bab : option Z) (chargeCost : Z)
  : RollData :=
  {| rd_attributes_bab_total := babTotal; rd_bab := bab;
     rd_action_powerAttack_damageBonus := Some 2; rd_chargeCost := chargeCost;
     rd_fullAttack := 0; rd_powerAttackBonus := 0;
     rd_powerAttackPenalty := Some 0;
     rd_attackCount := None |}.

(** A two-handed weapon: power attack multiplier 1.5, no ammunition. *)
Definition greatsword : Action :=
  {| hasAttack := true; ammo_type := ""; ammo_cost := 0;
     uses_perAttack := false; isSelfCharged := false;
     getPowerAttackMult := fun _ => 3 # 2 |}.

(** A bow: one arrow per attack. *)
Definition longbow : Action :=
  {| hasAttack := true; ammo_type := "arrow"; ammo_cost := 1;
     uses_perAttack := false; isSelfCharged := false;
     getPowerAttackMult := fun _ => 1 # 1 |}.

(** A charged item that spends its charges per attack. *)
Definition wand : Action :=
  {| hasAttack := true; ammo_type := ""; ammo_cost := 0;
     uses_perAttack := true; isSelfCharged := false;
     getPowerAttackMult := fun _ => 1 # 1 |}.

Definition strike (name bonus : string) : Attack :=
  {| label := name; manyshot := false; attackBonus := bonus; hasAmmo := false;
     ammo := None; chargeCost := CostUndefined |}.

Definition shot (name bonus : string) (loaded : bool) : Attack :=
  {| label := name; manyshot := false; attackBonus := bonus; hasAmmo := loaded;
     ammo := if loaded then Some "arrows" else None;
     chargeCost := CostUndefined |}.

Definition sampleShared (powerAttack charge : bool) (parts : list string)
  : Shared :=
  {| sh_fullAttack := true; sh_powerAttack := powerAttack;
     sh_formData_charge := charge; sh_charge := charge;
     sh_attackBonus := parts; sh_attacks := [];
     sh_rollData := sampleRollData 0 (Some 0) 0; sh_totalChargeCost := 0 |}.

(** An action in the newer layout with two extra attacks, and a chat-card state
    holding it. *)
Definition flurry : ChatCard.ItemAction :=
  {| ChatCard.system :=
       Some {| ChatCard.attackParts :=
                 Some [ChatCard.Part "-5" "Second"; ChatCard.Part "-10" "Third"] |};
     ChatCard.data := None |}.

Definition cardState : ChatCard.State :=
  {| ChatCard._pendingSingleAttack := None;
     ChatCard.actions := {[ "flurry" := flurry ]};
     ChatCard.btn := ChatCard.markFree;
     ChatCard.console := [] |}.

(** ** Reading the trace *)

Definition isCommitAmmo (i : nat) (e : Event) : bool :=
  match e with CommitAmmo j => bool_decide (i = j) | _ => false end.


Definition isPost (i : nat) (e : Event) : bool :=
  match e with PostMessage j => bool_decide (i = j) | _ => false end.

Fixpoint count (p : Event -> bool) (l : list Event) : nat :=
  match l with
  | [] => 0
  | e :: l => (if p e then 1 else 0) + count p l
  end%nat.

(** The effect of [_subtractSingleAttackAmmo] on [actor.items] when the write
    goes through. *)
Definition subtractAmmo (action : Action) (atk : Attack) (ammoCost : Z)
    (m : gmap string AmmoItem) : gmap string AmmoItem :=
  if hasAttack action && truthy (ammo_type action) then
    match ammo atk with
    | Some id =>
      match m !! id with
      | Some ammoItem =>
        if abundant ammoItem then m
        else <[id := {| quantity := Some (default 0 (quantity ammoItem) - ammoCost);
                        abundant := abundant ammoItem |}]> m
      | None => m
      end
    | None => m
    end
  else m.

(** The resource calls and the chat card of one attack that is neither vetoed
    by the hook nor rejected by a script call. *)
Definition commitEvents (action : Action) (idx : nat) (atk : Attack)
  : list Event :=
  (if negb (ammo_cost action =? 0) && hasAmmo atk then [CommitAmmo idx] else [])
  ++ match chargeDue atk with Some c => [CommitCharge idx c] | None => [] end
  ++ [PostMessage idx].

(** The world after lines 546-578 when no host call throws. *)
Definition commitWorld (action : Action) (idx : nat) (atk : Attack)
    (w : World) : World :=
  let w :=
    if negb (ammo_cost action =? 0) && hasAmmo atk then
      let w := emit (CommitAmmo idx) w in
      set_items (subtractAmmo action atk (ammo_cost action) (items w)) w
    else w in
  let w :=
    match chargeDue atk with
    | Some c =>
      let w := set_shared (set_totalChargeCost c (shared w)) w in
      let w := emit (CommitCharge idx c) w in
      set_charges (charges w - c) w
    | None => w
    end in
  let w :=
    if (idx =? 0)%nat && isSelfCharged action
    then set_uses_self_value (uses_self_value w - 1) w else w in
  emit (PostMessage idx) w.

(** The world at the roll of attack [atk] at position [idx] (lines 399-510). *)
Definition rollWorld (chargeLabel : string) (action : Action) (env : Env)
    (idx : nat) (atk : Attack) (w : World) : World :=
  let w := set_shared
    (prepareStep chargeLabel action idx (refreshed env) (shared w)) w in
  let w :=
    let s := set_attacks [atk] (shared w) in
    set_shared (set_rollData (set_attackCount (Some idx) (sh_rollData s)) s) w in
  emit (RollAttack idx (stepContext atk (shared w))) w.

(** The world after a whole attempt at attack [atk] when no host call throws. *)
Definition resolvedWorld (chargeLabel : string) (action : Action) (env : Env)
    (idx : nat) (atk : Attack) (w : World) : World :=
  let origAttacks :=
    sh_attacks (prepareStep chargeLabel action idx (refreshed env) (shared w)) in
  let w := rollWorld chargeLabel action env idx atk w in
  let w :=
    if hookResult env && negb (reject env)
    then commitWorld action idx atk w else w in
  let s := set_attacks origAttacks (shared w) in
  set_shared (set_rollData (set_attackCount None (sh_rollData s)) s) w.

(** ** Invariants of a run *)

(** The two index sets partition the positions below [currentIndex]. *)
Definition bookkeeping (t : Tracker) : Prop :=
  resolvedIndices t ∩ skippedIndices t = ∅ /\
  resolvedIndices t ∪ skippedIndices t = set_seq 0 (currentIndex t).

(** Two trackers that differ in the dialog, the promise and the timers only. *)
Definition sameCore (t t' : Tracker) : Prop :=
  allAttacks t' = allAttacks t /\
  currentIndex t' = currentIndex t /\
  resolvedIndices t' = resolvedIndices t /\
  skippedIndices t' = skippedIndices t.

(** The sequence is over: all attacks handled or the run cancelled. *)
Definition terminal (t : Tracker) : Prop :=
  _completed t = true \/ result t <> None.

(** What is on screen agrees with the phase: a settled promise means the
    dialog is gone, a completed tracker shows neither the next nor the skip
    button. *)
Definition dialogInv (t : Tracker) : Prop :=
  (result t <> None -> dialog t = None) /\
  (_completed t = true ->
   rendered NextBtn t = false /\ rendered SkipBtn t = false).





(** How many attacks of [l] draw on the ammunition item [id]. *)
Fixpoint usesAmmo (id : string) (l : list Attack) : Z :=
  match l with
  | [] => 0
  | a :: l =>
    (if hasAmmo a && bool_decide (ammo a = Some id) then 1 else 0)
    + usesAmmo id l
  end.



(** A roll of the plan [atks] when the dialog left the additive terms [b0]:
    the first attack is rolled with all of them and the charge flag set, a
    later one with the untagged ones and the flag cleared; the attack roll is
    asked for unless the attack is a manyshot one. *)
Definition chargeRoll (chargeLabel : string) (atks : list Attack)
    (b0 : list string) (e : Event) : Prop :=
  match e with
  | RollAttack j ctx =>
    exists atk, atks !! j = Some atk /\
      ctx_addAttack ctx = negb (manyshot atk) /\
      if decide (j = 0%nat)
      then ctx_charge ctx = true /\
           ctx_extraParts ctx = b0 ++ [attackBonus atk]
      else ctx_charge ctx = false /\
           ctx_extraParts ctx
           = filter (untagged chargeLabel) b0 ++ [attackBonus atk]
  | _ => True
  end.

(** What a run keeps when the dialog left the additive terms [b0] and the
    flag [shared.charge] as [c0]: either nothing was cleared yet, or both
    flags are off and the tagged terms are gone; every roll so far was of the
    right kind; and every position recorded as resolved was rolled. *)
Definition chargeInv (chargeLabel : string) (atks : list Attack)
    (b0 : list string) (c0 : bool) (st : Tracker * World) : Prop :=
  allAttacks (fst st) = atks /\
  ((sh_formData_charge (shared (snd st)) = true /\
    sh_charge (shared (snd st)) = c0 /\
    sh_attackBonus (shared (snd st)) = b0) \/
   (sh_formData_charge (shared (snd st)) = false /\
    sh_charge (shared (snd st)) = false /\
    sh_attackBonus (shared (snd st)) = filter (untagged chargeLabel) b0 /\
    (0 < currentIndex (fst st))%nat)) /\
  Forall (chargeRoll chargeLabel atks b0) (trace (snd st)) /\
  (forall i, i ∈ resolvedIndices (fst st) ->
     exists ctx, RollAttack i ctx ∈ trace (snd st)).

(** A relation between the world before and after that every step of a
    computation respects. *)
Definition frame {A} (R : relation World) (m : M A) : Prop :=
  forall w, R w (fst (m w)).

(** What a roll event of position [idx] may look like when the shared state
    holds the additive terms [parts] and the charge flag [flag]. *)
Definition rollOf (t : Tracker) (parts : list string) (flag : bool)
    (e : Event) : Prop :=
  match e with
  | RollAttack j ctx =>
    j = currentIndex t /\
    exists atk, allAttacks t !! j = Some atk /\
      ctx_addAttack ctx = negb (manyshot atk) /\
      ctx_extraParts ctx = parts ++ [attackBonus atk] /\
      ctx_charge ctx = flag
  | _ => True
  end.

(** The additive terms and the two charge flags stay, the trace grows by rolls
    of the current attack against them. *)
Definition keepsCharge (t : Tracker) : relation World := fun w w' =>
  sh_attackBonus (shared w') = sh_attackBonus (shared w) /\
  sh_formData_charge (shared w') = sh_formData_charge (shared w) /\
  sh_charge (shared w') = sh_charge (shared w) /\
  exists evs, trace w' = trace w ++ evs /\
    Forall (rollOf t (sh_attackBonus (shared w)) (sh_formData_charge (shared w)))
      evs.


(** The answers of the host during the command satisfy [ok]. *)
Definition hostIs (ok : Env -> Prop) (c : Command) : Prop :=
  match c with
  | Click NextBtn env => ok env
  | _ => True
  end.

(** No host call throws during the command. *)
Definition faultFree : Command -> Prop :=
  hostIs (fun env => fault env = None).

(** Two loaded shots, a quiver of five arrows, and four answers of the host:
    all well, the chat card failing to post, the pre-use hook vetoing, a
    script call rejecting. *)
Definition volley : list Attack :=
  [shot "Attack" "" true; shot "Iterative 1" "-5" true].

Definition quiver (arrows : Z) : World :=
  {| items := {[ "arrows" := {| quantity := Some arrows; abundant := false |} ]};
     charges := 0; uses_self_value := 0;
     shared := sampleShared false false []; trace := [] |}.

Definition hostOk : Env :=
  {| refreshed := sampleRollData 6 (Some 6) 0; hookResult := true; reject := false;
     fault := None |}.

Definition hostFailsToPost : Env :=
  {| refreshed := sampleRollData 6 (Some 6) 0; hookResult := true; reject := false;
     fault := Some AtPostMessage |}.

Definition hostVetoes : Env :=
  {| refreshed := sampleRollData 6 (Some 6) 0; hookResult := false; reject := false;
     fault := None |}.


(** A charging full attack: the dialog left the charge term and one more. *)
Definition chargingWorld : World :=
  {| items := ∅; charges := 0; uses_self_value := 0;
     shared := sampleShared false true ["2[Charge]"; "1[Bless]"]; trace := [] |}.

Definition blows : list Attack :=
  [strike "Attack" "0"; strike "Iterative 1" "-5"].

(** ** The tracker body ([_buildTrackerBody], lines 290-345) *)

Inductive RowStatus := seq_pending | seq_skipped | seq_resolved | seq_current.

(** Lines 301-317: the status class of row [i]. *)
Definition rowStatus (t : Tracker) (i : nat) : RowStatus :=
  let isResolved := bool_decide (i ∈ resolvedIndices t) in
  let isSkipped := bool_decide (i ∈ skippedIndices t) in
  let isCurrent := bool_decide (i = currentIndex t) && negb (_completed t) in
  if isSkipped then seq_skipped
  else if isResolved then seq_resolved
  else if isCurrent then seq_current
  else seq_pending.

(** The rows of the list, one per attack (the loop of line 300). *)
Definition rows (t : Tracker) : list RowStatus :=
  imap (fun i _ => rowStatus t i) (allAttacks t).

(** Line 295: the numerator of the progress label. *)
Definition nextAttack (t : Tracker) : nat :=
  if _completed t then length (allAttacks t) else (currentIndex t + 1)%nat.

(** Line 332: [this.currentIndex === attacks.length - 1]. *)
Definition isLast (t : Tracker) : bool :=
  Z.of_nat (currentIndex t) =? Z.of_nat (length (allAttacks t)) - 1.

(** Line 333. *)
Definition btnLabel (t : Tracker) : string :=
  if isLast t then "Roll Final Attack" else "Roll Next Attack".

(** What holds of the tracker in every state the dialog can reach from a
    non-empty plan. *)
Definition trackerInv (t : Tracker) : Prop :=
  (dialog t = None \/ dialog t = Some (_buildTrackerBody t)) /\
  (result t <> None -> dialog t = None) /\
  (currentIndex t <= length (allAttacks t))%nat /\
  (_completed t = false -> (currentIndex t < length (allAttacks t))%nat) /\
  (_completed t = true -> dialog t <> None ->
   currentIndex t = length (allAttacks t)) /\
  ((0 < timers t)%nat ->
   _completed t = true /\ currentIndex t = length (allAttacks t)) /\
  (result t = Some completed ->
   _completed t = true /\ currentIndex t = length (allAttacks t)) /\
  (result t = Some cancelled ->
   (currentIndex t < length (allAttacks t))%nat).

(** ** Resources over a run *)

(** An ammunition item before and after: the abundant flag stays; an abundant
    item, or one no attack of the plan draws on ([referenced] false), is
    untouched; with a cost that is not negative the quantity does not grow. *)
Definition itemKept (cost : Z) (referenced : bool) (it it' : AmmoItem) : Prop :=
  abundant it' = abundant it /\
  (abundant it = true \/ referenced = false -> it' = it) /\
  (0 <= cost -> default 0 (quantity it') <= default 0 (quantity it)).

(** The resources of the world before and after, for the plan [refs]. *)
Definition spends (action : Action) (refs : list Attack) : relation World :=
  fun w w' =>
  (forall id,
     match items w !! id, items w' !! id with
     | Some it, Some it' =>
       itemKept (ammo_cost action) (bool_decide (0 < usesAmmo id refs)) it it'
     | None, None => True
     | _, _ => False
     end) /\
  charges w' <= charges w /\
  (Forall (fun atk => chargeDue atk = None) refs -> charges w' = charges w) /\
  uses_self_value w' <= uses_self_value w /\
  (isSelfCharged action = false -> uses_self_value w' = uses_self_value w).

(** An item with [n] charges and no ammunition; a self-charged action. *)
Definition charged (n : Z) : World :=
  {| items := ∅; charges := n; uses_self_value := 1;
     shared := sampleShared false false []; trace := [] |}.


(** ** The isolation of one attack (lines 455-461, 582-586) *)

(** [shared.attacks] and [rollData.attackCount] are the same before and
    after. *)
Definition keepsIsolation : relation World := fun w w' =>
  sh_attacks (shared w') = sh_attacks (shared w) /\
  rd_attackCount (sh_rollData (shared w'))
  = rd_attackCount (sh_rollData (shared w)).

(** ** The wrapper of [ActionUse.prototype.process] (lines 50-217) *)

(** What [promptMeasureTemplate()] resolves to. *)
Inductive Template := TemplateNull | TemplateUndefined | TemplatePlaced.

#[global] Instance Template_eq_dec : EqDecision Template.
Proof. solve_decision. Defined.

(** The dialog result, as far as the wrapper looks into it: [form.fullAttack],
    [None] when it is not a boolean. *)
Record Form := {
  form_fullAttack : option bool
}.

(** What the host answers during one call of the wrapper. The host calls are
    taken to return; [shared.attacks] is read twice, before and after the host
    applies the dialog result. *)
Record ProcessEnv := {
  setting_sequentialAttacks : bool;     (* game.settings.get(...) *)
  arg_skipDialog : bool;                (* the argument of process() *)
  item_type : option string;            (* actionUse.item?.type *)
  item_subType : option string;         (* actionUse.item?.subType *)
  checkRequirements : Z;                (* line 90 *)
  createAttackDialog : option Form;     (* line 100, [None] when falsy *)
  attacks_at_gate : list Attack;        (* shared.attacks at line 113 *)
  attacks_at_planning : list Attack;    (* shared.attacks at line 144 *)
  rollData_at_planning : RollData;      (* rollData at line 160 *)
  item_charges : Z;                     (* item.charges, line 162 *)
  checkAttackRequirements : Z;          (* line 174 *)
  needsTemplate : bool;                 (* shared.useMeasureTemplate && canvas.scene *)
  promptMeasureTemplate : Template;     (* line 180 *)
  trackerWorld : World;                 (* the state in which the tracker opens *)
  dialogCommands : list Command;        (* what happens to the tracker dialog *)
  clearTargets : bool                   (* the condition of line 206 *)
}.

(** The calls the wrapper makes, in source order. *)
Inductive Call :=
  | Wrapped (skipDialog : bool)         (* lines 53, 62, 67, 76, 124 *)
  | CheckRequirements                   (* 90 *)
  | AutoSelectAmmo                      (* 93 *)
  | GetRollData                         (* 94 *)
  | GenerateAttacks                     (* 97 *)
  | CreateAttackDialog                  (* 100 *)
  | PatchDialog                         (* 122: createAttackDialog replaced *)
  | AlterRollData                       (* 135 *)
  | CreateActionUseHook                 (* 139 *)
  | NotifyDepleted (e : PlanError)      (* 148, 169 *)
  | HandleConditionals                  (* 154 *)
  | PrepareChargeCost                   (* 157 *)
  | CheckAttackRequirements             (* 174 *)
  | PromptMeasureTemplate               (* 180 *)
  | GetTargets                          (* 188 *)
  | RunTracker (allAttacks : list Attack) (* 192-196 *)
  | DeleteTemplate                      (* 200 *)
  | ClearTargets.                       (* 207-212 *)

(** What the wrapper's promise resolves to; [RetPending] when the promise of
    [tracker.run()] is never resolved. *)
Inductive Returned :=
  | RetWrapped (skipDialog : bool)      (* the result of [wrapped] *)
  | RetErr (code : Z + PlanError)       (* { err: ERR_REQUIREMENT, code } *)
  | RetUndefined
  | RetActionUse
  | RetPending.

Record Outcome := {
  calls : list Call;
  returned : Returned;
  final : option (Tracker * World)      (* the tracker when its dialog is done *)
}.

Definition outcome (cs : list Call) (r : Returned) : Outcome :=
  {| calls := cs; returned := r; final := None |}.

(** Line 75. *)
Definition chainsByType (env : ProcessEnv) : bool :=
  bool_decide (item_type env = Some "spell")
  || bool_decide (item_type env = Some "consumable")
  || (bool_decide (item_type env = Some "feat")
      && bool_decide (item_subType env = Some "classFeat")).

Definition sequentialProcessWrapper (chargeLabel : string) (action : Action)
    (env : ProcessEnv) : Outcome :=
  let skipDialog := arg_skipDialog env in
  (* 52-54 *)
  if negb (setting_sequentialAttacks env) then
    outcome [Wrapped skipDialog] (RetWrapped skipDialog)
  (* 61-63 *)
  else if negb (hasAttack action) then
    outcome [Wrapped skipDialog] (RetWrapped skipDialog)
  (* 66-68 *)
  else if skipDialog then
    outcome [Wrapped skipDialog] (RetWrapped skipDialog)
  (* 73-77 *)
  else if chainsByType env then
    outcome [Wrapped skipDialog] (RetWrapped skipDialog)
  else
  (* 90-91 *)
  let cs := [CheckRequirements] in
  let reqErr := checkRequirements env in
  if 0 <? reqErr then outcome cs (RetErr (inl reqErr)) else
  (* 93-104 *)
  let cs := cs ++ [AutoSelectAmmo; GetRollData; GenerateAttacks;
                   CreateAttackDialog] in
  match createAttackDialog env with
  | None => outcome cs RetUndefined
  | Some form =>
    (* 112-125 *)
    let isFullAttack := negb (bool_decide (form_fullAttack form = Some false)) in
    if negb isFullAttack || (length (attacks_at_gate env) <=? 1)%nat then
      outcome (cs ++ [PatchDialog; Wrapped false]) (RetWrapped false)
    else
    (* 133-139 *)
    let cs := cs ++ [AlterRollData; CreateActionUseHook] in
    (* 144-151 *)
    match filterAmmo action (attacks_at_planning env) with
    | inl e => outcome (cs ++ [NotifyDepleted e]) (RetErr (inr e))
    | inr attacks =>
      (* 154-157 *)
      let cs := cs ++ [HandleConditionals; PrepareChargeCost] in
      (* 159-172 *)
      match filterCharges action (rollData_at_planning env) (item_charges env)
              attacks with
      | inl e => outcome (cs ++ [NotifyDepleted e]) (RetErr (inr e))
      | inr attacks =>
        (* 174-175 *)
        let cs := cs ++ [CheckAttackRequirements] in
        let reqErr := checkAttackRequirements env in
        if 0 <? reqErr then outcome cs (RetErr (inl reqErr)) else
        (* 178-185 *)
        let cs := if needsTemplate env then cs ++ [PromptMeasureTemplate]
                  else cs in
        let measureTemplate :=
          if needsTemplate env then promptMeasureTemplate env
          else TemplateNull in
        if needsTemplate env
           && bool_decide (measureTemplate = TemplateNull) then
          outcome cs RetUndefined
        else
        (* 188-196 *)
        let cs := cs ++ [GetTargets; RunTracker attacks] in
        let st := run chargeLabel action (dialogCommands env)
                    (newTracker attacks, trackerWorld env) in
        match result (fst st) with
        | None => {| calls := cs; returned := RetPending; final := Some st |}
        | Some cancelled =>
          (* 198-203 *)
          {| calls := cs ++ (if bool_decide (measureTemplate = TemplatePlaced)
                             then [DeleteTemplate] else []);
             returned := RetUndefined; final := Some st |}
        | Some completed =>
          (* 206-216 *)
          {| calls := cs ++ (if clearTargets env then [ClearTargets] else []);
             returned := RetActionUse; final := Some st |}
        end
      end
    end
  end.

Definition isWrapped (c : Call) : bool :=
  match c with Wrapped _ => true | _ => false end.

Definition isRunTracker (c : Call) : bool :=
  match c with RunTracker _ => true | _ => false end.

(** A full attack the wrapper takes over: a weapon, the dialog confirmed, two
    attacks, the user rolling both. *)
Definition fullAttackEnv : ProcessEnv :=
  {| setting_sequentialAttacks := true; arg_skipDialog := false;
     item_type := Some "weapon"; item_subType := None;
     checkRequirements := 0;
     createAttackDialog := Some {| form_fullAttack := Some true |};
     attacks_at_gate := blows; attacks_at_planning := blows;
     rollData_at_planning := sampleRollData 6 (Some 6) 0; item_charges := 0;
     checkAttackRequirements := 0; needsTemplate := false;
     promptMeasureTemplate := TemplateNull;
     trackerWorld := charged 0;
     dialogCommands := [Click NextBtn hostOk; Click NextBtn hostOk; Timeout];
     clearTargets := true |}.

(** ** The chat card: its buttons and the pre-use hook *)

(** [hasMultipleAttacks] (lines 41-43). *)
Definition hasMultipleAttacks (action : ChatCard.ItemAction) : bool :=
  (0 <? length (ChatCard.getAttackParts action))%nat.

(** An attack descriptor of the card: [{ index, label, bonus }]. *)
Record AttackEntry := {
  entry_index : nat;
  entry_label : string;
  entry_bonus : string
}.

(** The [forEach] of lines 55-61 from position [i] on. Destructuring an entry
    that is [undefined] throws, which is [None]. *)
Fixpoint pushParts (i : nat) (parts : list ChatCard.JsPart)
  : option (list AttackEntry) :=
  match parts with
  | [] => Some []
  | ChatCard.PartUndefined :: _ => None
  | ChatCard.Part bonus label :: parts =>
    cons {| entry_index := i + 1;
            entry_label := if truthy label then label
                           else String.append "Attack " (pretty (i + 2)%nat);
            entry_bonus := bonus |}
      <$> pushParts (S i) parts
  end.

(** [buildAttackList] (lines 52-63). *)
Definition buildAttackList (action : ChatCard.ItemAction)
  : option (list AttackEntry) :=
  let parts := ChatCard.getAttackParts action in
  cons {| entry_index := 0; entry_label := "Attack"; entry_bonus := "" |}
    <$> pushParts 0 parts.

(** What the [pf1PreActionUse] hook answers: nothing, or [false] after it has
    created the sequential card. *)
Inductive HookAnswer := Proceed | Suppress.

(** The hook (lines 105-118): [enabled] is the module setting, [pending] the
    action id in [_pendingSingleAttack], [id] is [action.id]. *)
Definition pf1PreActionUse (enabled : bool) (pending : option string)
    (id : string) (action : ChatCard.ItemAction) : HookAnswer :=
  if negb enabled then Proceed
  else if bool_decide (pending = Some id) then Proceed
  else if negb (hasMultipleAttacks action) then Proceed
  else Suppress.

(** Line 160: the attack parts the roll is narrowed to. *)
Definition singlePart (origParts : list ChatCard.JsPart) (attackIndex : Z)
  : list ChatCard.JsPart :=
  if attackIndex =? 0 then []
  else [ChatCard.at_index origParts (attackIndex - 1)].

(** Lines 163-186: the roll with [attackParts] narrowed to [parts], the
    button and the console after it, the restore. *)
Definition rollSingle (actionId : string) (action : ChatCard.ItemAction)
    (parts : list ChatCard.JsPart) (env : ChatCard.UseEnv)
    (st : ChatCard.State) : ChatCard.State :=
  let origParts := ChatCard.getAttackParts action in
  let '(action', threw) := ChatCard.use env (ChatCard.setAttackParts parts action) in
  {| ChatCard._pendingSingleAttack := None;
     ChatCard.actions :=
       <[actionId := ChatCard.setAttackParts origParts action']>
         (ChatCard.actions st);
     ChatCard.btn := if threw then ChatCard.markFree else ChatCard.markUsed;
     ChatCard.console :=
       if threw
       then ChatCard.console st ++ ["Error rolling sequential attack."]
       else ChatCard.console st |}.

(** ** Which attack an event belongs to *)

Definition eventIndex (e : Event) : option nat :=
  match e with
  | RollAttack i _ | CommitAmmo i | CommitCharge i _ | PostMessage i => Some i
  | NotifyError _ => None
  end.

(** An event the tracker may issue while attack [idx] of [atks] is the current
    one: a roll or a chat card of an attack that exists, an ammunition commit
    for an attack that has ammunition, a charge commit of the attack's own
    positive cost. *)
Definition eventOf (action : Action) (atks : list Attack) (idx : nat)
    (e : Event) : Prop :=
  match e with
  | RollAttack j _ | PostMessage j => j = idx /\ is_Some (atks !! idx)
  | CommitAmmo j =>
    j = idx /\ ammo_cost action <> 0 /\
    exists atk, atks !! idx = Some atk /\ hasAmmo atk = true
  | CommitCharge j c =>
    j = idx /\ 0 < c /\
    exists atk, atks !! idx = Some atk /\ chargeCost atk = CostNum c
  | NotifyError _ => True
  end.

(** The trace grows by events of attack [idx]. *)
Definition emitsFor (action : Action) (atks : list Attack) (idx : nat)
  : relation World := fun w w' =>
  exists evs, trace w' = trace w ++ evs /\ Forall (eventOf action atks idx) evs.

(** The events of a trace come in the order of their attacks. *)
Definition inOrder (l : list Event) : Prop :=
  forall p q e1 e2 i j,
    (p < q)%nat -> l !! p = Some e1 -> l !! q = Some e2 ->
    eventIndex e1 = Some i -> eventIndex e2 = Some j -> (i <= j)%nat.

(** What holds of the trace in every state of a run. *)
Definition traceInv (action : Action) (st : Tracker * World) : Prop :=
  (forall e, e ∈ trace (snd st) ->
     exists idx, (idx <= currentIndex (fst st))%nat /\
       eventOf action (allAttacks (fst st)) idx e) /\
  inOrder (trace (snd st)).

(** ** Working through the whole plan *)

(** A click on the next button that the host serves without throwing, or a
    click on the skip button. *)
Definition advances (c : Command) : Prop :=
  match c with
  | Click NextBtn env => fault env = None
  | Click SkipBtn _ => True
  | _ => False
  end.

(** The tracker while its dialog is open and its promise unresolved: running
    inside the plan, or completed and waiting for the auto-close. *)
Definition awaiting (t : Tracker) : Prop :=
  result t = None /\ dialog t = Some (_buildTrackerBody t) /\
  if _completed t
  then currentIndex t = length (allAttacks t) /\ timers t = 1%nat
  else (currentIndex t < length (allAttacks t))%nat /\ timers t = 0%nat.

(** An attack that claims ammunition names it. *)
Definition namesAmmo (atk : Attack) : Prop :=
  hasAmmo atk = true -> is_Some (ammo atk).

(** ** The ledger read off the trace *)




(** * Properties *)

(** ** Planning *)

Lemma assign_filter_prefix (charges cost : Z) (atks : list Attack) (k : nat) :
  0 < cost ->
  filter (fun o => notNull (chargeCost o) = true)
    (imap (fun index atk =>
             if (Z.of_nat (k + index) + 1) * cost <=? charges
             then with_chargeCost (CostNum cost) atk
             else with_chargeCost CostNull atk) atks)
  = with_chargeCost (CostNum cost) <$>
      take (Z.to_nat (charges / cost - Z.of_nat k)) atks.
Proof.
  intros Hc. revert k. induction atks as [|a l IH]; intros k.
  - by rewrite take_nil.
  - rewrite imap_cons.
    assert (Hext : imap ((fun index atk =>
              if (Z.of_nat (k + index) + 1) * cost <=? charges
              then with_chargeCost (CostNum cost) atk
              else with_chargeCost CostNull atk) ∘ S) l
            = imap (fun index atk =>
              if (Z.of_nat (S k + index) + 1) * cost <=? charges
              then with_chargeCost (CostNum cost) atk
              else with_chargeCost CostNull atk) l).
    { apply imap_ext. intros i x _. simpl.
      replace (k + S i)%nat with (S (k + i))%nat by lia. done. }
    rewrite Hext. cbn beta. replace (k + 0)%nat with k by lia.
    destruct (Z.leb_spec ((Z.of_nat k + 1) * cost) charges) as [Hle|Hgt].
    + assert (Z.of_nat k + 1 <= charges / cost)
        by (apply Z.div_le_lower_bound; lia).
      rewrite filter_cons_True, IH by done.
      replace (Z.to_nat (charges / cost - Z.of_nat k))
        with (S (Z.to_nat (charges / cost - Z.of_nat (S k)))) by lia.
      done.
    + assert (charges / cost < Z.of_nat k + 1)
        by (apply Z.div_lt_upper_bound; lia).
      rewrite filter_cons_False, IH by (simpl; congruence).
      replace (Z.to_nat (charges / cost - Z.of_nat (S k))) with 0%nat by lia.
      replace (Z.to_nat (charges / cost - Z.of_nat k)) with 0%nat by lia.
      done.
Qed.

Lemma roundDouble_exact (z : Z) : Z.abs z <= 2 ^ 53 -> roundDouble z = z.
Proof.
  intros H. unfold roundDouble. cbv zeta.
  by destruct (Z.leb_spec (Z.abs z) (2 ^ 53)); [|lia].
Qed.

(** For a double [x] the product by one is no exception: it is the exact
    product rounded, as every other one. *)
Lemma timesDouble_rounds (n x : Z) :
  roundDouble x = x -> timesDouble n x = roundDouble (n * x).
Proof.
  intros Hx. unfold timesDouble. destruct (Z.eqb_spec n 1) as [->|_]; [|done].
  by rewrite Z.mul_1_l.
Qed.

(** The products are exact when the last of them is at most [2 ^ 53]. *)
Lemma small_products_exact (cost : Z) (n : nat) :
  0 <= cost -> Z.of_nat n * cost <= 2 ^ 53 -> exactProducts cost n.
Proof.
  intros Hc Hn i Hi. apply roundDouble_exact.
  assert ((Z.of_nat i + 1) * cost <= Z.of_nat n * cost)
    by (apply Z.mul_le_mono_nonneg_r; lia).
  assert (0 <= (Z.of_nat i + 1) * cost) by lia. lia.
Qed.

Lemma timesDouble_exact (cost : Z) (n i : nat) :
  exactProducts cost n -> (i < n)%nat ->
  timesDouble (Z.of_nat i + 1) cost = (Z.of_nat i + 1) * cost.
Proof.
  intros H Hi. unfold timesDouble.
  destruct (Z.eqb_spec (Z.of_nat i + 1) 1) as [->|_]; [lia|by apply H].
Qed.

Lemma assignChargeCost_exact (charges cost : Z) (atks : list Attack) :
  exactProducts cost (length atks) ->
  assignChargeCost charges cost atks
  = imap (fun index atk =>
            if (Z.of_nat (0 + index) + 1) * cost <=? charges
            then with_chargeCost (CostNum cost) atk
            else with_chargeCost CostNull atk) atks.
Proof.
  intros H. unfold assignChargeCost. apply imap_ext. intros i a Hi. simpl.
  by rewrite (timesDouble_exact cost (length atks) i H)
    by (by eapply lookup_lt_Some).
Qed.

(** C4, as the code has it. With a positive per-attack cost [c] and a pool
    of [C] charges, and with every product [(i+1) * c] for a position [i] of
    the sequence a double, as they all are when [n * c <= 2 ^ 53] for its
    length [n]: the planner keeps exactly the attacks at the positions [i] with
    [(i+1) * c <= C]; these form a prefix of the sequence, so an unaffordable
    attack goes together with all that follow it; each kept attack carries the
    cost [c]; an empty result is the insufficient-charges error. *)
Theorem charge_filter_keeps_affordable_prefix
    (action : Action) (rollData : RollData) (C : Z) (atks : list Attack) :
  0 < rd_chargeCost rollData ->
  uses_perAttack action = true ->
  let c := rd_chargeCost rollData in
  (Z.of_nat (length atks) * c <= 2 ^ 53 \/
   forall i : nat, (i < length atks)%nat ->
     roundDouble ((Z.of_nat i + 1) * c) = (Z.of_nat i + 1) * c) ->
  let n := (Z.to_nat (C / c) `min` length atks)%nat in
  (forall i : nat, (i < length atks)%nat ->
     (i < n)%nat <-> (Z.of_nat i + 1) * c <= C) /\
  filterCharges action rollData C atks =
    if decide (n = 0%nat) then inl INSUFFICIENT_CHARGES
    else inr (with_chargeCost (CostNum c) <$> take n atks).
Proof.
  intros Hc Hper c Hexact n.
  assert (Hex : exactProducts c (length atks)).
  { destruct Hexact as [Hsmall|Hex]; [|exact Hex].
    apply small_products_exact; [subst c; lia|done]. }
  split.
  - intros i Hi. subst n c. split; intros H.
    + assert (Z.of_nat i + 1 <= C / rd_chargeCost rollData) by lia.
      transitivity (C / rd_chargeCost rollData * rd_chargeCost rollData).
      * apply Z.mul_le_mono_nonneg_r; lia.
      * rewrite Z.mul_comm. apply Z.mul_div_le. lia.
    + assert (Z.of_nat i + 1 <= C / rd_chargeCost rollData)
        by (apply Z.div_le_lower_bound; lia).
      lia.
  - unfold filterCharges. rewrite Hper.
    destruct (Z.eqb_spec (rd_chargeCost rollData) 0) as [?|_]; [lia|]. simpl.
    rewrite (assignChargeCost_exact C (rd_chargeCost rollData) atks Hex).
    rewrite (assign_filter_prefix C (rd_chargeCost rollData) atks 0 Hc).
    fold c.
    replace (C / c - Z.of_nat 0) with (C / c) by lia.
    assert (Ht : take (Z.to_nat (C / c)) atks = take n atks).
    { subst n. destruct (Nat.min_spec (Z.to_nat (C / c)) (length atks))
        as [[_ ->]|[Hge ->]]; [done|].
      rewrite !take_ge by lia. done. }
    rewrite Ht, length_fmap, length_take.
    destruct (decide (n = 0%nat)) as [->|Hn]; [done|].
    replace (n `min` length atks)%nat with n by lia.
    destruct (Nat.eqb_spec n 0); [lia|done].
Qed.

(** Beyond that range the product is rounded before it is compared. With a
    cost of [2 ^ 53 - 1] and a pool one short of three times the cost, both
    doubles, the third product [3 * 2 ^ 53 - 3] rounds down to the pool
    [3 * 2 ^ 53 - 4]: the third attack is kept, although the pool does not
    reach three times the cost. *)
Lemma charge_filter_rounds_large_products :
  let c := 2 ^ 53 - 1 in
  let C := 3 * c - 1 in
  let atks := [strike "Attack" ""; strike "Iterative 1" "-5";
               strike "Iterative 2" "-10"] in
  0 < c /\ uses_perAttack wand = true /\
  roundDouble c = c /\ roundDouble C = C /\
  ~ (C >= (Z.of_nat 2 + 1) * c) /\
  filterCharges wand (sampleRollData 6 (Some 6) c) C atks
  = inr (with_chargeCost (CostNum c) <$> atks).
Proof.
  cbv zeta. split; [reflexivity|]. split; [reflexivity|].
  split; [vm_compute; reflexivity|]. split; [vm_compute; reflexivity|].
  split; [vm_compute; by intros H|]. vm_compute. reflexivity.
Qed.

(** Filtering a list keeps the survivors in their original order: position [i]
    of the result is position [f i] of the input for a strictly increasing [f]
    that reaches every input position holding a survivor. *)
Lemma filter_renumbers {A} (P : A -> Prop) `{!forall x, Decision (P x)}
    (l : list A) :
  exists f : nat -> nat,
    (forall i j, (i < j < length (filter P l))%nat -> (f i < f j)%nat) /\
    (forall i, (i < length (filter P l))%nat -> filter P l !! i = l !! f i) /\
    (forall j a, l !! j = Some a -> P a ->
       exists i, (i < length (filter P l))%nat /\ f i = j).
Proof.
  induction l as [|x l (f & Hmono & Hsame & Hall)].
  - exists (fun i => i). repeat split; simpl; intros; try lia; try done.
  - destruct (decide (P x)) as [Hx|Hx].
    + rewrite filter_cons_True by done.
      exists (fun i => match i with O => O | S i' => S (f i') end).
      repeat split.
      * intros [|i] [|j] Hij; simpl in *; try lia.
        specialize (Hmono i j). lia.
      * intros [|i] Hi; simpl in *; [done|]. apply Hsame. lia.
      * intros [|j] a Hj Ha; simpl in *.
        -- exists O. split; [lia|done].
        -- destruct (Hall j a Hj Ha) as (i & Hi & <-).
           exists (S i). split; [lia|done].
    + rewrite filter_cons_False by done.
      exists (fun i => S (f i)). repeat split.
      * intros i j Hij. specialize (Hmono i j). lia.
      * intros i Hi. simpl. by apply Hsame.
      * intros [|j] a Hj Ha; simpl in *.
        -- by simplify_eq.
        -- destruct (Hall j a Hj Ha) as (i & Hi & <-). by exists i.
Qed.

(** C5. For an action that consumes ammunition the planner drops every attack
    without resolved ammunition ([hasAmmo] false) and keeps all others; the
    survivors stand at the dense positions 0, 1, ... of the planned sequence in
    their original relative order; when none survives, planning fails with the
    insufficient-ammunition error. *)
Theorem ammo_filter_drops_and_renumbers (action : Action) (atks : list Attack) :
  truthy (ammo_type action) = true ->
  0 < ammo_cost action ->
  match filterAmmo action atks with
  | inl e =>
    e = INSUFFICIENT_AMMO /\ Forall (fun a => hasAmmo a = false) atks
  | inr planned =>
    planned <> [] /\
    Forall (fun a => hasAmmo a = true) planned /\
    exists f : nat -> nat,
      (forall i j, (i < j < length planned)%nat -> (f i < f j)%nat) /\
      (forall i, (i < length planned)%nat -> planned !! i = atks !! f i) /\
      (forall j a, atks !! j = Some a -> hasAmmo a = true ->
         exists i, (i < length planned)%nat /\ f i = j)
  end.
Proof.
  intros Hty Hcost. unfold filterAmmo. rewrite Hty.
  destruct (Z.ltb_spec 0 (ammo_cost action)) as [_|?]; [simpl|lia].
  destruct (Nat.eqb_spec (length (filter (fun o => hasAmmo o = true) atks)) 0)
    as [Hlen|Hlen].
  - split; [done|]. apply Forall_forall. intros a Ha.
    destruct (hasAmmo a) eqn:E; [|done].
    assert (a ∈ filter (fun o => hasAmmo o = true) atks)
      by (apply list_elem_of_filter; done).
    apply nil_length_inv in Hlen. rewrite Hlen in H. by apply elem_of_nil in H.
  - split; [by intros E; rewrite E in Hlen|]. split.
    + apply Forall_forall. intros a Ha. by apply list_elem_of_filter in Ha as [? _].
    + apply (filter_renumbers (fun o => hasAmmo o = true)).
Qed.

Lemma charge_filter_keeps_affordable_prefix_witness :
  0 < rd_chargeCost (sampleRollData 6 (Some 6) 1) /\
  uses_perAttack wand = true /\
  Z.of_nat 3 * 1 <= 2 ^ 53 /\
  filterCharges wand (sampleRollData 6 (Some 6) 1) 2
    [strike "Attack" ""; strike "Iterative 1" "-5"; strike "Iterative 2" "-10"]
  = inr [with_chargeCost (CostNum 1) (strike "Attack" "");
         with_chargeCost (CostNum 1) (strike "Iterative 1" "-5")].
Proof.
  assert (Hsmall : Z.of_nat 3 * 1 <= 2 ^ 53) by (vm_compute; discriminate).
  split; [reflexivity|]. split; [reflexivity|]. split; [exact Hsmall|].
  destruct (charge_filter_keeps_affordable_prefix wand (sampleRollData 6 (Some 6) 1) 2
              [strike "Attack" ""; strike "Iterative 1" "-5";
               strike "Iterative 2" "-10"] eq_refl eq_refl (or_introl Hsmall))
    as [_ E].
  rewrite E. reflexivity.
Defined.

(** The scenario of C4 through the whole planner: two charges, one per attack,
    three raw attacks. *)
Example plan_two_charges_three_attacks :
  planAttacks wand (sampleRollData 6 (Some 6) 1) 2
    [strike "Attack" ""; strike "Iterative 1" "-5"; strike "Iterative 2" "-10"]
  = inr [with_chargeCost (CostNum 1) (strike "Attack" "");
         with_chargeCost (CostNum 1) (strike "Iterative 1" "-5")].
Proof. reflexivity. Qed.

Example plan_no_charges :
  planAttacks wand (sampleRollData 6 (Some 6) 1) 0
    [strike "Attack" ""; strike "Iterative 1" "-5"]
  = inl INSUFFICIENT_CHARGES.
Proof. reflexivity. Qed.

Lemma ammo_filter_drops_and_renumbers_witness :
  truthy (ammo_type longbow) = true /\
  0 < ammo_cost longbow /\
  match filterAmmo longbow
          [shot "Attack" "" true; shot "Rapid Shot" "" false;
           shot "Iterative 1" "-5" true] with
  | inl _ => False
  | inr planned => planned <> []
  end.
Proof.
  split; [reflexivity|]. split; [reflexivity|].
  pose proof (ammo_filter_drops_and_renumbers longbow
                [shot "Attack" "" true; shot "Rapid Shot" "" false;
                 shot "Iterative 1" "-5" true] eq_refl eq_refl) as H.
  destruct (filterAmmo longbow _) as [e|planned]; [|exact (proj1 H)].
  destruct H as [_ H]. apply Forall_cons in H as [H _]. discriminate H.
Defined.

(** The scenario of C5 through the whole planner: of three raw attacks the
    first and the third have ammunition. *)
Example plan_ammo_first_and_third :
  planAttacks longbow (sampleRollData 6 (Some 6) 0) 0
    [shot "Attack" "" true; shot "Rapid Shot" "" false;
     shot "Iterative 1" "-5" true]
  = inr [shot "Attack" "" true; shot "Iterative 1" "-5" true].
Proof. reflexivity. Qed.

Example plan_no_ammo :
  planAttacks longbow (sampleRollData 6 (Some 6) 0) 0
    [shot "Attack" "" false; shot "Iterative 1" "-5" false]
  = inl INSUFFICIENT_AMMO.
Proof. reflexivity. Qed.

(** ** Step context: power attack *)

(** What lines 416-423 store, field by field. *)
Lemma applyPowerAttack_active (action : Action) (s : Shared) (rollData : RollData) :
  sh_powerAttack s = true ->
  let r := applyPowerAttack action s rollData in
  rd_powerAttackBonus r =
    Qfloor (inject_Z ((1 + rd_attributes_bab_total rollData / 4)
                      * default 2 (rd_action_powerAttack_damageBonus rollData))
            * getPowerAttackMult action
                (set_fullAttack (if sh_fullAttack s then 1 else 0) rollData)) /\
  rd_powerAttackPenalty r = (fun bab => - (1 + bab / 4)) <$> rd_bab rollData.
Proof. intros H. unfold applyPowerAttack. rewrite H. simpl. done. Qed.

(** The values of a step come from the roll data refreshed for that step, not
    from what an earlier step left in [shared.rollData]. *)
Lemma prepareStep_not_cached (chargeLabel : string) (action : Action)
    (idx : nat) (refreshed : RollData) (s : Shared) :
  sh_rollData (prepareStep chargeLabel action idx refreshed s)
  = applyPowerAttack action s refreshed.
Proof.
  unfold prepareStep, clearCharge.
  destruct ((0 <? idx)%nat && sh_formData_charge (set_rollData refreshed s));
    reflexivity.
Qed.

(** The scenario of C1 when [rollData.bab] and [rollData.attributes.bab.total]
    hold the same number: 8, then 4. *)
Example power_attack_scenario_when_fields_agree :
  let s := sampleShared true false [] in
  let step0 := prepareStep "Charge" greatsword 0 (sampleRollData 8 (Some 8) 0) s in
  let step1 :=
    prepareStep "Charge" greatsword 1 (sampleRollData 4 (Some 4) 0) step0 in
  (rd_powerAttackPenalty (sh_rollData step0),
   rd_powerAttackBonus (sh_rollData step0)) = (Some (-3), 9) /\
  (rd_powerAttackPenalty (sh_rollData step1),
   rd_powerAttackBonus (sh_rollData step1)) = (Some (-2), 6).
Proof. split; reflexivity. Qed.

(** C1. The bonus is computed from [rollData.attributes.bab.total] and the
    penalty from [rollData.bab]. With a total of 8, base 2 and multiplier 1.5
    the formula on the total gives penalty -3 and bonus 9; the step stores
    bonus 9 and penalty -2 when [rollData.bab] holds 4, and bonus 9 and no
    number for the penalty when the roll data has no [bab] of its own. *)
Theorem power_attack_penalty_reads_rollData_bab :
  let s := sampleShared true false [] in
  let differing := applyPowerAttack greatsword s (sampleRollData 8 (Some 4) 0) in
  let absent := applyPowerAttack greatsword s (sampleRollData 8 None 0) in
  - (1 + rd_attributes_bab_total (sampleRollData 8 (Some 4) 0) / 4) = -3 /\
  rd_powerAttackBonus differing = 9 /\
  rd_powerAttackPenalty differing = Some (-2) /\
  rd_powerAttackBonus absent = 9 /\
  rd_powerAttackPenalty absent = None.
Proof. repeat split. Qed.

(** ** The chat-card variant *)

Section ChatCardProperties.
Import ChatCard.

(** Writing through [setAttackParts] and reading through [getAttackParts]. *)
Lemma getAttackParts_set (parts : list JsPart) (action : ItemAction) :
  getAttackParts (setAttackParts parts action) =
  match system action, data action with
  | None, None => getAttackParts action
  | _, _ => parts
  end.
Proof. destruct action as [[?|] [?|]]; reflexivity. Qed.

(** Restoring after any narrowing and any roll gives back what
    [getAttackParts] read at the start. *)
Lemma restore_after_use (env : UseEnv) (single : list JsPart)
    (action : ItemAction) :
  getAttackParts
    (setAttackParts (getAttackParts action)
       (fst (use env (setAttackParts single action))))
  = getAttackParts action.
Proof.
  destruct action as [[?|] [?|]], env as [? [?|]]; reflexivity.
Qed.

(** C10. When the click handler of a roll button has finished, every action
    reads the attack parts it read before the click, whether [action.use]
    returned or threw; a handler that reached the roll leaves the pending flag
    at [null], and one that returned early leaves the flag as it found it, so a
    flag that was [null] before the click is [null] after it. *)
Theorem roll_click_restores_attackParts
    (actionId : string) (attackIndex : Z) (env : UseEnv) (st : State) :
  let st' := onRollClick actionId attackIndex env st in
  (forall id action, actions st !! id = Some action ->
     exists action', actions st' !! id = Some action' /\
                     getAttackParts action' = getAttackParts action) /\
  (forall action, actions st !! actionId = Some action ->
     attackIndex <= Z.of_nat (length (getAttackParts action)) ->
     _pendingSingleAttack st' = None) /\
  (_pendingSingleAttack st = None -> _pendingSingleAttack st' = None).
Proof.
  unfold onRollClick.
  destruct (actions st !! actionId) as [action|] eqn:Hact; simpl.
  - destruct (Z.ltb_spec (Z.of_nat (length (getAttackParts action))) attackIndex)
      as [Hout|Hin]; simpl.
    + repeat split; eauto. intros a [= <-]. lia.
    + pose proof (restore_after_use env
        (if attackIndex =? 0 then []
         else [at_index (getAttackParts action) (attackIndex - 1)]) action) as R.
      unfold use in *. simpl in *.
      repeat split; try done.
      intros id a Ha. destruct (decide (id = actionId)) as [->|Hne].
      * rewrite lookup_insert_eq. eexists. split; [done|].
        assert (a = action) as -> by congruence. exact R.
      * rewrite lookup_insert_ne by done. eauto.
  - repeat split; eauto. intros a [=].
Qed.

Lemma roll_click_restores_attackParts_witness :
  cardState.(actions) !! "flurry" = Some flurry /\
  2 <= Z.of_nat (length (getAttackParts flurry)) /\
  _pendingSingleAttack
    (onRollClick "flurry" 2
       {| use_throws := true; use_leaves := Some [PartUndefined] |} cardState)
  = None.
Proof.
  split; [reflexivity|]. split; [simpl; lia|].
  apply (proj1 (proj2 (roll_click_restores_attackParts "flurry" 2
           {| use_throws := true; use_leaves := Some [PartUndefined] |}
           cardState)) flurry); [reflexivity|simpl; lia].
Defined.

(** A click on the third attack whose roll throws: parts restored, flag
    cleared, button released. *)
Example roll_click_throwing :
  let st' := onRollClick "flurry" 2
               {| use_throws := true; use_leaves := None |} cardState in
  (getAttackParts <$> actions st' !! "flurry") = Some (getAttackParts flurry) /\
  _pendingSingleAttack st' = None /\
  btn st' = markFree.
Proof. vm_compute. done. Qed.

(** Starting from the module's initial [null], the flag is [null] between any
    two clicks. *)
Lemma onRollClick_idle actionId attackIndex env st :
  _pendingSingleAttack st = None ->
  _pendingSingleAttack (onRollClick actionId attackIndex env st) = None.
Proof.
  intros H. unfold onRollClick.
  destruct (actions st !! actionId) as [action|]; [|done].
  destruct (Z.of_nat (length (getAttackParts action)) <? attackIndex); [done|].
  by destruct (use env _).
Qed.

Lemma pending_flag_idle (clicks : list (string * Z * UseEnv)) (st : State) :
  _pendingSingleAttack st = None ->
  _pendingSingleAttack
    (foldl (fun st '(id, i, env) => onRollClick id i env st) st clicks) = None.
Proof.
  revert st. induction clicks as [|[[id i] env] clicks IH]; intros st H; [done|].
  simpl. apply IH. by apply onRollClick_idle.
Qed.

End ChatCardProperties.

(** ** The tracker: one attempt to resolve an attack *)

Section Frame.
Context (R : relation World) `{!PreOrder R}.

Lemma frame_ret {A} (a : A) : frame R (ret a).
Proof. intros w. simpl. reflexivity. Qed.

Lemma frame_throw {A} (e : Exn) : frame R (@throw A e).
Proof. intros w. simpl. reflexivity. Qed.

Lemma frame_get : frame R get.
Proof. intros w. simpl. reflexivity. Qed.

Lemma frame_host (env : Env) (s : Stage) : frame R (host env s).
Proof. intros w. unfold host. case_decide; simpl; reflexivity. Qed.

Lemma frame_modify (f : World -> World) :
  (forall w, R w (f w)) -> frame R (modify f).
Proof. intros H w. apply H. Qed.

Lemma frame_bind {A B} (m : M A) (k : A -> M B) :
  frame R m -> (forall a, frame R (k a)) -> frame R (bind m k).
Proof.
  intros Hm Hk w. unfold bind. specialize (Hm w).
  destruct (m w) as [w1 [e|a]]; simpl in *; [done|].
  etransitivity; [exact Hm|apply Hk].
Qed.

Lemma frame_when (b : bool) (m : M unit) : frame R m -> frame R (when b m).
Proof. destruct b; simpl; [done|]. intros _. apply frame_ret. Qed.

End Frame.

Ltac frame_tac :=
  repeat first
    [ apply frame_ret | apply frame_throw | apply frame_get | apply frame_host
    | apply frame_when
    | apply frame_bind; [.. | intros ?]
    | progress cbv zeta
    | match goal with |- PreOrder _ => apply _ end
    | case_match ].

Lemma bind_modify {B} (f : World -> World) (k : unit -> M B) w :
  bind (modify f) k w = k tt (f w).
Proof. reflexivity. Qed.

Lemma bind_get {B} (k : World -> M B) w : bind get k w = k w w.
Proof. reflexivity. Qed.

Lemma bind_ret {A B} (a : A) (k : A -> M B) w : bind (ret a) k w = k a w.
Proof. reflexivity. Qed.

Lemma bind_cases {A B} (R : relation World) (m : M A) (k : A -> M B) w :
  frame R m ->
  (exists w' e, bind m k w = (w', inl e) /\ R w w') \/
  (exists w' a, bind m k w = k a w' /\ R w w').
Proof.
  intros H. specialize (H w). unfold bind.
  destruct (m w) as [w' [e|a]]; simpl in H; eauto.
Qed.

Section Attempt.

Variable chargeLabel : string.
Variable action : Action.

Local Abbreviation resolve := (rollCurrentAttack chargeLabel action).

(** The work returns only for an attack that exists. *)
Lemma resolve_tracker env t w w' u :
  resolve env t w = (w', inr u) ->
  is_Some (allAttacks t !! currentIndex t).
Proof.
  unfold rollCurrentAttack, bind, ret, throw. intros H.
  repeat (case_match; simplify_eq); eauto.
Qed.

#[local] Instance keepsCharge_preorder t : PreOrder (keepsCharge t).
Proof.
  split.
  - intros w. repeat split. exists []. by rewrite app_nil_r.
  - intros w1 w2 w3 (Hb1 & Hf1 & Hc1 & evs1 & Ht1 & HP1)
      (Hb2 & Hf2 & Hc2 & evs2 & Ht2 & HP2).
    split; [congruence|]. split; [congruence|]. split; [congruence|].
    exists (evs1 ++ evs2). split.
    + rewrite Ht2, Ht1. by rewrite app_assoc.
    + apply Forall_app. split; [done|]. by rewrite <- Hb1, <- Hf1.
Qed.

Lemma keepsCharge_quiet t (f : World -> World) :
  (forall w, sh_attackBonus (shared (f w)) = sh_attackBonus (shared w)) ->
  (forall w, sh_formData_charge (shared (f w)) = sh_formData_charge (shared w)) ->
  (forall w, sh_charge (shared (f w)) = sh_charge (shared w)) ->
  (forall w, trace (f w) = trace w) ->
  frame (keepsCharge t) (modify f).
Proof.
  intros Hb Hf Hc Ht. apply frame_modify. intros w.
  repeat split; auto. exists []. by rewrite app_nil_r.
Qed.

Lemma keepsCharge_emit t (e : Event) :
  (forall parts flag, rollOf t parts flag e) ->
  frame (keepsCharge t) (modify (emit e)).
Proof.
  intros He. apply frame_modify. intros w.
  repeat split. exists [e]. split; [done|]. repeat constructor. apply He.
Qed.

Lemma subtract_keepsCharge env t atk cost :
  frame (keepsCharge t) (_subtractSingleAttackAmmo env action atk cost).
Proof.
  unfold _subtractSingleAttackAmmo.
  frame_tac; apply keepsCharge_quiet; intros; reflexivity.
Qed.

Ltac keepsCharge_tac :=
  frame_tac;
  first [ apply subtract_keepsCharge
        | apply keepsCharge_quiet; intros; reflexivity
        | apply keepsCharge_emit; intros; exact I
        | idtac ].

Lemma commitAndPost_keepsCharge env t atk :
  frame (keepsCharge t) (commitAndPost action env (currentIndex t) atk).
Proof. unfold commitAndPost. keepsCharge_tac. Qed.

(** Whatever the host does, an attempt writes the charge clearing of its
    position to the shared state, and every roll it requests is a roll of the
    current attack with the additive terms and the flag so cleared. *)
Lemma resolve_charge env t w :
  let w' := fst (resolve env t w) in
  let s := clearCharge chargeLabel (currentIndex t) (shared w) in
  sh_attackBonus (shared w') = sh_attackBonus s /\
  sh_formData_charge (shared w') = sh_formData_charge s /\
  sh_charge (shared w') = sh_charge s /\
  exists evs, trace w' = trace w ++ evs /\
    Forall (rollOf t (sh_attackBonus s) (sh_formData_charge s)) evs.
Proof.
  set (w1 := set_shared
    (prepareStep chargeLabel action (currentIndex t) (refreshed env) (shared w)) w).
  assert (H1 : sh_attackBonus (shared w1)
               = sh_attackBonus (clearCharge chargeLabel (currentIndex t) (shared w))
            /\ sh_formData_charge (shared w1)
               = sh_formData_charge (clearCharge chargeLabel (currentIndex t) (shared w))
            /\ sh_charge (shared w1)
               = sh_charge (clearCharge chargeLabel (currentIndex t) (shared w))
            /\ trace w1 = trace w).
  { unfold w1, prepareStep, clearCharge. simpl.
    destruct ((0 <? currentIndex t)%nat && sh_formData_charge (shared w)); done. }
  destruct H1 as (Hb & Hf & Hc & Ht).
  assert (Hrest : exists rest, frame (keepsCharge t) rest /\
            resolve env t w = rest w1).
  { eexists. split; [|unfold rollCurrentAttack, bind at 1, modify at 1;
                       fold w1; reflexivity].
    keepsCharge_tac.
    apply frame_modify. intros w2. repeat split.
    eexists [_]. split; [reflexivity|]. repeat constructor. simpl. eauto. }
  destruct Hrest as (rest & Hfr & ->).
  destruct (Hfr w1) as (Hb' & Hf' & Hc' & evs & Ht' & HP). simpl.
  rewrite Hb', Hf', Hc', Ht', Hb, Hf, Hc, Ht. repeat split.
  exists evs. split; [done|]. by rewrite <- Hb, <- Hf.
Qed.

(** *** Attempts during which no host call throws *)

Lemma host_passes env s : fault env <> Some s -> host env s = ret tt.
Proof. intros H. unfold host. by case_decide. Qed.

Lemma host_ok env s : fault env = None -> host env s = ret tt.
Proof. intros H. apply host_passes. by rewrite H. Qed.

Lemma set_items_same w : set_items (items w) w = w.
Proof. by destruct w. Qed.

Lemma subtract_ok env atk cost w :
  fault env <> Some AtAmmoWrite ->
  _subtractSingleAttackAmmo env action atk cost w
  = (set_items (subtractAmmo action atk cost (items w)) w, inr tt).
Proof.
  intros H. unfold _subtractSingleAttackAmmo, subtractAmmo.
  rewrite (host_passes env _ H). unfold bind, get, modify, ret.
  destruct (hasAttack action), (truthy (ammo_type action)), (ammo atk) as [id|];
    simpl; rewrite ?set_items_same; try done.
  destruct (items w !! id) as [ammoItem|]; simpl; rewrite ?set_items_same;
    [|done].
  destruct (abundant ammoItem); simpl; by rewrite ?set_items_same.
Qed.

Lemma commitAndPost_ok env idx atk w :
  fault env = None ->
  commitAndPost action env idx atk w = (commitWorld action idx atk w, inr tt).
Proof.
  intros H. unfold commitAndPost, commitWorld.
  assert (H' : fault env <> Some AtAmmoWrite) by (by rewrite H).
  rewrite !(host_ok env _ H). unfold bind, when, modify, ret. cbv zeta.
  destruct (negb (ammo_cost action =? 0) && hasAmmo atk); simpl;
    rewrite ?(subtract_ok env atk _ _ H'); simpl;
    destruct (chargeDue atk); simpl;
    destruct ((idx =? 0)%nat && isSelfCharged action); reflexivity.
Qed.

(** The three ways an attempt ends when no host call throws. *)
Lemma resolve_ok env t w :
  fault env = None ->
  let idx := currentIndex t in
  resolve env t w =
  match allAttacks t !! idx with
  | None =>
    (set_shared (prepareStep chargeLabel action idx (refreshed env) (shared w)) w,
     inl TypeError)
  | Some atk =>
    if hasAmmo atk && bool_decide (ammo atk = None)
    then (rollWorld chargeLabel action env idx atk w, inl TypeError)
    else (resolvedWorld chargeLabel action env idx atk w, inr tt)
  end.
Proof.
  intros H idx. unfold rollCurrentAttack, resolvedWorld, rollWorld.
  fold idx. rewrite !(host_ok env _ H).
  unfold bind, when, modify, get, ret, throw. cbv zeta.
  destruct (allAttacks t !! idx) as [atk|]; [|done].
  destruct (hasAmmo atk), (ammo atk) as [id|]; simpl;
    destruct (hookResult env), (reject env); simpl;
    rewrite ?(commitAndPost_ok env _ _ _ H); reflexivity.
Qed.

(** The click handler in terms of the work: the tracker is written when the
    work returns and left alone when it throws. *)
Lemma onNext_roll env st :
  onNext chargeLabel action env st =
  match resolve env (fst st) (snd st) with
  | (w, inr _) => (_updateDialog (markResolved (fst st)), w)
  | (w, inl _) =>
    (fst st, emit (NotifyError "Error resolving attack. Check console.") w)
  end.
Proof.
  unfold onNext, _resolveCurrentAttack, bindT, this, setThis, liftW. simpl.
  destruct (resolve env (fst st) (snd st)) as [w [e|[]]]; reflexivity.
Qed.

(** The method throws exactly when its work does, and then it has not yet
    written the tracker: the writes of lines 589-598 come after the last call
    that can throw and cannot throw themselves. *)
Lemma resolve_throws env st e :
  snd (_resolveCurrentAttack chargeLabel action env st) = inl e <->
  snd (resolve env (fst st) (snd st)) = inl e.
Proof.
  unfold _resolveCurrentAttack, bindT, this, setThis, liftW. simpl.
  destruct (resolve env (fst st) (snd st)) as [w [e'|[]]]; simpl; done.
Qed.

Lemma resolve_throws_this env st e :
  snd (_resolveCurrentAttack chargeLabel action env st) = inl e ->
  fst (_resolveCurrentAttack chargeLabel action env st)
  = (fst st, fst (resolve env (fst st) (snd st))).
Proof.
  unfold _resolveCurrentAttack, bindT, this, setThis, liftW. simpl.
  destruct (resolve env (fst st) (snd st)) as [w [e'|[]]]; simpl; done.
Qed.

Lemma resolve_returns_this env st u :
  snd (_resolveCurrentAttack chargeLabel action env st) = inr u ->
  fst (_resolveCurrentAttack chargeLabel action env st)
  = (_updateDialog (markResolved (fst st)),
     fst (resolve env (fst st) (snd st))).
Proof.
  unfold _resolveCurrentAttack, bindT, this, setThis, liftW. simpl.
  destruct (resolve env (fst st) (snd st)) as [w [e'|[]]]; simpl; done.
Qed.

(** A roll that throws makes the work throw. *)
Lemma roll_fails_at_roll env t w atk :
  allAttacks t !! currentIndex t = Some atk ->
  fault env = Some AtRoll ->
  snd (resolve env t w) = inl (HostError AtRoll).
Proof.
  intros Hatk Hf. unfold rollCurrentAttack. cbv zeta.
  rewrite (host_passes env AtGetTargets) by (by rewrite Hf). rewrite Hatk.
  unfold bind, modify, get, ret, host. simpl.
  by rewrite decide_True.
Qed.

Lemma commitAndPost_fails_at_post env idx atk w :
  fault env = Some AtPostMessage ->
  snd (commitAndPost action env idx atk w) = inl (HostError AtPostMessage).
Proof.
  intros Hf. unfold commitAndPost. cbv zeta.
  assert (H' : fault env <> Some AtAmmoWrite) by (by rewrite Hf).
  rewrite (host_passes env AtAddCharges), (host_passes env AtSelfUpdate)
    by (by rewrite Hf).
  unfold bind, when, modify, ret.
  destruct (negb (ammo_cost action =? 0) && hasAmmo atk); simpl;
    rewrite ?(subtract_ok env atk _ _ H'); simpl;
    destruct (chargeDue atk); simpl;
    destruct ((idx =? 0)%nat && isSelfCharged action); simpl;
    unfold host; by rewrite decide_True.
Qed.

(** A chat card that fails to post makes the work throw, when the hook and
    the script calls let the attack through. *)
Lemma roll_fails_at_post env t w atk :
  allAttacks t !! currentIndex t = Some atk ->
  namesAmmo atk ->
  hookResult env = true -> reject env = false ->
  fault env = Some AtPostMessage ->
  snd (resolve env t w) = inl (HostError AtPostMessage).
Proof.
  intros Hatk Hn Hh Hr Hf. unfold rollCurrentAttack. cbv zeta.
  rewrite (host_passes env AtGetTargets), (host_passes env AtRoll),
    (host_passes env AtScriptCalls) by (by rewrite Hf).
  rewrite Hatk, Hh, Hr.
  assert (Hammo : (if hasAmmo atk
                   then match ammo atk with
                        | Some _ => ret tt | None => throw TypeError end
                   else ret tt) = ret tt).
  { destruct (hasAmmo atk) eqn:E; [|done]. by destruct (Hn E) as [id ->]. }
  rewrite Hammo. unfold bind at 1 2 3 4 5 6 7 8, modify, get, ret, when. simpl.
  unfold bind. rewrite (surjective_pairing (commitAndPost _ _ _ _ _)).
  by rewrite commitAndPost_fails_at_post.
Qed.

(** Once the targets are collected, the attack at the current position is
    rolled, whatever the host does afterwards: the trace grows by a roll of
    that attack, evaluated against the shared state as the charge clearing of
    this position left it, and by whatever follows. *)
Lemma resolve_rolls env t w atk :
  allAttacks t !! currentIndex t = Some atk ->
  fault env <> Some AtGetTargets ->
  let s := clearCharge chargeLabel (currentIndex t) (shared w) in
  exists ctx rest,
    trace (fst (resolve env t w))
    = trace w ++ RollAttack (currentIndex t) ctx :: rest /\
    ctx_addAttack ctx = negb (manyshot atk) /\
    ctx_charge ctx = sh_formData_charge s /\
    ctx_extraParts ctx = sh_attackBonus s ++ [attackBonus atk].
Proof.
  intros Hatk Hf s.
  unfold rollCurrentAttack. cbv zeta.
  rewrite (host_passes env AtGetTargets Hf), Hatk.
  rewrite bind_modify, bind_ret, bind_get, bind_modify, bind_modify.
  match goal with |- context [bind ?m ?k ?w1] =>
    assert (Hfr : frame (keepsCharge t) (bind m k)); [|specialize (Hfr w1)]
  end.
  { keepsCharge_tac. }
  destruct Hfr as (_ & _ & _ & evs & Htr & _).
  eexists _, evs. split.
  - rewrite Htr. simpl. rewrite <- app_assoc. reflexivity.
  - unfold stepContext, prepareStep, s, clearCharge. simpl.
    split; [done|].
    by destruct ((0 <? currentIndex t)%nat && sh_formData_charge (shared w)).
Qed.

(** An attempt that returns has collected its targets. *)
Lemma resolve_passes_targets env t w w' u :
  resolve env t w = (w', inr u) -> fault env <> Some AtGetTargets.
Proof.
  intros H Hf. unfold rollCurrentAttack in H. cbv zeta in H.
  rewrite bind_modify in H. unfold bind at 1, host at 1 in H.
  rewrite decide_True in H by done. discriminate H.
Qed.

(** An attempt that returns has rolled the current attack. *)
Lemma resolve_returns_rolled env t w w' u :
  resolve env t w = (w', inr u) ->
  exists ctx, RollAttack (currentIndex t) ctx ∈ trace w'.
Proof.
  intros H.
  destruct (resolve_tracker _ _ _ _ _ H) as [atk Hatk].
  destruct (resolve_rolls env t w atk Hatk (resolve_passes_targets _ _ _ _ _ H))
    as (ctx & rest & Htr & _).
  rewrite H in Htr. simpl in Htr. exists ctx. rewrite Htr. set_solver.
Qed.

End Attempt.

(** ** The tracker: bookkeeping *)

Lemma updateDialog_core t : sameCore t (_updateDialog t).
Proof. unfold _updateDialog. destruct (dialog t); done. Qed.

Lemma bookkeeping_core t t' : sameCore t t' -> bookkeeping t -> bookkeeping t'.
Proof. intros (_ & Hi & Hr & Hs). unfold bookkeeping. by rewrite Hi, Hr, Hs. Qed.

Lemma bookkeeping_new atks : bookkeeping (newTracker atks).
Proof. split; simpl; set_solver. Qed.

Lemma bookkeeping_fresh t :
  bookkeeping t ->
  (currentIndex t ∉ resolvedIndices t) /\ (currentIndex t ∉ skippedIndices t).
Proof.
  intros [_ Hu].
  assert (currentIndex t ∉ resolvedIndices t ∪ skippedIndices t).
  { rewrite Hu, elem_of_set_seq. lia. }
  set_solver.
Qed.

Lemma bookkeeping_resolved t : bookkeeping t -> bookkeeping (markResolved t).
Proof.
  intros H. pose proof (bookkeeping_fresh t H) as [Hr Hs].
  destruct H as [Hd Hu]. split; simpl.
  - set_solver.
  - replace (currentIndex t + 1)%nat with (S (currentIndex t)) by lia.
    rewrite set_seq_S_end_union_L, <- Hu. simpl. set_solver.
Qed.

Lemma bookkeeping_skipped t : bookkeeping t -> bookkeeping (markSkipped t).
Proof.
  intros H. pose proof (bookkeeping_fresh t H) as [Hr Hs].
  destruct H as [Hd Hu]. split; simpl.
  - set_solver.
  - replace (currentIndex t + 1)%nat with (S (currentIndex t)) by lia.
    rewrite set_seq_S_end_union_L, <- Hu. simpl. set_solver.
Qed.

Section Runs.

Variable chargeLabel : string.
Variable action : Action.

Local Abbreviation resolve := (rollCurrentAttack chargeLabel action).
Local Abbreviation next := (onNext chargeLabel action).

(** The tracker after a click on the next button. *)
Lemma onNext_tracker env st :
  fst (next env st) = fst st \/
  fst (next env st) = _updateDialog (markResolved (fst st)).
Proof.
  rewrite onNext_roll.
  destruct (resolve env (fst st) (snd st)) as [w [e|u]]; [by left|by right].
Qed.

Lemma applyOp_bookkeeping o st :
  bookkeeping (fst st) ->
  bookkeeping (fst (applyOp chargeLabel action o st)) /\
  (currentIndex (fst st) <= currentIndex (fst (applyOp chargeLabel action o st)))%nat.
Proof.
  intros H. destruct o as [env|]; simpl.
  - destruct (onNext_tracker env st) as [->| ->]; [done|]. split.
    + eapply bookkeeping_core; [apply updateDialog_core|].
      by apply bookkeeping_resolved.
    + destruct (updateDialog_core (markResolved (fst st))) as (_ & -> & _).
      simpl. lia.
  - unfold _skipCurrentAttack. split.
    + eapply bookkeeping_core; [apply updateDialog_core|].
      by apply bookkeeping_skipped.
    + destruct (updateDialog_core (markSkipped (fst st))) as (_ & -> & _).
      simpl. lia.
Qed.

Lemma runOps_app os os' st :
  runOps chargeLabel action (os ++ os') st
  = runOps chargeLabel action os' (runOps chargeLabel action os st).
Proof. unfold runOps. by rewrite foldl_app. Qed.

Lemma runOps_bookkeeping os st :
  bookkeeping (fst st) ->
  bookkeeping (fst (runOps chargeLabel action os st)) /\
  (currentIndex (fst st) <= currentIndex (fst (runOps chargeLabel action os st)))%nat.
Proof.
  revert st. induction os as [|o os IH]; intros st H; [done|].
  simpl. destruct (applyOp_bookkeeping o st H) as [H1 Hle].
  destruct (IH _ H1) as [H2 Hle2]. split; [done|]. etransitivity; eauto.
Qed.

(** C3. Over any sequence of Advance and Skip operations from the initial
    state, whatever the host answers or throws, the resolved and the skipped
    indices are disjoint, together they are exactly the positions below
    [currentIndex], and [currentIndex] never decreases as the sequence goes
    on. *)
Theorem advance_skip_bookkeeping
    (atks : list Attack) (w0 : World) (os os' : list Op) :
  let st := runOps chargeLabel action os (newTracker atks, w0) in
  let st' := runOps chargeLabel action (os ++ os') (newTracker atks, w0) in
  resolvedIndices (fst st) ∩ skippedIndices (fst st) = ∅ /\
  resolvedIndices (fst st) ∪ skippedIndices (fst st)
    = set_seq 0 (currentIndex (fst st)) /\
  (forall i : nat,
     (i < currentIndex (fst st))%nat <->
     (i ∈ resolvedIndices (fst st) /\ i ∉ skippedIndices (fst st)) \/
     (i ∈ skippedIndices (fst st) /\ i ∉ resolvedIndices (fst st))) /\
  (currentIndex (fst st) <= currentIndex (fst st'))%nat.
Proof.
  intros st st'.
  destruct (runOps_bookkeeping os (newTracker atks, w0) (bookkeeping_new atks))
    as [[Hd Hu] _]. fold st in Hd, Hu.
  split; [done|]. split; [done|]. split.
  - intros i.
    assert (Hi : (i < currentIndex (fst st))%nat <->
                 i ∈ resolvedIndices (fst st) ∪ skippedIndices (fst st)).
    { rewrite Hu, elem_of_set_seq. lia. }
    rewrite Hi. set_solver.
  - subst st st'. rewrite runOps_app.
    apply runOps_bookkeeping. by split.
Qed.

End Runs.

(** ** The tracker: commands of the dialog *)

Section Commands.

Variable chargeLabel : string.
Variable action : Action.

Local Abbreviation next := (onNext chargeLabel action).
Local Abbreviation step := (step chargeLabel action).
Local Abbreviation run := (run chargeLabel action).

(** A command leaves the state alone, runs one of the two operations, or
    touches the dialog, the promise and the timers only. *)
Lemma step_cases c st :
  step c st = st \/
  (exists env, c = Click NextBtn env /\ step c st = next env st) \/
  step c st = onSkip st \/
  (snd (step c st) = snd st /\ sameCore (fst st) (fst (step c st))).
Proof.
  destruct c as [b env| |]; simpl.
  - destruct (rendered b (fst st)); [|by left].
    destruct b; eauto 6.
    + right; right; right. split; [done|]. unfold onCancel; simpl. done.
    + right; right; right. split; [done|]. unfold onClose; simpl. done.
  - destruct (dialog (fst st)); [|by left].
    right; right; right. split; [done|]. unfold dialog_close.
    destruct (_completed (fst st)); done.
  - unfold onTimeout. destruct (timers (fst st)); [by left|].
    right; right; right. simpl.
    destruct (dialog (fst st)); simpl; [|done].
    unfold sameCore, dialog_close; simpl.
    destruct (_completed (fst st)); done.
Qed.

(** An invariant of the two operations that does not look at the dialog is an
    invariant of every run of commands. *)
Lemma run_invariant (ok : Env -> Prop) (I : Tracker * World -> Prop) :
  (forall env st, ok env -> I st -> I (next env st)) ->
  (forall st, I st -> I (onSkip st)) ->
  (forall st t', I st -> sameCore (fst st) t' -> I (t', snd st)) ->
  forall cs st, Forall (hostIs ok) cs -> I st -> I (run cs st).
Proof.
  intros Hnext Hskip Hcore cs. induction cs as [|c cs IH]; intros st Hok HI.
  - done.
  - apply Forall_cons in Hok as [Hc Hcs]. simpl. apply IH; [done|].
    destruct (step_cases c st) as [->|[(env & -> & ->)|[->|[Hw Ht]]]]; auto.
    destruct (step c st) as [t' w'] eqn:E. simpl in *. subst w'.
    by apply (Hcore st t').
Qed.

Lemma hostIs_any cs : Forall (hostIs (fun _ => True)) cs.
Proof. apply Forall_forall. intros [[] ?| |] _; exact I. Qed.

(** *** Terminal phases *)

Lemma dialogInv_new atks : dialogInv (newTracker atks).
Proof. split; simpl; [done|discriminate]. Qed.

Lemma dialogInv_update t :
  (result t <> None -> dialog t = None) -> dialogInv (_updateDialog t).
Proof.
  intros H. unfold _updateDialog, dialogInv, rendered, _buildTrackerBody.
  destruct (dialog t) eqn:E; simpl.
  - split; [intros Hr; by apply H in Hr|]. by intros ->.
  - rewrite E. done.
Qed.

Lemma dialogInv_closed t : dialog t = None -> dialogInv t.
Proof. intros H. unfold dialogInv, rendered. rewrite H. done. Qed.

Lemma step_dialogInv c st : dialogInv (fst st) -> dialogInv (fst (step c st)).
Proof.
  intros H. destruct c as [b env| |]; simpl.
  - destruct (rendered b (fst st)); [|done]. destruct b.
    + destruct (onNext_tracker chargeLabel action env st) as [->| ->]; [done|].
      apply dialogInv_update. apply H.
    + apply dialogInv_update. apply H.
    + by apply dialogInv_closed.
    + by apply dialogInv_closed.
  - destruct (dialog (fst st)) eqn:E; [|done]. by apply dialogInv_closed.
  - unfold onTimeout. destruct (timers (fst st)); [done|]. simpl.
    destruct (dialog (fst st)) eqn:E; simpl; by apply dialogInv_closed.
Qed.

Lemma run_dialogInv cs st : dialogInv (fst st) -> dialogInv (fst (run cs st)).
Proof.
  revert st. induction cs as [|c cs IH]; intros st H; [done|].
  simpl. apply IH. by apply step_dialogInv.
Qed.

(** C8, as the code has it. In every state a run of the dialog can reach, once
    the sequence is over (completed or cancelled) a click on the next or on the
    skip control finds no button to act through and changes nothing: tracker
    and world, hence both index sets, [currentIndex] and every balance, are as
    before. *)
Theorem terminal_clicks_reach_no_handler
    (atks : list Attack) (w0 : World) (cs : list Command) (env : Env) :
  let st := run cs (newTracker atks, w0) in
  terminal (fst st) ->
  step (Click NextBtn env) st = st /\ step (Click SkipBtn env) st = st.
Proof.
  intros st Hterm.
  destruct (run_dialogInv cs (newTracker atks, w0) (dialogInv_new atks))
    as [Hres Hcomp]. fold st in Hres, Hcomp. simpl.
  destruct Hterm as [Hc|Hr].
  - destruct (Hcomp Hc) as [-> ->]. done.
  - unfold rendered. rewrite (Hres Hr). done.
Qed.

(** C6. When the work of an Advance throws, at whatever host call, the
    method has not written the tracker: the tracker object is exactly as
    before the click, so the index is not in the resolved set through this
    attempt, [currentIndex] and the phase are unchanged and the next button is
    still rendered; the error is shown to the user as the last event. For an
    attack that exists, a roll that throws and a chat card that fails to post
    do make the attempt throw; and after any failed attempt a click on next
    that the host serves without throwing resolves the same step. *)
Theorem failed_advance_leaves_step_unresolved (env : Env) (st : Tracker * World) :
  rendered NextBtn (fst st) = true ->
  let r := _resolveCurrentAttack chargeLabel action env st in
  let st' := step (Click NextBtn env) st in
  (forall e, snd r = inl e ->
     fst (fst r) = fst st /\
     fst st' = fst st /\
     resolvedIndices (fst st') = resolvedIndices (fst st) /\
     currentIndex (fst st') = currentIndex (fst st) /\
     _completed (fst st') = _completed (fst st) /\
     rendered NextBtn (fst st') = true /\
     trace (snd st')
     = trace (snd (fst r))
         ++ [NotifyError "Error resolving attack. Check console."]) /\
  (forall atk, allAttacks (fst st) !! currentIndex (fst st) = Some atk ->
     (fault env = Some AtRoll -> snd r = inl (HostError AtRoll)) /\
     (fault env = Some AtPostMessage -> namesAmmo atk ->
      hookResult env = true -> reject env = false ->
      snd r = inl (HostError AtPostMessage)) /\
     (forall e env', snd r = inl e -> fault env' = None -> namesAmmo atk ->
        let st2 := step (Click NextBtn env') st' in
        fst st2 = _updateDialog (markResolved (fst st)) /\
        currentIndex (fst st2) = S (currentIndex (fst st)) /\
        (currentIndex (fst st) ∈ resolvedIndices (fst st2)))).
Proof.
  intros Hbtn r st'.
  assert (Hfail : forall e, snd r = inl e ->
            fst r = (fst st, fst (rollCurrentAttack chargeLabel action env
                                    (fst st) (snd st))) /\
            st' = (fst st,
                   emit (NotifyError "Error resolving attack. Check console.")
                     (snd (fst r)))).
  { intros e He. pose proof (resolve_throws_this _ _ _ _ _ He) as Hr.
    split; [exact Hr|]. subst st' r. simpl. rewrite Hbtn. unfold onNext.
    destruct (_resolveCurrentAttack chargeLabel action env st)
      as [st1 [e1|u]]; simpl in *; [|done]. by rewrite Hr. }
  split.
  - intros e He. destruct (Hfail e He) as [Hr ->]. rewrite Hr. simpl.
    repeat split; done.
  - intros atk Hatk. split; [|split].
    + intros Hf. apply resolve_throws. by eapply roll_fails_at_roll.
    + intros Hf Hn Hh Hr. apply resolve_throws. by eapply roll_fails_at_post.
    + intros e env' He Hf' Hn st2. destruct (Hfail e He) as [Hr Hst'].
      subst st2. rewrite Hst'. simpl. rewrite Hbtn.
      rewrite onNext_roll. simpl.
      rewrite (resolve_ok chargeLabel action env' (fst st) _ Hf'). cbv zeta.
      rewrite Hatk.
      assert (Hok : hasAmmo atk && bool_decide (ammo atk = None) = false).
      { destruct (hasAmmo atk) eqn:E; [|done]. by destruct (Hn E) as [id ->]. }
      rewrite Hok. simpl. split; [done|].
      destruct (updateDialog_core (markResolved (fst st))) as (_ & -> & -> & _).
      simpl. split; [lia|]. set_solver.
Qed.

End Commands.

(** ** The tracker: resource commits *)

Lemma count_app p l1 l2 : count p (l1 ++ l2) = (count p l1 + count p l2)%nat.
Proof. induction l1 as [|e l1 IH]; simpl; [done|]. rewrite IH. lia. Qed.

Section Ledger.

Variable chargeLabel : string.
Variable action : Action.

Local Abbreviation next := (onNext chargeLabel action).
Local Abbreviation run := (run chargeLabel action).

Lemma rollWorld_trace env idx atk w :
  exists ctx,
    trace (rollWorld chargeLabel action env idx atk w)
    = trace w ++ [RollAttack idx ctx].
Proof. eexists. reflexivity. Qed.


Lemma commitWorld_trace idx atk w :
  trace (commitWorld action idx atk w) = trace w ++ commitEvents action idx atk.
Proof.
  unfold commitWorld, commitEvents.
  destruct (negb (ammo_cost action =? 0) && hasAmmo atk), (chargeDue atk),
    ((idx =? 0)%nat && isSelfCharged action); simpl;
    rewrite <- ?app_assoc; reflexivity.
Qed.


Lemma trace_set_shared s w : trace (set_shared s w) = trace w.
Proof. reflexivity. Qed.







Lemma count_post_commitEvents i idx atk :
  count (isPost i) (commitEvents action idx atk)
  = if bool_decide (i = idx) then 1%nat else 0%nat.
Proof.
  unfold commitEvents.
  destruct (negb (ammo_cost action =? 0) && hasAmmo atk), (chargeDue atk);
    simpl; case_bool_decide; done.
Qed.







End Ledger.

Lemma run_allAttacks chargeLabel action cs st :
  allAttacks (fst (run chargeLabel action cs st)) = allAttacks (fst st).
Proof.
  apply (run_invariant chargeLabel action (fun _ => True)
           (fun st' => allAttacks (fst st') = allAttacks (fst st))).
  - intros env st0 _ <-.
    destruct (onNext_tracker chargeLabel action env st0) as [->| ->]; [done|].
    by destruct (updateDialog_core (markResolved (fst st0))) as (-> & _).
  - intros st0 <-. simpl. unfold _skipCurrentAttack.
    by destruct (updateDialog_core (markSkipped (fst st0))) as (-> & _).
  - intros st0 t' H (Hc & _). simpl in *. congruence.
  - apply hostIs_any.
  - done.
Qed.



(** The run that the reading [committedOnce] of C7 does not survive: the first
    attack is rolled, its arrow is subtracted, the chat card fails to post; the
    user clicks again and the attack resolves. The step is resolved once and
    its arrow has been committed twice. *)
Example retry_commits_again :
  let st := run "Charge" longbow
              [Click NextBtn hostFailsToPost; Click NextBtn hostOk]
              (newTracker volley, quiver 5) in
  currentIndex (fst st) = 1%nat /\
  count (isCommitAmmo 0) (trace (snd st)) = 2%nat /\
  count (isPost 0) (trace (snd st)) = 1%nat /\
  items (snd st) !! "arrows" = Some {| quantity := Some 3; abundant := false |}.
Proof. vm_compute. done. Qed.


(** A vetoed step is resolved with no commit at all. *)
Example vetoed_step_commits_nothing :
  let st := run "Charge" longbow [Click NextBtn hostVetoes]
              (newTracker volley, quiver 5) in
  currentIndex (fst st) = 1%nat /\
  count (isCommitAmmo 0) (trace (snd st)) = 0%nat /\
  count (isPost 0) (trace (snd st)) = 0%nat /\
  items (snd st) !! "arrows" = Some {| quantity := Some 5; abundant := false |}.
Proof. vm_compute. done. Qed.

(** ** The tracker: ammunition balances *)

Lemma usesAmmo_nonneg id l : 0 <= usesAmmo id l.
Proof.
  induction l as [|a l IH]; simpl; [done|].
  destruct (hasAmmo a && bool_decide (ammo a = Some id)); lia.
Qed.


Section Ammo.

Variable chargeLabel : string.
Variable action : Action.
Hypothesis cost_nonneg : 0 <= ammo_cost action.








End Ammo.









(** Two arrows, two shots, no failure: the quiver ends at zero. *)
Example quiver_emptied :
  items (snd (run "Charge" longbow [Click NextBtn hostOk; Click NextBtn hostOk]
                (newTracker volley, quiver 2))) !! "arrows"
  = Some {| quantity := Some 0; abundant := false |}.
Proof. vm_compute. done. Qed.

(** ** The tracker: the charge bonus *)

Section Charge.

Variable chargeLabel : string.
Variable action : Action.

Lemma filter_untagged_idem (b : list string) :
  filter (untagged chargeLabel) (filter (untagged chargeLabel) b)
  = filter (untagged chargeLabel) b.
Proof.
  induction b as [|x b IH]; [done|].
  destruct (decide (untagged chargeLabel x)) as [Hx|Hx].
  - rewrite (filter_cons_True _ _ _ Hx), (filter_cons_True _ _ _ Hx). by rewrite IH.
  - by rewrite (filter_cons_False _ _ _ Hx).
Qed.

Lemma chargeInv_core atks b0 c0 st t' :
  chargeInv chargeLabel atks b0 c0 st -> sameCore (fst st) t' ->
  chargeInv chargeLabel atks b0 c0 (t', snd st).
Proof.
  intros (Ha & Hs & Hev & Hres) (Ha' & Hi & Hr & _). unfold chargeInv. simpl.
  rewrite Ha', Hi, Hr. done.
Qed.

Lemma chargeInv_skip atks b0 c0 st :
  chargeInv chargeLabel atks b0 c0 st ->
  chargeInv chargeLabel atks b0 c0 (onSkip st).
Proof.
  intros (Ha & Hs & Hev & Hres). unfold chargeInv, onSkip, _skipCurrentAttack.
  simpl.
  destruct (updateDialog_core (markSkipped (fst st))) as (-> & -> & -> & _).
  simpl. split; [done|]. split; [|done].
  destruct Hs as [?|(? & ? & ? & ?)]; [by left|right]. repeat split; try done.
  lia.
Qed.

(** What lines 404-410 leave in the shared state of a run: at the first
    position nothing is touched, past it both flags are off and the tagged
    terms are gone. *)
Lemma chargeInv_clearCharge atks b0 c0 st :
  chargeInv chargeLabel atks b0 c0 st ->
  let idx := currentIndex (fst st) in
  let s := clearCharge chargeLabel idx (shared (snd st)) in
  (idx = 0%nat /\ sh_formData_charge s = true /\ sh_charge s = c0 /\
   sh_attackBonus s = b0) \/
  ((0 < idx)%nat /\ sh_formData_charge s = false /\ sh_charge s = false /\
   sh_attackBonus s = filter (untagged chargeLabel) b0).
Proof.
  intros (Ha & Hs & Hev & Hres) idx s. unfold s, clearCharge.
  destruct idx as [|n] eqn:En.
  - left. simpl. destruct Hs as [(? & ? & ?)|(_ & _ & _ & ?)]; [done|lia].
  - right. split; [lia|]. simpl.
    destruct Hs as [(Hf0 & Hc0 & Hb0)|(Hf0 & Hc0 & Hb0 & _)]; rewrite Hf0; simpl;
      by rewrite ?Hf0, ?Hb0.
Qed.

(** The attempt of the next button leaves the shared state as lines 404-410
    made it, whether it returns or throws. *)
Lemma onNext_shared env st :
  let w' := snd (onNext chargeLabel action env st) in
  let s := clearCharge chargeLabel (currentIndex (fst st)) (shared (snd st)) in
  sh_attackBonus (shared w') = sh_attackBonus s /\
  sh_formData_charge (shared w') = sh_formData_charge s /\
  sh_charge (shared w') = sh_charge s.
Proof.
  pose proof (resolve_charge chargeLabel action env (fst st) (snd st)) as H.
  cbv zeta in *. destruct H as (Hb & Hf & Hc & _).
  rewrite onNext_roll.
  destruct (rollCurrentAttack chargeLabel action env (fst st) (snd st))
    as [w [e|u]]; simpl in *; done.
Qed.

(** The trace after the attempt of the next button starts with the trace of
    the work. *)
Lemma onNext_trace env st :
  exists tail,
    trace (snd (onNext chargeLabel action env st))
    = trace (fst (rollCurrentAttack chargeLabel action env (fst st) (snd st)))
      ++ tail /\
    Forall (fun e => match e with RollAttack _ _ => False | _ => True end) tail.
Proof.
  rewrite onNext_roll.
  destruct (rollCurrentAttack chargeLabel action env (fst st) (snd st))
    as [w [e|u]]; simpl.
  - eexists [_]. split; [reflexivity|]. by repeat constructor.
  - exists []. by rewrite app_nil_r.
Qed.

Lemma chargeInv_next atks b0 c0 env st :
  chargeInv chargeLabel atks b0 c0 st ->
  chargeInv chargeLabel atks b0 c0 (onNext chargeLabel action env st).
Proof.
  intros HI.
  pose proof (chargeInv_clearCharge _ _ _ _ HI) as Hclear.
  pose proof (onNext_shared env st) as Hsh.
  destruct (onNext_trace env st) as (tail & Htail & Hquiet).
  destruct HI as (Ha & Hs & Hev & Hres).
  pose proof (resolve_charge chargeLabel action env (fst st) (snd st)) as H.
  cbv zeta in *. destruct H as (_ & _ & _ & evs & Htr & Hevs).
  destruct Hsh as (Hb & Hf & Hc).
  set (idx := currentIndex (fst st)) in *.
  assert (Hnew : Forall (chargeRoll chargeLabel atks b0) evs).
  { eapply Forall_impl; [exact Hevs|]. intros [j ctx| | | |] He; try exact I.
    simpl in He. destruct He as (-> & atk & Hatk & Hadd & Hparts & Hflag).
    simpl. exists atk. rewrite <- Ha. split; [done|]. split; [done|]. fold idx.
    destruct Hclear as [(-> & Hf' & _ & Hb')|(Hpos & Hf' & _ & Hb')].
    - simpl. by rewrite Hparts, Hflag, Hf', Hb'.
    - destruct (decide (idx = 0%nat)); [lia|].
      by rewrite Hparts, Hflag, Hf', Hb'. }
  assert (Hall : Forall (chargeRoll chargeLabel atks b0)
                   (trace (snd (onNext chargeLabel action env st)))).
  { rewrite Htail, Htr. apply Forall_app. split; [by apply Forall_app|].
    eapply Forall_impl; [exact Hquiet|]. by intros [| | | |]. }
  assert (Hold : forall i, i ∈ resolvedIndices (fst st) ->
            exists ctx, RollAttack i ctx
                          ∈ trace (snd (onNext chargeLabel action env st))).
  { intros i Hi. destruct (Hres i Hi) as (ctx & Hin). exists ctx.
    rewrite Htail, Htr. set_solver. }
  unfold chargeInv. rewrite Hb, Hf, Hc.
  rewrite onNext_roll in *.
  destruct (rollCurrentAttack chargeLabel action env (fst st) (snd st))
    as [w' [e|u]] eqn:E; simpl in *.
  - split; [done|]. split; [|done].
    destruct Hclear as [(_ & Hf' & Hc' & Hb')|(Hpos & Hf' & Hc' & Hb')];
      [by left|by right].
  - destruct (updateDialog_core (markResolved (fst st))) as (-> & -> & -> & _).
    simpl. split; [done|]. split; [|split; [done|]].
    + destruct Hclear as [(_ & Hf' & Hc' & Hb')|(Hpos & Hf' & Hc' & Hb')];
        [by left|right]. repeat split; try done. lia.
    + intros i [Hi| ->%elem_of_singleton]%elem_of_union; [by apply Hold|].
      destruct (resolve_returns_rolled _ _ _ _ _ _ _ E) as (ctx & Hin).
      by exists ctx.
Qed.

Lemma chargeInv_run atks w0 cs :
  sh_formData_charge (shared w0) = true -> trace w0 = [] ->
  chargeInv chargeLabel atks (sh_attackBonus (shared w0)) (sh_charge (shared w0))
    (run chargeLabel action cs (newTracker atks, w0)).
Proof.
  intros Hflag Htr.
  apply (run_invariant chargeLabel action (fun _ => True)).
  - intros env st _. apply chargeInv_next.
  - apply chargeInv_skip.
  - apply chargeInv_core.
  - apply hostIs_any.
  - split; [done|]. split; [by left|]. simpl. rewrite Htr.
    split; [constructor|]. set_solver.
Qed.

(** The next attempt in a run: its roll is evaluated against the shared state
    that lines 404-410 left. *)
Lemma chargeInv_rolls atks b0 c0 env st atk :
  chargeInv chargeLabel atks b0 c0 st ->
  atks !! currentIndex (fst st) = Some atk ->
  fault env <> Some AtGetTargets ->
  exists ctx rest,
    trace (snd (onNext chargeLabel action env st))
    = trace (snd st) ++ RollAttack (currentIndex (fst st)) ctx :: rest /\
    ctx_addAttack ctx = negb (manyshot atk) /\
    ctx_charge ctx = bool_decide (currentIndex (fst st) = 0%nat) /\
    ctx_extraParts ctx
    = (if decide (currentIndex (fst st) = 0%nat) then b0
       else filter (untagged chargeLabel) b0) ++ [attackBonus atk].
Proof.
  intros HI Hatk Hf.
  pose proof (chargeInv_clearCharge _ _ _ _ HI) as Hclear. cbv zeta in Hclear.
  destruct HI as (Ha & _). rewrite <- Ha in Hatk.
  destruct (resolve_rolls chargeLabel action env (fst st) (snd st) atk Hatk Hf)
    as (ctx & rest & Htr & Hadd & Hflag & Hparts).
  destruct (onNext_trace env st) as (tail & Htail & _).
  exists ctx, (rest ++ tail). split; [|split; [done|]].
  - rewrite Htail, Htr. by rewrite <- app_assoc.
  - rewrite Hflag, Hparts.
    destruct Hclear as [(-> & -> & _ & ->)|(Hpos & -> & _ & ->)]; [done|].
    rewrite bool_decide_eq_false_2 by lia.
    by destruct (decide (currentIndex (fst st) = 0%nat)); [lia|].
Qed.

End Charge.

(** C2. Charge was selected in the attack dialog: [shared.formData.charge] is
    set, and [b0] are the additive terms the dialog left. Then in every run of
    the tracker, whatever the host answers or throws:
    - the chat attack of the first attack is built with the charge flag set
      and with all terms of [b0], the charge term among them; that of a later
      attack with the flag cleared and with exactly the terms that do not
      carry the charge tag, in their order; these are the terms of its attack
      roll, which every attack but a manyshot one gets;
    - every position recorded as resolved has such a roll in the trace;
    - as long as the run is at the first position, the two flags and the
      terms are as the dialog left them;
    - an attempt at a later position leaves [shared.formData.charge] and
      [shared.charge] false and the terms filtered, whether it returns or
      throws, and no filtered term carries the tag;
    - an attempt that gets past the collection of targets builds the chat
      attack of the current attack: the trace grows by it, with the attack
      roll asked for unless the attack is a manyshot one, with the flag set
      exactly at position 0 and with [b0] there and the filtered terms
      elsewhere. *)
Theorem charge_bonus_only_on_first_attack
    (chargeLabel : string) (action : Action)
    (atks : list Attack) (w0 : World) (cs : list Command) :
  sh_formData_charge (shared w0) = true ->
  trace w0 = [] ->
  let b0 := sh_attackBonus (shared w0) in
  let cleared := filter (untagged chargeLabel) b0 in
  let st := run chargeLabel action cs (newTracker atks, w0) in
  let idx := currentIndex (fst st) in
  (forall j ctx, RollAttack j ctx ∈ trace (snd st) ->
    exists atk, atks !! j = Some atk /\
      ctx_addAttack ctx = negb (manyshot atk) /\
      (j = 0%nat ->
       ctx_charge ctx = true /\
       ctx_extraParts ctx = b0 ++ [attackBonus atk]) /\
      ((0 < j)%nat ->
       ctx_charge ctx = false /\
       exists parts,
         ctx_extraParts ctx = parts ++ [attackBonus atk] /\
         parts = cleared /\
         Forall (fun part => includes part (chargeTag chargeLabel) = false) parts)) /\
  (forall j, j ∈ resolvedIndices (fst st) ->
    exists ctx, RollAttack j ctx ∈ trace (snd st)) /\
  (idx = 0%nat ->
    sh_formData_charge (shared (snd st)) = true /\
    sh_charge (shared (snd st)) = sh_charge (shared w0) /\
    sh_attackBonus (shared (snd st)) = b0) /\
  (forall env, (0 < idx)%nat ->
    let st' := onNext chargeLabel action env st in
    sh_formData_charge (shared (snd st')) = false /\
    sh_charge (shared (snd st')) = false /\
    sh_attackBonus (shared (snd st')) = cleared /\
    Forall (fun part => includes part (chargeTag chargeLabel) = false)
      (sh_attackBonus (shared (snd st')))) /\
  (forall env atk, atks !! idx = Some atk -> fault env <> Some AtGetTargets ->
    let st' := onNext chargeLabel action env st in
    exists ctx rest,
      trace (snd st') = trace (snd st) ++ RollAttack idx ctx :: rest /\
      ctx_addAttack ctx = negb (manyshot atk) /\
      ctx_charge ctx = bool_decide (idx = 0%nat) /\
      ctx_extraParts ctx
      = (if decide (idx = 0%nat) then b0 else cleared) ++ [attackBonus atk]).
Proof.
  intros Hflag Htr b0 cleared st idx.
  pose proof (chargeInv_run chargeLabel action atks w0 cs Hflag Htr) as HI.
  fold st b0 in HI.
  assert (Hcl : Forall (fun part => includes part (chargeTag chargeLabel) = false)
                  cleared).
  { apply Forall_forall. intros part Hpart.
    by apply list_elem_of_filter in Hpart as [? _]. }
  split; [|split; [|split; [|split]]].
  - destruct HI as (_ & _ & Hev & _). intros j ctx Hin.
    rewrite Forall_forall in Hev. specialize (Hev _ Hin).
    simpl in Hev. destruct Hev as (atk & Hatk & Hadd & Hctx).
    exists atk. split; [done|]. split; [done|]. split.
    + intros ->. simpl in Hctx. done.
    + intros Hpos. destruct (decide (j = 0%nat)); [lia|].
      destruct Hctx as [Hc Hp]. split; [done|].
      eexists. split; [exact Hp|]. done.
  - by destruct HI as (_ & _ & _ & Hres).
  - intros H0. destruct HI as (_ & [?|(_ & _ & _ & Hpos)] & _); [done|].
    fold idx in Hpos. lia.
  - intros env Hpos st'.
    destruct (onNext_shared chargeLabel action env st) as (Hb & Hf & Hc).
    destruct (chargeInv_clearCharge _ _ _ _ _ HI)
      as [(H0 & _)|(_ & Hf' & Hc' & Hb')]; [fold idx in H0; lia|].
    unfold st'. rewrite Hb, Hf, Hc, Hf', Hc', Hb'. done.
  - intros env atk Hatk Hf st'.
    exact (chargeInv_rolls chargeLabel action atks b0 _ env st atk HI Hatk Hf).
Qed.

Lemma charge_bonus_only_on_first_attack_witness :
  let st := run "Charge" greatsword [Click NextBtn hostOk]
              (newTracker blows, chargingWorld) in
  let st' := onNext "Charge" greatsword hostOk st in
  (sh_formData_charge (shared chargingWorld) = true /\
   trace chargingWorld = []) /\
  (0%nat ∈ resolvedIndices (fst st) /\
   exists ctx, RollAttack 0 ctx ∈ trace (snd st)) /\
  (sh_formData_charge (shared (snd st')) = false /\
   sh_charge (shared (snd st')) = false /\
   sh_attackBonus (shared (snd st')) = ["1[Bless]"]) /\
  (exists ctx rest,
     trace (snd st') = trace (snd st) ++ RollAttack 1 ctx :: rest /\
     ctx_addAttack ctx = true /\
     ctx_charge ctx = false /\
     ctx_extraParts ctx = ["1[Bless]"; "-5"]).
Proof.
  intros st st'.
  pose proof (charge_bonus_only_on_first_attack "Charge" greatsword blows
                chargingWorld [Click NextBtn hostOk] eq_refl eq_refl) as H.
  cbv zeta in H. fold st in H.
  destruct H as (_ & Hres & _ & Hclear & Hroll).
  assert (Hidx : currentIndex (fst st) = 1%nat) by (vm_compute; reflexivity).
  assert (H0 : 0%nat ∈ resolvedIndices (fst st)).
  { apply (bool_decide_unpack _). vm_compute. exact I. }
  split; [split; reflexivity|]. split; [split; [exact H0|exact (Hres _ H0)]|].
  split.
  - rewrite Hidx in Hclear.
    destruct (Hclear hostOk ltac:(lia)) as (Hf & Hc & Hb & _). fold st' in Hf, Hc, Hb.
    split; [exact Hf|]. split; [exact Hc|]. rewrite Hb. vm_compute. reflexivity.
  - rewrite Hidx in Hroll.
    destruct (Hroll hostOk (strike "Iterative 1" "-5") eq_refl
                ltac:(vm_compute; discriminate))
      as (ctx & rest & Htr & Ha & Hc & Hp).
    exists ctx, rest. fold st' in Htr. split; [exact Htr|]. split; [exact Ha|].
    split; [exact Hc|].
    rewrite Hp. vm_compute. reflexivity.
Defined.

(** The two rolls of that run: the charge term is in the first and not in the
    second. *)
Example charge_run_rolls :
  (fun e => match e with
            | RollAttack j ctx => Some (j, ctx_charge ctx, ctx_extraParts ctx)
            | _ => None
            end)
    <$> trace (snd (run "Charge" greatsword
                      [Click NextBtn hostOk; Click NextBtn hostOk]
                      (newTracker blows, chargingWorld)))
  = [Some (0%nat, true, ["2[Charge]"; "1[Bless]"; "0"]); None;
     Some (1%nat, false, ["1[Bless]"; "-5"]); None].
Proof. vm_compute. reflexivity. Qed.

(** Skipping the first attack does not keep the charge for the second. *)
Example charge_lost_when_first_is_skipped :
  (fun e => match e with
            | RollAttack j ctx => Some (j, ctx_charge ctx, ctx_extraParts ctx)
            | _ => None
            end)
    <$> trace (snd (run "Charge" greatsword
                      [Click SkipBtn hostOk; Click NextBtn hostOk]
                      (newTracker blows, chargingWorld)))
  = [Some (1%nat, false, ["1[Bless]"; "-5"]); None].
Proof. vm_compute. reflexivity. Qed.

(** ** Witnesses and runs for the terminal phases and the failed Advance *)

Lemma terminal_clicks_reach_no_handler_witness :
  let st := run "Charge" longbow [Click CancelBtn hostOk]
              (newTracker volley, quiver 5) in
  terminal (fst st) /\
  step "Charge" longbow (Click NextBtn hostOk) st = st /\
  step "Charge" longbow (Click SkipBtn hostOk) st = st.
Proof.
  assert (Hterm : terminal (fst (run "Charge" longbow [Click CancelBtn hostOk]
                                  (newTracker volley, quiver 5))))
    by (left; reflexivity).
  split; [exact Hterm|].
  exact (terminal_clicks_reach_no_handler "Charge" longbow volley (quiver 5)
           [Click CancelBtn hostOk] hostOk Hterm).
Defined.

(** The two operations called on the tracker itself carry no guard on the
    phase. After two skips the two-attack sequence is completed; a third call
    of Skip records index 2 as skipped and moves [currentIndex] to 3. After a
    cancel, a call of Advance rolls the first attack and takes an arrow. *)
Lemma operations_have_no_phase_guard :
  let done := runOps "Charge" longbow [Skip; Skip] (newTracker volley, quiver 5) in
  let gone := run "Charge" longbow [Click CancelBtn hostOk]
                (newTracker volley, quiver 5) in
  (terminal (fst done) /\
   currentIndex (fst done) = 2%nat /\
   currentIndex (fst (applyOp "Charge" longbow Skip done)) = 3%nat /\
   applyOp "Charge" longbow Skip done <> done) /\
  (terminal (fst gone) /\
   items (snd gone) !! "arrows"
   = Some {| quantity := Some 5; abundant := false |} /\
   items (snd (applyOp "Charge" longbow (Advance hostOk) gone)) !! "arrows"
   = Some {| quantity := Some 4; abundant := false |} /\
   currentIndex (fst (applyOp "Charge" longbow (Advance hostOk) gone)) = 1%nat).
Proof.
  split.
  - split; [left; reflexivity|]. split; [reflexivity|]. split; [reflexivity|].
    intros E. apply (f_equal (fun st => currentIndex (fst st))) in E.
    vm_compute in E. discriminate E.
  - split; [left; reflexivity|]. vm_compute. done.
Qed.

Lemma failed_advance_leaves_step_unresolved_witness :
  let st := (newTracker volley, quiver 5) in
  let r := _resolveCurrentAttack "Charge" longbow hostFailsToPost st in
  let st' := step "Charge" longbow (Click NextBtn hostFailsToPost) st in
  let st2 := step "Charge" longbow (Click NextBtn hostOk) st' in
  rendered NextBtn (fst st) = true /\
  snd r = inl (HostError AtPostMessage) /\
  fst (fst r) = fst st /\ fst st' = fst st /\
  trace (snd st')
  = trace (snd (fst r)) ++ [NotifyError "Error resolving attack. Check console."] /\
  currentIndex (fst st2) = 1%nat /\ 0%nat ∈ resolvedIndices (fst st2).
Proof.
  intros st r st' st2.
  assert (Hr : rendered NextBtn (fst st) = true) by reflexivity.
  destruct (failed_advance_leaves_step_unresolved "Charge" longbow
              hostFailsToPost st Hr) as [Hfail Hthrows].
  fold r st' in Hfail, Hthrows.
  destruct (Hthrows (shot "Attack" "" true) eq_refl) as (_ & Hpost & Hretry).
  assert (He : snd r = inl (HostError AtPostMessage)).
  { apply Hpost; [reflexivity| |reflexivity|reflexivity].
    intros _. by eexists. }
  destruct (Hfail _ He) as (H1 & H2 & _ & _ & _ & _ & H3).
  destruct (Hretry _ hostOk He eq_refl ltac:(intros _; by eexists))
    as (_ & H4 & H5).
  fold st2 in H4, H5.
  split; [exact Hr|]. split; [exact He|]. split; [exact H1|].
  split; [exact H2|]. split; [exact H3|]. split; [exact H4|exact H5].
Defined.

(** After the failed attempt a second click resolves the same step. *)
Example failed_advance_then_retry :
  let st1 := step "Charge" longbow (Click NextBtn hostFailsToPost)
               (newTracker volley, quiver 5) in
  let st2 := step "Charge" longbow (Click NextBtn hostOk) st1 in
  currentIndex (fst st1) = 0%nat /\ _completed (fst st1) = false /\
  currentIndex (fst st2) = 1%nat /\
  count (isPost 0) (trace (snd st2)) = 1%nat.
Proof. vm_compute. done. Qed.

(** * Further properties *)

(** ** The dialog and the promise of [run()] *)

Section Dialog.

Variable chargeLabel : string.
Variable action : Action.

Local Abbreviation step := (step chargeLabel action).
Local Abbreviation run := (run chargeLabel action).

Lemma trackerInv_new atks : atks <> [] -> trackerInv (newTracker atks).
Proof.
  intros H. unfold trackerInv. simpl.
  repeat split; try done; try lia; auto.
  intros _. destruct atks; [done|simpl; lia].
Qed.

(** A rendered button tells the phase. *)
Lemma rendered_running t b :
  trackerInv t -> rendered b t = true -> b <> CloseBtn ->
  _completed t = false /\ result t = None /\
  (currentIndex t < length (allAttacks t))%nat /\ timers t = 0%nat.
Proof.
  intros (Hd & Hr & Hle & Hrun & Hc & Ht & _) Hb Hne.
  unfold rendered in Hb. destruct (dialog t) as [bs|] eqn:E; [|done].
  destruct Hd as [?|Hd]; [done|]. injection Hd as ->.
  unfold _buildTrackerBody in Hb.
  destruct (_completed t) eqn:Ec.
  - apply bool_decide_eq_true in Hb. apply list_elem_of_singleton in Hb. done.
  - split; [done|]. split.
    + destruct (result t) eqn:Er; [exfalso|done].
      pose proof (Hr ltac:(done)). congruence.
    + split; [by apply Hrun|].
      destruct (timers t) eqn:En; [done|]. destruct Ht as [? _]; [lia|done].
Qed.

Lemma rendered_close t :
  trackerInv t -> rendered CloseBtn t = true ->
  _completed t = true /\ result t = None /\
  currentIndex t = length (allAttacks t).
Proof.
  intros (Hd & Hr & Hle & Hrun & Hc & Ht & _) Hb.
  unfold rendered in Hb. destruct (dialog t) as [bs|] eqn:E; [|done].
  destruct Hd as [?|Hd]; [done|]. injection Hd as ->.
  unfold _buildTrackerBody in Hb.
  destruct (_completed t) eqn:Ec.
  - split; [done|]. split.
    + destruct (result t) eqn:Er; [exfalso|done].
      pose proof (Hr ltac:(done)). congruence.
    + by apply Hc.
  - apply bool_decide_eq_true in Hb.
    repeat (apply elem_of_cons in Hb as [Hb|Hb]; [done|]).
    by apply elem_of_nil in Hb.
Qed.

(** Recording the current index, by either operation, from a running state. *)
Lemma trackerInv_mark t t1 :
  trackerInv t ->
  _completed t = false -> result t = None -> timers t = 0%nat ->
  (currentIndex t < length (allAttacks t))%nat ->
  allAttacks t1 = allAttacks t -> currentIndex t1 = (currentIndex t + 1)%nat ->
  _completed t1 = (if (length (allAttacks t) <=? currentIndex t + 1)%nat
                   then true else _completed t) ->
  dialog t1 = dialog t -> result t1 = result t -> timers t1 = timers t ->
  trackerInv (_updateDialog t1).
Proof.
  intros (Hd & _) Hc Hr Ht Hlt Ha Hi Hc1 Hd1 Hr1 Ht1.
  unfold trackerInv, _updateDialog.
  destruct (Nat.leb_spec (length (allAttacks t)) (currentIndex t + 1)) as [Hge|Hlt'];
    rewrite ?Hc in Hc1;
    (destruct (dialog t1) eqn:E; simpl;
     rewrite ?Ha, ?Hi, ?Hc1, ?Hr1, ?Hr, ?Ht1, ?Ht, ?E; unfold _buildTrackerBody;
     simpl; rewrite ?Hc1;
     repeat split; try done; try lia; auto; try (intros; lia)).
Qed.

Lemma step_trackerInv c st : trackerInv (fst st) -> trackerInv (fst (step c st)).
Proof.
  intros H. destruct c as [b env| |]; simpl.
  - destruct (rendered b (fst st)) eqn:Hb; [|done]. destruct b.
    + destruct (rendered_running _ _ H Hb) as (Hc & Hr & Hlt & Ht); [done|].
      destruct (onNext_tracker chargeLabel action env st) as [->| ->]; [done|].
      by apply (trackerInv_mark (fst st)).
    + destruct (rendered_running _ _ H Hb) as (Hc & Hr & Hlt & Ht); [done|].
      by apply (trackerInv_mark (fst st)).
    + destruct (rendered_running _ _ H Hb) as (Hc & Hr & Hlt & Ht); [done|].
      unfold trackerInv, onCancel, dialog_close, _resolve. simpl. rewrite Hr, Ht.
      repeat split; try done; try lia; auto.
    + destruct (rendered_close _ H Hb) as (Hc & Hr & Heq).
      destruct H as (_ & _ & _ & _ & _ & Ht & _).
      unfold trackerInv, onClose, dialog_close, _resolve. simpl. rewrite Hr.
      repeat split; try done; try lia; auto; intros; by apply Ht.
  - destruct (dialog (fst st)) eqn:E; [|done]. simpl.
    destruct H as (Hd & Hr & Hle & Hrun & Hc & Ht & Hrc & Hrx).
    assert (Hnone : result (fst st) = None).
    { destruct (result (fst st)) eqn:Er; [exfalso|done].
      pose proof (Hr ltac:(done)). congruence. }
    unfold trackerInv, dialog_close, _resolve.
    destruct (_completed (fst st)) eqn:Ec; simpl; rewrite ?Hnone, ?Ec;
      repeat split; try done; try lia; auto.
  - unfold onTimeout. destruct (timers (fst st)) eqn:En; [done|].
    destruct H as (Hd & Hr & Hle & Hrun & Hc & Ht & Hrc & Hrx).
    destruct Ht as [Hcomp Heq]; [lia|].
    destruct (dialog (fst st)) eqn:E; simpl.
    + assert (Hnone : result (fst st) = None).
      { destruct (result (fst st)) eqn:Er; [exfalso|done].
      pose proof (Hr ltac:(done)). congruence. }
      unfold trackerInv, dialog_close, _resolve. simpl. rewrite Hcomp, Hnone. simpl.
      repeat split; try done; try lia; auto.
    + unfold trackerInv. simpl. rewrite ?E, ?Hcomp.
      repeat split; try done; try lia; auto.
Qed.

Lemma run_trackerInv cs st : trackerInv (fst st) -> trackerInv (fst (run cs st)).
Proof.
  revert st. induction cs as [|c cs IH]; intros st H; [done|].
  simpl. apply IH. by apply step_trackerInv.
Qed.

End Dialog.

Lemma run_bookkeeping chargeLabel action cs st :
  bookkeeping (fst st) -> bookkeeping (fst (run chargeLabel action cs st)).
Proof.
  apply (run_invariant chargeLabel action (fun _ => True)
           (fun st => bookkeeping (fst st))).
  - intros env st0 _ H.
    apply (applyOp_bookkeeping chargeLabel action (Advance env) st0 H).
  - intros st0 H. apply (applyOp_bookkeeping chargeLabel action Skip st0 H).
  - intros st0 t' H Hc. simpl. by eapply bookkeeping_core.
  - apply hostIs_any.
Qed.

(** X1. Through the dialog the index never runs past the plan: from a
    non-empty plan, [currentIndex] is at most the number of attacks, the
    tracker is completed whenever it equals that number, and whenever the next,
    skip or cancel button is on screen the current attack exists. *)
Theorem dialog_keeps_index_in_range
    (chargeLabel : string) (action : Action)
    (atks : list Attack) (w0 : World) (cs : list Command) :
  atks <> [] ->
  let t := fst (run chargeLabel action cs (newTracker atks, w0)) in
  (currentIndex t <= length atks)%nat /\
  (currentIndex t = length atks -> _completed t = true) /\
  (forall b, rendered b t = true -> b <> CloseBtn ->
     _completed t = false /\ is_Some (atks !! currentIndex t)).
Proof.
  intros Hne t.
  pose proof (run_trackerInv chargeLabel action cs (newTracker atks, w0)
                (trackerInv_new atks Hne)) as Hinv. fold t in Hinv.
  pose proof (run_allAttacks chargeLabel action cs (newTracker atks, w0)) as Ha.
  fold t in Ha. simpl in Ha.
  pose proof Hinv as (_ & _ & Hle & Hrun & _). rewrite Ha in *.
  split; [done|]. split.
  - intros Heq. destruct (_completed t) eqn:Ec; [done|].
    specialize (Hrun eq_refl). lia.
  - intros b Hb Hnc.
    destruct (rendered_running t b Hinv Hb Hnc) as (Hc & _ & Hlt & _).
    split; [done|]. apply lookup_lt_is_Some. by rewrite <- Ha.
Qed.

Lemma dialog_keeps_index_in_range_witness :
  volley <> [] /\
  let t := fst (run "Charge" longbow [Click SkipBtn hostOk; Click NextBtn hostOk;
                                      Click SkipBtn hostOk]
                  (newTracker volley, quiver 5)) in
  (currentIndex t <= length volley)%nat.
Proof.
  split; [discriminate|].
  apply (dialog_keeps_index_in_range "Charge" longbow volley (quiver 5)
           [Click SkipBtn hostOk; Click NextBtn hostOk; Click SkipBtn hostOk]).
  discriminate.
Defined.

(** X2. What the promise of [run()] resolves to tells how far the sequence
    got: "completed" only when every position of the plan is resolved or
    skipped, "cancelled" only when the current attack and all later ones are
    neither. *)
Theorem promise_tells_progress
    (chargeLabel : string) (action : Action)
    (atks : list Attack) (w0 : World) (cs : list Command) :
  atks <> [] ->
  let t := fst (run chargeLabel action cs (newTracker atks, w0)) in
  (result t = Some completed ->
   currentIndex t = length atks /\
   forall i, (i < length atks)%nat ->
     i ∈ resolvedIndices t \/ i ∈ skippedIndices t) /\
  (result t = Some cancelled ->
   (currentIndex t < length atks)%nat /\
   forall i, (currentIndex t <= i)%nat ->
     (i ∉ resolvedIndices t) /\ (i ∉ skippedIndices t)).
Proof.
  intros Hne t.
  pose proof (run_trackerInv chargeLabel action cs (newTracker atks, w0)
                (trackerInv_new atks Hne)) as Hinv. fold t in Hinv.
  pose proof (run_allAttacks chargeLabel action cs (newTracker atks, w0)) as Ha.
  fold t in Ha. simpl in Ha.
  pose proof (run_bookkeeping chargeLabel action cs (newTracker atks, w0)
                (bookkeeping_new atks)) as [Hd Hu]. fold t in Hd, Hu.
  destruct Hinv as (_ & _ & _ & _ & _ & _ & Hcomp & Hcanc). rewrite Ha in *.
  assert (Hmem : forall i, i ∈ resolvedIndices t ∪ skippedIndices t <->
                           (i < currentIndex t)%nat).
  { intros i. rewrite Hu, elem_of_set_seq. lia. }
  split.
  - intros Hr. destruct (Hcomp Hr) as [_ Heq]. split; [done|].
    intros i Hi. apply elem_of_union, Hmem. lia.
  - intros Hr. split; [by apply Hcanc|].
    intros i Hi.
    assert (i ∉ resolvedIndices t ∪ skippedIndices t) by (rewrite Hmem; lia).
    set_solver.
Qed.

Lemma promise_tells_progress_witness :
  volley <> [] /\
  let t := fst (run "Charge" longbow [Click NextBtn hostOk; Click CancelBtn hostOk]
                  (newTracker volley, quiver 5)) in
  result t = Some cancelled /\ (currentIndex t < length volley)%nat.
Proof.
  split; [discriminate|]. split; [reflexivity|].
  apply (promise_tells_progress "Charge" longbow volley (quiver 5)
           [Click NextBtn hostOk; Click CancelBtn hostOk]); [discriminate|].
  reflexivity.
Defined.

(** X3. Once the dialog is gone nothing moves any more: no command changes
    the world, the plan, the index, the two sets, the completion flag or the
    value of the promise. In particular a completed tracker whose dialog was
    closed before the promise was resolved never resolves it. *)
Theorem closed_dialog_is_final
    (chargeLabel : string) (action : Action)
    (st : Tracker * World) (cs : list Command) :
  dialog (fst st) = None ->
  let st' := run chargeLabel action cs st in
  snd st' = snd st /\
  sameCore (fst st) (fst st') /\
  _completed (fst st') = _completed (fst st) /\
  result (fst st') = result (fst st) /\
  dialog (fst st') = None.
Proof.
  revert st. induction cs as [|c cs IH]; intros st Hd; [done|].
  simpl.
  assert (Hstep : snd (step chargeLabel action c st) = snd st /\
                  sameCore (fst st) (fst (step chargeLabel action c st)) /\
                  _completed (fst (step chargeLabel action c st))
                  = _completed (fst st) /\
                  result (fst (step chargeLabel action c st)) = result (fst st) /\
                  dialog (fst (step chargeLabel action c st)) = None).
  { destruct c as [b env| |]; simpl.
    - unfold rendered. rewrite Hd. done.
    - rewrite Hd. done.
    - unfold onTimeout. destruct (timers (fst st)); [done|]. simpl.
      rewrite Hd. done. }
  destruct Hstep as (Hw & (Ha & Hi & Hr & Hs) & Hc & Hres & Hd').
  destruct (IH _ Hd') as (Hw2 & (Ha2 & Hi2 & Hr2 & Hs2) & Hc2 & Hres2 & Hd2).
  split; [congruence|]. split; [|split; [congruence|split; [congruence|done]]].
  unfold sameCore. repeat split; congruence.
Qed.

Lemma closed_dialog_is_final_witness :
  let st := run "Charge" longbow [Click SkipBtn hostOk; Click SkipBtn hostOk; DialogX]
              (newTracker volley, quiver 5) in
  dialog (fst st) = None /\
  _completed (fst st) = true /\
  result (fst (run "Charge" longbow [Timeout; Click CloseBtn hostOk] st)) = None.
Proof.
  split; [reflexivity|]. split; [reflexivity|].
  destruct (closed_dialog_is_final "Charge" longbow
              (run "Charge" longbow
                 [Click SkipBtn hostOk; Click SkipBtn hostOk; DialogX]
                 (newTracker volley, quiver 5))
              [Timeout; Click CloseBtn hostOk] eq_refl) as (_ & _ & _ & -> & _).
  reflexivity.
Defined.

(** ** The rendered list and buttons *)

(** X4. The list the dialog shows agrees with the bookkeeping: a row carries
    the crosshair exactly when it is the row of [currentIndex] and the tracker
    is not completed, so there is one such row while running and none after;
    every row above it is ticked or marked skipped, according to the set its
    index is in; every row below it is pending. *)
Theorem rows_follow_bookkeeping
    (chargeLabel : string) (action : Action)
    (atks : list Attack) (w0 : World) (cs : list Command) :
  atks <> [] ->
  let t := fst (run chargeLabel action cs (newTracker atks, w0)) in
  length (rows t) = length atks /\
  forall i : nat,
    (rows t !! i = Some seq_current <->
     i = currentIndex t /\ _completed t = false) /\
    ((i < currentIndex t)%nat ->
     rows t !! i = Some (if bool_decide (i ∈ skippedIndices t)
                         then seq_skipped else seq_resolved)) /\
    ((currentIndex t < i < length atks)%nat -> rows t !! i = Some seq_pending).
Proof.
  intros Hne t.
  pose proof (run_trackerInv chargeLabel action cs (newTracker atks, w0)
                (trackerInv_new atks Hne)) as Hinv. fold t in Hinv.
  pose proof (run_allAttacks chargeLabel action cs (newTracker atks, w0)) as Ha.
  fold t in Ha. simpl in Ha.
  pose proof (run_bookkeeping chargeLabel action cs (newTracker atks, w0)
                (bookkeeping_new atks)) as Hbk. fold t in Hbk.
  pose proof (bookkeeping_fresh t Hbk) as [Hfr Hfs].
  destruct Hbk as [Hd Hu].
  destruct Hinv as (_ & _ & Hle & Hrun & _). rewrite Ha in *.
  assert (Hmem : forall i, i ∈ resolvedIndices t ∪ skippedIndices t <->
                           (i < currentIndex t)%nat).
  { intros i. rewrite Hu, elem_of_set_seq. lia. }
  assert (Hrow : forall i, (i < length atks)%nat ->
                   rows t !! i = Some (rowStatus t i)).
  { intros i Hi. unfold rows. rewrite list_lookup_imap, Ha.
    destruct (atks !! i) eqn:E; [done|].
    apply lookup_ge_None in E. lia. }
  split; [unfold rows; by rewrite length_imap, Ha|].
  intros i. split; [split|split].
  - intros Hcur.
    assert (Hi : (i < length atks)%nat).
    { apply lookup_lt_Some in Hcur. unfold rows in Hcur.
      by rewrite length_imap, Ha in Hcur. }
    rewrite (Hrow i Hi) in Hcur. injection Hcur as Hcur.
    unfold rowStatus in Hcur. cbv zeta in Hcur.
    repeat case_bool_decide; simpl in Hcur; try done.
    destruct (_completed t); done.
  - intros [-> Hc]. rewrite (Hrow _ (Hrun Hc)). unfold rowStatus. cbv zeta.
    rewrite !bool_decide_eq_false_2, bool_decide_eq_true_2, Hc by done. done.
  - intros Hi. rewrite (Hrow i) by lia. unfold rowStatus. cbv zeta.
    case_bool_decide as Hs; [done|].
    rewrite bool_decide_eq_true_2; [done|].
    apply Hmem in Hi. set_solver.
  - intros Hi.
    assert (i ∉ resolvedIndices t ∪ skippedIndices t) by (rewrite Hmem; lia).
    rewrite (Hrow i) by lia. unfold rowStatus. cbv zeta.
    rewrite !bool_decide_eq_false_2 by (set_solver || lia). done.
Qed.

Lemma rows_follow_bookkeeping_witness :
  volley <> [] /\
  rows (fst (run "Charge" longbow [Click SkipBtn hostOk]
               (newTracker volley, quiver 5)))
  = [seq_skipped; seq_current].
Proof.
  split; [discriminate|].
  pose proof (rows_follow_bookkeeping "Charge" longbow volley (quiver 5)
                [Click SkipBtn hostOk] ltac:(discriminate)) as [Hlen H].
  cbv zeta in H.
  destruct (rows (fst (run "Charge" longbow [Click SkipBtn hostOk]
                         (newTracker volley, quiver 5))))
    as [|r0 [|r1 [|r2 l]]] eqn:E; try discriminate Hlen.
  pose proof (proj1 (proj2 (H 0%nat))) as H0.
  pose proof (proj2 (proj1 (H 1%nat))) as H1.
  specialize (H0 ltac:(vm_compute; lia)). specialize (H1 ltac:(by vm_compute)).
  simpl in H0, H1. injection H0 as ->. injection H1 as ->. reflexivity.
Defined.

(** X5. The progress label stays within the plan, and the next button reads
    "Roll Final Attack" exactly when the click it invites, or a skip in its
    place, completes the sequence. *)
Theorem final_label_announces_completion
    (chargeLabel : string) (action : Action)
    (atks : list Attack) (w0 : World) (cs : list Command) :
  atks <> [] ->
  let t := fst (run chargeLabel action cs (newTracker atks, w0)) in
  (1 <= nextAttack t <= length atks)%nat /\
  (rendered NextBtn t = true ->
   (btnLabel t = "Roll Final Attack" <-> _completed (markResolved t) = true) /\
   (btnLabel t = "Roll Final Attack" <->
    _completed (_skipCurrentAttack t) = true) /\
   (btnLabel t = "Roll Final Attack" <->
    (currentIndex t + 1)%nat = length atks)).
Proof.
  intros Hne t.
  pose proof (run_trackerInv chargeLabel action cs (newTracker atks, w0)
                (trackerInv_new atks Hne)) as Hinv. fold t in Hinv.
  pose proof (run_allAttacks chargeLabel action cs (newTracker atks, w0)) as Ha.
  fold t in Ha. simpl in Ha.
  split.
  - destruct Hinv as (_ & _ & Hle & Hrun & _). rewrite Ha in *.
    unfold nextAttack. rewrite Ha. destruct (_completed t).
    + destruct atks; [done|simpl; lia].
    + specialize (Hrun eq_refl). lia.
  - intros Hb.
    destruct (rendered_running t NextBtn Hinv Hb) as (Hc & _ & Hlt & _); [done|].
    rewrite Ha in Hlt.
    assert (Hlabel : btnLabel t = "Roll Final Attack"
                     <-> (currentIndex t + 1)%nat = length atks).
    { unfold btnLabel, isLast. rewrite Ha.
      destruct (Z.eqb_spec (Z.of_nat (currentIndex t))
                  (Z.of_nat (length atks) - 1)); split; try done; lia. }
    assert (Hmark : forall t1,
              _completed t1 = (if (length (allAttacks t) <=? currentIndex t + 1)%nat
                               then true else _completed t) ->
              _completed t1 = true <-> (currentIndex t + 1)%nat = length atks).
    { intros t1 ->. rewrite Ha, Hc.
      destruct (Nat.leb_spec (length atks) (currentIndex t + 1));
        split; try done; lia. }
    split; [|split; [|done]].
    + rewrite Hlabel. symmetry. by apply Hmark.
    + rewrite Hlabel. symmetry. apply Hmark. unfold _skipCurrentAttack, _updateDialog.
      by destruct (dialog (markSkipped t)).
Qed.

Lemma final_label_announces_completion_witness :
  volley <> [] /\
  let t := fst (run "Charge" longbow [Click NextBtn hostOk]
                  (newTracker volley, quiver 5)) in
  rendered NextBtn t = true /\
  btnLabel t = "Roll Final Attack" /\
  _completed (_skipCurrentAttack t) = true.
Proof.
  split; [discriminate|]. split; [reflexivity|]. split; [reflexivity|].
  apply (proj2 (final_label_announces_completion "Charge" longbow volley
                  (quiver 5) [Click NextBtn hostOk] ltac:(discriminate)));
    reflexivity.
Defined.

(** ** Resources, whatever the host does *)

Lemma usesAmmo_elem id (refs : list Attack) atk :
  atk ∈ refs -> hasAmmo atk = true -> ammo atk = Some id -> 0 < usesAmmo id refs.
Proof.
  intros Hin Hhas Hammo. induction refs as [|a refs IH]; [by apply elem_of_nil in Hin|].
  simpl. pose proof (usesAmmo_nonneg id refs).
  apply elem_of_cons in Hin as [<-|Hin].
  - rewrite Hhas, Hammo, bool_decide_eq_true_2 by done. simpl. lia.
  - specialize (IH Hin). destruct (hasAmmo a && bool_decide (ammo a = Some id)); lia.
Qed.

Section Spending.

Variable chargeLabel : string.
Variable action : Action.
Variable refs : list Attack.

#[local] Instance spends_preorder : PreOrder (spends action refs).
Proof.
  split.
  - intros w. unfold spends. repeat split; try lia.
    intros id. destruct (items w !! id); [|done]. unfold itemKept.
    repeat split; try done; lia.
  - intros w1 w2 w3 (Hi1 & Hc1 & He1 & Hs1 & Hn1) (Hi2 & Hc2 & He2 & Hs2 & Hn2).
    unfold spends. split; [|split; [lia|split; [|split; [lia|]]]].
    + intros id. specialize (Hi1 id). specialize (Hi2 id).
      destruct (items w1 !! id) as [a|], (items w2 !! id) as [b|],
        (items w3 !! id) as [c|]; try done.
      destruct Hi1 as (Ha1 & Hk1 & Hq1), Hi2 as (Ha2 & Hk2 & Hq2).
      unfold itemKept. split; [congruence|]. split.
      * intros H. rewrite <- (Hk1 H). apply Hk2.
        destruct H as [H|H]; [left; congruence|by right].
      * intros H. specialize (Hq1 H). specialize (Hq2 H). lia.
    + intros H. rewrite (He2 H). by apply He1.
    + intros H. rewrite (Hn2 H). by apply Hn1.
Qed.

Lemma spends_quiet (f : World -> World) :
  (forall w, items (f w) = items w) -> (forall w, charges (f w) = charges w) ->
  (forall w, uses_self_value (f w) = uses_self_value w) ->
  frame (spends action refs) (modify f).
Proof.
  intros Hi Hc Hs. apply frame_modify. intros w.
  assert (H : spends action refs w w) by reflexivity.
  unfold spends in *. by rewrite Hi, Hc, Hs.
Qed.

Lemma spends_subtract env atk :
  atk ∈ refs -> hasAmmo atk = true ->
  frame (spends action refs)
    (_subtractSingleAttackAmmo env action atk (ammo_cost action)).
Proof.
  intros Hin Hhas w. unfold _subtractSingleAttackAmmo, bind, get, host.
  destruct (negb (hasAttack action)); [reflexivity|].
  destruct (negb (truthy (ammo_type action))); [reflexivity|].
  destruct (ammo atk) as [id|] eqn:Hammo; [|reflexivity]. simpl.
  destruct (items w !! id) as [ammoItem|] eqn:Eit; [|reflexivity].
  destruct (abundant ammoItem) eqn:Hab; [reflexivity|].
  case_decide; [reflexivity|]. simpl.
  unfold spends. simpl. split; [|repeat split; lia].
  intros id'. destruct (decide (id = id')) as [<-|Hne].
  - rewrite lookup_insert_eq, Eit. unfold itemKept. simpl.
    split; [done|]. split; [|lia].
    intros [Hx|Hx]; [congruence|].
    apply bool_decide_eq_false in Hx.
    pose proof (usesAmmo_elem id refs atk Hin Hhas Hammo). lia.
  - rewrite lookup_insert_ne by done.
    destruct (items w !! id'); [|done]. unfold itemKept.
    repeat split; try done; lia.
Qed.

Ltac f_leaf :=
  first [apply frame_ret | apply frame_throw | apply frame_get | apply frame_host];
  apply _.
Ltac f_bind := apply frame_bind; [apply _ | | intros ?].
Ltac f_when := apply frame_when; [apply _ | ].

Lemma spends_commitAndPost env idx atk :
  atk ∈ refs -> frame (spends action refs) (commitAndPost action env idx atk).
Proof.
  intros Hin. unfold commitAndPost. cbv zeta.
  f_bind.
  { destruct (hasAmmo atk) eqn:Hhas.
    - f_when. f_bind; [by apply spends_quiet|]. by apply spends_subtract.
    - rewrite andb_false_r. f_leaf. }
  f_bind.
  { destruct (chargeDue atk) as [c|] eqn:Hdue; [|f_leaf].
    assert (0 < c).
    { unfold chargeDue in Hdue. destruct (chargeCost atk) as [| |c0]; try done.
      destruct (Z.ltb_spec 0 c0); by simplify_eq. }
    f_bind; [by apply spends_quiet|].
    f_bind; [by apply spends_quiet|].
    f_bind; [f_leaf|].
    apply frame_modify. intros w. unfold spends. simpl.
    split; [|split; [lia|split; [|split; [lia|done]]]].
    - intros id. destruct (items w !! id); [|done]. unfold itemKept.
      repeat split; try done; lia.
    - intros Hall. rewrite Forall_forall in Hall. specialize (Hall atk Hin).
      congruence. }
  f_bind.
  { destruct (isSelfCharged action) eqn:Hself.
    - f_when. f_bind; [f_leaf|].
      apply frame_modify. intros w. unfold spends. simpl.
      split; [|split; [lia|split; [done|split; [lia|intros; congruence]]]].
      intros id. destruct (items w !! id); [|done]. unfold itemKept.
      repeat split; try done; lia.
    - rewrite andb_false_r. f_leaf. }
  f_bind; [f_leaf|].
  f_bind; [by apply spends_quiet|]. f_leaf.
Qed.

Lemma spends_resolve env t :
  allAttacks t = refs ->
  frame (spends action refs) (rollCurrentAttack chargeLabel action env t).
Proof.
  intros Ha. unfold rollCurrentAttack. cbv zeta.
  f_bind; [by apply spends_quiet|].
  f_bind; [f_leaf|].
  destruct (allAttacks t !! currentIndex t) as [atk|] eqn:E; [|f_leaf].
  assert (Hin : atk ∈ refs) by (rewrite <- Ha; by eapply list_elem_of_lookup_2).
  f_bind; [f_leaf|].
  f_bind; [by apply spends_quiet|].
  f_bind; [by apply spends_quiet|].
  f_bind; [f_leaf|].
  f_bind.
  { destruct (hasAmmo atk); [|f_leaf]. destruct (ammo atk); f_leaf. }
  f_bind.
  { f_when. f_bind; [f_leaf|]. f_when. by apply spends_commitAndPost. }
  by apply spends_quiet.
Qed.

Lemma spends_run atks w0 cs :
  atks = refs ->
  spends action refs w0 (snd (run chargeLabel action cs (newTracker atks, w0))).
Proof.
  intros ->.
  enough (H : allAttacks (fst (run chargeLabel action cs (newTracker refs, w0)))
              = refs /\
              spends action refs w0
                (snd (run chargeLabel action cs (newTracker refs, w0))))
    by apply H.
  apply (run_invariant chargeLabel action (fun _ => True)
           (fun st => allAttacks (fst st) = refs /\
                      spends action refs w0 (snd st))).
  - intros env st _ [Ha Hs]. split.
    + destruct (onNext_tracker chargeLabel action env st) as [->| ->]; [done|].
      by destruct (updateDialog_core (markResolved (fst st))) as (-> & _).
    + pose proof (spends_resolve env (fst st) Ha (snd st)) as H.
      rewrite onNext_roll.
      destruct (rollCurrentAttack chargeLabel action env (fst st) (snd st))
        as [w [e|u]]; simpl in *; (etransitivity; [exact Hs|]); exact H.
  - intros st [Ha Hs]. split; [|done]. simpl. unfold _skipCurrentAttack.
    by destruct (updateDialog_core (markSkipped (fst st))) as (-> & _).
  - intros st t' [Ha Hs] (Hc & _). simpl. split; [congruence|done].
  - apply hostIs_any.
  - split; [done|reflexivity].
Qed.

End Spending.

(** X6. No run of the tracker, whatever the host answers or throws, adds or
    removes an ammunition item or changes an abundant flag; an abundant item
    and an item that no attack of the plan draws on keep their quantity. *)
Theorem run_touches_only_drawn_items
    (chargeLabel : string) (action : Action)
    (atks : list Attack) (w0 : World) (cs : list Command) (id : string) :
  let w := snd (run chargeLabel action cs (newTracker atks, w0)) in
  (items w !! id = None <-> items w0 !! id = None) /\
  forall ammoItem, items w0 !! id = Some ammoItem ->
    exists ammoItem', items w !! id = Some ammoItem' /\
      abundant ammoItem' = abundant ammoItem /\
      (abundant ammoItem = true \/ usesAmmo id atks = 0 -> ammoItem' = ammoItem).
Proof.
  intros w.
  destruct (spends_run chargeLabel action atks atks w0 cs eq_refl) as [Hi _].
  fold w in Hi. specialize (Hi id).
  destruct (items w0 !! id) as [it|], (items w !! id) as [it'|]; try done.
  split; [done|]. intros ? [= <-]. exists it'. split; [done|].
  destruct Hi as (Hab & Hkeep & _). split; [done|].
  intros [H|H]; apply Hkeep; [by left|right].
  apply bool_decide_eq_false. lia.
Qed.

Lemma run_touches_only_drawn_items_witness :
  items (quiver 5) !! "arrows" = Some {| quantity := Some 5; abundant := false |} /\
  exists ammoItem',
    items (snd (run "Charge" longbow [Click NextBtn hostFailsToPost]
                  (newTracker volley, quiver 5))) !! "arrows" = Some ammoItem' /\
    abundant ammoItem' = false.
Proof.
  split; [reflexivity|].
  destruct (proj2 (run_touches_only_drawn_items "Charge" longbow volley (quiver 5)
                     [Click NextBtn hostFailsToPost] "arrows")
              {| quantity := Some 5; abundant := false |} eq_refl)
    as (it' & H1 & H2 & _).
  exists it'. split; [exact H1|exact H2].
Defined.

Lemma run_only_consumes_aux chargeLabel action atks w0 cs :
  charges (snd (run chargeLabel action cs (newTracker atks, w0))) <= charges w0.
Proof. by destruct (spends_run chargeLabel action atks atks w0 cs eq_refl) as (_ & ? & _). Qed.

(** X7. Resources are only ever consumed: whatever the host answers or
    throws, after any run no charges and no self-charged uses have been gained,
    and with an ammunition cost that is not negative no quantity has grown. *)
Theorem run_only_consumes
    (chargeLabel : string) (action : Action)
    (atks : list Attack) (w0 : World) (cs : list Command) :
  let w := snd (run chargeLabel action cs (newTracker atks, w0)) in
  charges w <= charges w0 /\
  uses_self_value w <= uses_self_value w0 /\
  (isSelfCharged action = false -> uses_self_value w = uses_self_value w0) /\
  (0 <= ammo_cost action ->
   forall id ammoItem ammoItem',
     items w0 !! id = Some ammoItem -> items w !! id = Some ammoItem' ->
     default 0 (quantity ammoItem') <= default 0 (quantity ammoItem)).
Proof.
  intros w.
  destruct (spends_run chargeLabel action atks atks w0 cs eq_refl)
    as (Hi & Hc & _ & Hs & Hn).
  fold w in Hi, Hc, Hs, Hn. split; [done|]. split; [done|]. split; [done|].
  intros Hcost id it it' H0 H1. specialize (Hi id). rewrite H0, H1 in Hi.
  destruct Hi as (_ & _ & Hq). by apply Hq.
Qed.

Lemma run_only_consumes_witness :
  0 <= ammo_cost longbow /\
  forall ammoItem',
    items (snd (run "Charge" longbow
                  [Click NextBtn hostFailsToPost; Click NextBtn hostOk]
                  (newTracker volley, quiver 5))) !! "arrows" = Some ammoItem' ->
    default 0 (quantity ammoItem') <= 5.
Proof.
  split; [simpl; lia|]. intros it' H.
  apply (proj2 (proj2 (proj2 (run_only_consumes "Charge" longbow volley (quiver 5)
           [Click NextBtn hostFailsToPost; Click NextBtn hostOk])))
           ltac:(simpl; lia) "arrows" {| quantity := Some 5; abundant := false |}
           it' eq_refl H).
Defined.

(** The planner hands on attacks of its input: the same records when the
    charge filter does not apply. *)
Lemma planAttacks_unfiltered action rollData C atks l :
  negb (rd_chargeCost rollData =? 0) && uses_perAttack action = false ->
  planAttacks action rollData C atks = inr l ->
  forall a, a ∈ l -> a ∈ atks.
Proof.
  intros Hoff. unfold planAttacks, filterAmmo, filterCharges. rewrite Hoff.
  destruct (truthy (ammo_type action) && (0 <? ammo_cost action)).
  - destruct (length _ =? 0)%nat; [done|]. intros [= <-] a Ha.
    by apply list_elem_of_filter in Ha as [_ ?].
  - by intros [= <-].
Qed.

(** X8. A charge cost that is not spent per attack is never spent by the
    tracker: when the charge filter does not apply and the host's attacks carry
    no charge cost of their own, no run, whatever the host answers or throws,
    changes [item.charges]. *)
Theorem flat_charge_cost_is_never_spent
    (chargeLabel : string) (action : Action) (rollData : RollData)
    (atks planned : list Attack) (w0 : World) (cs : list Command) :
  negb (rd_chargeCost rollData =? 0) && uses_perAttack action = false ->
  Forall (fun atk => chargeDue atk = None) atks ->
  planAttacks action rollData (charges w0) atks = inr planned ->
  charges (snd (run chargeLabel action cs (newTracker planned, w0))) = charges w0.
Proof.
  intros Hoff Hhost Hplan.
  destruct (spends_run chargeLabel action planned planned w0 cs eq_refl)
    as (_ & _ & He & _).
  apply He. apply Forall_forall. intros a Ha.
  rewrite Forall_forall in Hhost. apply Hhost.
  by eapply planAttacks_unfiltered.
Qed.

Lemma flat_charge_cost_is_never_spent_witness :
  negb (rd_chargeCost (sampleRollData 6 (Some 6) 1) =? 0)
    && uses_perAttack greatsword = false /\
  Forall (fun atk => chargeDue atk = None) blows /\
  planAttacks greatsword (sampleRollData 6 (Some 6) 1) (charges (charged 3)) blows
  = inr blows /\
  charges (snd (run "Charge" greatsword [Click NextBtn hostOk; Click NextBtn hostOk]
                  (newTracker blows, charged 3))) = 3.
Proof.
  assert (H : Forall (fun atk => chargeDue atk = None) blows)
    by (repeat constructor).
  split; [reflexivity|]. split; [exact H|]. split; [reflexivity|].
  exact (flat_charge_cost_is_never_spent "Charge" greatsword
           (sampleRollData 6 (Some 6) 1) blows blows (charged 3)
           [Click NextBtn hostOk; Click NextBtn hostOk] eq_refl H eq_refl).
Defined.

(** ** Resources when no host call throws *)

Section Accounts.

Variable chargeLabel : string.
Variable action : Action.

Lemma commitWorld_charges idx atk w :
  charges (commitWorld action idx atk w)
  = match chargeDue atk with Some c => charges w - c | None => charges w end.
Proof.
  unfold commitWorld.
  destruct (negb (ammo_cost action =? 0) && hasAmmo atk), (chargeDue atk),
    ((idx =? 0)%nat && isSelfCharged action); reflexivity.
Qed.

Lemma commitWorld_self idx atk w :
  uses_self_value (commitWorld action idx atk w)
  = if (idx =? 0)%nat && isSelfCharged action
    then uses_self_value w - 1 else uses_self_value w.
Proof.
  unfold commitWorld.
  destruct (negb (ammo_cost action =? 0) && hasAmmo atk), (chargeDue atk),
    ((idx =? 0)%nat && isSelfCharged action); reflexivity.
Qed.

Lemma charges_set_shared s w : charges (set_shared s w) = charges w.
Proof. reflexivity. Qed.

Lemma self_set_shared s w : uses_self_value (set_shared s w) = uses_self_value w.
Proof. reflexivity. Qed.

Lemma rollWorld_charges env idx atk w :
  charges (rollWorld chargeLabel action env idx atk w) = charges w.
Proof. reflexivity. Qed.

Lemma rollWorld_self env idx atk w :
  uses_self_value (rollWorld chargeLabel action env idx atk w) = uses_self_value w.
Proof. reflexivity. Qed.

(** Charges and self-charged uses across a click on the next button when no
    host call throws. *)
Lemma onNext_ok_accounts env st :
  fault env = None ->
  let t := fst st in
  let w := snd st in
  let st' := onNext chargeLabel action env st in
  (fst st' = t /\ charges (snd st') = charges w /\
   uses_self_value (snd st') = uses_self_value w /\
   forall i, count (isPost i) (trace (snd st')) = count (isPost i) (trace w)) \/
  (exists atk, allAttacks t !! currentIndex t = Some atk /\
   fst st' = _updateDialog (markResolved t) /\
   let committed := hookResult env && negb (reject env) in
   charges (snd st')
   = (if committed
      then match chargeDue atk with Some c => charges w - c | None => charges w end
      else charges w) /\
   uses_self_value (snd st')
   = (if committed && ((currentIndex t =? 0)%nat && isSelfCharged action)
      then uses_self_value w - 1 else uses_self_value w) /\
   forall i, count (isPost i) (trace (snd st'))
             = (count (isPost i) (trace w)
                + if committed && bool_decide (i = currentIndex t)
                  then 1 else 0)%nat).
Proof.
  intros H t w st'. subst st'. rewrite onNext_roll. fold t w.
  rewrite (resolve_ok chargeLabel action env t w H).
  destruct (allAttacks t !! currentIndex t) as [atk|] eqn:E.
  - destruct (hasAmmo atk && bool_decide (ammo atk = None)).
    + left. simpl. repeat split. intros i. rewrite !count_app. simpl. lia.
    + right. exists atk. split; [done|]. split; [done|]. cbv zeta.
      cbn [fst snd]. unfold resolvedWorld. cbv zeta.
      rewrite charges_set_shared, self_set_shared, trace_set_shared.
      destruct (rollWorld_trace chargeLabel action env (currentIndex t) atk w)
        as [ctx Htr].
      destruct (hookResult env && negb (reject env)); cbn [andb].
      * rewrite commitWorld_charges, commitWorld_self, rollWorld_charges,
          rollWorld_self. split; [done|]. split; [done|].
        intros i. rewrite commitWorld_trace, Htr.
        rewrite !count_app, count_post_commitEvents. simpl.
        case_bool_decide; lia.
      * rewrite rollWorld_charges, rollWorld_self. split; [done|]. split; [done|].
        intros i. rewrite Htr, count_app. simpl. lia.
  - left. simpl. repeat split. intros i. rewrite count_app. simpl. lia.
Qed.

End Accounts.

Lemma filterAmmo_length action atks atks' :
  filterAmmo action atks = inr atks' -> (length atks' <= length atks)%nat.
Proof.
  unfold filterAmmo. intros H.
  repeat case_match; simplify_eq; [apply length_filter|done].
Qed.

(** What the charge filter leaves when its products are exact: every planned
    attack carries the cost, and the pool covers them all. *)
Lemma plan_charge_costs action rollData C atks planned :
  0 < rd_chargeCost rollData -> uses_perAttack action = true ->
  Z.of_nat (length atks) * rd_chargeCost rollData <= 2 ^ 53 ->
  planAttacks action rollData C atks = inr planned ->
  Forall (fun atk => chargeDue atk = Some (rd_chargeCost rollData)) planned /\
  rd_chargeCost rollData * Z.of_nat (length planned) <= C.
Proof.
  intros Hc Hper Hsmall. unfold planAttacks.
  destruct (filterAmmo action atks) as [e|atks'] eqn:Eammo; [done|].
  apply filterAmmo_length in Eammo.
  assert (Hex : exactProducts (rd_chargeCost rollData) (length atks')).
  { apply small_products_exact; [lia|].
    assert (Z.of_nat (length atks') * rd_chargeCost rollData
            <= Z.of_nat (length atks) * rd_chargeCost rollData)
      by (apply Z.mul_le_mono_nonneg_r; lia).
    lia. }
  unfold filterCharges. rewrite Hper.
  destruct (Z.eqb_spec (rd_chargeCost rollData) 0) as [?|_]; [lia|]. simpl.
  rewrite (assignChargeCost_exact C (rd_chargeCost rollData) atks' Hex).
  rewrite (assign_filter_prefix C (rd_chargeCost rollData) atks' 0 Hc).
  destruct (length _ =? 0)%nat eqn:El; [done|]. intros [= <-].
  apply Nat.eqb_neq in El. rewrite length_fmap in *.
  split.
  - apply Forall_fmap, Forall_forall. intros a _. unfold chargeDue. simpl.
    destruct (Z.ltb_spec 0 (rd_chargeCost rollData)); [done|lia].
  - rewrite length_take in *.
    set (q := C / rd_chargeCost rollData - Z.of_nat 0) in *.
    assert (1 <= q) by lia.
    assert (Z.of_nat (Z.to_nat q `min` length atks') <= q) by lia.
    assert (rd_chargeCost rollData * q <= C).
    { subst q. replace (C / rd_chargeCost rollData - Z.of_nat 0)
        with (C / rd_chargeCost rollData) by lia.
      apply Z.mul_div_le. lia. }
    nia.
Qed.

(** X9. After planning with the per-attack charge filter the pool is never
    overdrawn, as long as the products of the filter are exact, which they are
    when the cost times the number of generated attacks is at most [2 ^ 53]:
    when no host call throws, [item.charges] stays between zero and its value
    at planning throughout any run over the planned sequence. *)
Theorem planned_charges_are_never_overdrawn
    (chargeLabel : string) (action : Action) (rollData : RollData)
    (atks planned : list Attack) (w0 : World) (cs : list Command) :
  0 < rd_chargeCost rollData ->
  uses_perAttack action = true ->
  Z.of_nat (length atks) * rd_chargeCost rollData <= 2 ^ 53 ->
  planAttacks action rollData (charges w0) atks = inr planned ->
  Forall faultFree cs ->
  let w := snd (run chargeLabel action cs (newTracker planned, w0)) in
  0 <= charges w <= charges w0.
Proof.
  intros Hc Hper Hsmall Hplan Hcs w.
  destruct (plan_charge_costs action rollData (charges w0) atks planned
              Hc Hper Hsmall Hplan) as [Hall Hcover].
  split; [|apply (run_only_consumes_aux chargeLabel action planned w0 cs)].
  set (c := rd_chargeCost rollData) in *.
  enough (H : allAttacks (fst (run chargeLabel action cs (newTracker planned, w0)))
              = planned /\
              c * Z.of_nat (length planned -
                            currentIndex (fst (run chargeLabel action cs
                                                 (newTracker planned, w0))))
              <= charges w) by (destruct H; nia).
  subst w.
  apply (run_invariant chargeLabel action (fun env => fault env = None)
           (fun st => allAttacks (fst st) = planned /\
                      c * Z.of_nat (length planned - currentIndex (fst st))
                      <= charges (snd st))).
  - intros env st Hf [Ha Hinv].
    destruct (onNext_ok_accounts chargeLabel action env st Hf)
      as [(-> & -> & _)|(atk & Hatk & -> & Hch & _)]; [done|].
    destruct (updateDialog_core (markResolved (fst st))) as (-> & -> & _).
    simpl. split; [done|]. cbv zeta in Hch. rewrite Hch.
    rewrite Ha in Hatk. pose proof (lookup_lt_Some _ _ _ Hatk) as Hlt.
    rewrite Forall_forall in Hall.
    rewrite (Hall atk) by (by eapply list_elem_of_lookup_2).
    destruct (hookResult env && negb (reject env)); nia.
  - intros st [Ha Hinv]. simpl. unfold _skipCurrentAttack.
    destruct (updateDialog_core (markSkipped (fst st))) as (-> & -> & _).
    simpl. split; [done|]. nia.
  - intros st t' [Ha Hinv] (Ha' & Hi' & _). simpl. rewrite Ha', Hi'. done.
  - exact Hcs.
  - simpl. split; [done|]. rewrite Nat.sub_0_r. done.
Qed.

Lemma planned_charges_are_never_overdrawn_witness :
  0 < rd_chargeCost (sampleRollData 6 (Some 6) 1) /\
  uses_perAttack wand = true /\
  Z.of_nat 3 * 1 <= 2 ^ 53 /\
  Forall faultFree [Click NextBtn hostOk; Click NextBtn hostOk] /\
  0 <= charges (snd (run "Charge" wand [Click NextBtn hostOk; Click NextBtn hostOk]
                       (newTracker
                          [with_chargeCost (CostNum 1) (strike "Attack" "");
                           with_chargeCost (CostNum 1) (strike "Iterative 1" "-5")],
                        charged 2))) <= 2.
Proof.
  assert (Hff : Forall faultFree [Click NextBtn hostOk; Click NextBtn hostOk])
    by (repeat constructor).
  assert (Hsmall : Z.of_nat 3 * 1 <= 2 ^ 53) by (vm_compute; discriminate).
  split; [reflexivity|]. split; [reflexivity|]. split; [exact Hsmall|].
  split; [exact Hff|].
  exact (planned_charges_are_never_overdrawn "Charge" wand
           (sampleRollData 6 (Some 6) 1)
           [strike "Attack" ""; strike "Iterative 1" "-5";
            strike "Iterative 2" "-10"]
           _ (charged 2) [Click NextBtn hostOk; Click NextBtn hostOk]
           eq_refl eq_refl Hsmall eq_refl Hff).
Defined.

(** Beyond the exact range the rounded product lets one attack more through
    than the pool pays for: with a cost of [2 ^ 53 - 1] and a pool one short
    of three times the cost all three attacks are planned, and the third
    commit takes the pool to -1. *)
Example rounded_plan_overdraws_the_pool :
  let c := 2 ^ 53 - 1 in
  let atks := [strike "Attack" ""; strike "Iterative 1" "-5";
               strike "Iterative 2" "-10"] in
  let planned := with_chargeCost (CostNum c) <$> atks in
  planAttacks wand (sampleRollData 6 (Some 6) c) (3 * c - 1) atks = inr planned /\
  charges (snd (run "Charge" wand
                  [Click NextBtn hostOk; Click NextBtn hostOk; Click NextBtn hostOk]
                  (newTracker planned, charged (3 * c - 1)))) = -1.
Proof. vm_compute. done. Qed.



(** ** The planner as a whole *)

Lemma priced_is_subsequence (P : Attack -> Prop) `{!forall a, Decision (P a)}
    (f : nat -> Attack -> Attack) (l : list Attack) :
  (forall i a, with_chargeCost CostUndefined (f i a)
               = with_chargeCost CostUndefined a) ->
  (with_chargeCost CostUndefined <$> filter P (imap f l))
    `sublist_of` (with_chargeCost CostUndefined <$> l).
Proof.
  intros Hf.
  assert (E : with_chargeCost CostUndefined <$> l
              = with_chargeCost CostUndefined <$> imap f l).
  { rewrite fmap_imap. revert f Hf.
    induction l as [|a l IH]; intros f Hf; [done|].
    rewrite imap_cons, fmap_cons. f_equal; [symmetry; apply Hf|].
    apply IH. intros i b. apply Hf. }
  rewrite E. apply fmap_sublist, sublist_filter.
Qed.

Lemma planAttacks_cases
    (action : Action) (rollData : RollData) (C : Z) (atks : list Attack) :
  atks <> [] ->
  let ammoOn := truthy (ammo_type action) && (0 <? ammo_cost action) in
  let chargeOn := negb (rd_chargeCost rollData =? 0) && uses_perAttack action in
  match planAttacks action rollData C atks with
  | inr planned =>
    planned <> [] /\
    (length planned <= length atks)%nat /\
    (with_chargeCost CostUndefined <$> planned)
      `sublist_of` (with_chargeCost CostUndefined <$> atks) /\
    (ammoOn = true -> Forall (fun a => hasAmmo a = true) planned) /\
    (chargeOn = true ->
       Forall (fun a => chargeCost a = CostNum (rd_chargeCost rollData)) planned) /\
    (ammoOn = false -> chargeOn = false -> planned = atks)
  | inl INSUFFICIENT_AMMO =>
    ammoOn = true /\ Forall (fun a => hasAmmo a = false) atks
  | inl INSUFFICIENT_CHARGES =>
    chargeOn = true /\ C < rd_chargeCost rollData
  end.
Proof.
  intros Hne ammoOn chargeOn.
  unfold planAttacks, filterAmmo. fold ammoOn.
  set (kept := filter (fun o => hasAmmo o = true) atks).
  assert (Hkept : (with_chargeCost CostUndefined <$> kept)
                    `sublist_of` (with_chargeCost CostUndefined <$> atks))
    by apply fmap_sublist, sublist_filter.
  assert (Hammo : Forall (fun a => hasAmmo a = true) kept).
  { apply Forall_forall. intros a Ha.
    by apply list_elem_of_filter in Ha as [? _]. }
  set (survivors := if ammoOn then kept else atks).
  assert (Hsub : (with_chargeCost CostUndefined <$> survivors)
                   `sublist_of` (with_chargeCost CostUndefined <$> atks))
    by (subst survivors; by destruct ammoOn).
  assert (Hsa : ammoOn = true -> Forall (fun a => hasAmmo a = true) survivors)
    by (subst survivors; by destruct ammoOn).
  assert (Hid : ammoOn = false -> survivors = atks)
    by (subst survivors; by destruct ammoOn).
  destruct (decide (ammoOn = true /\ kept = [])) as [[Hon Hnil]|Hgo].
  { rewrite Hon, Hnil. simpl. split; [done|].
    apply Forall_forall. intros a Ha.
    destruct (hasAmmo a) eqn:E; [|done].
    assert (a ∈ kept) as Hin by (by apply list_elem_of_filter).
    rewrite Hnil in Hin. by apply elem_of_nil in Hin. }
  assert (Hs : survivors <> []).
  { subst survivors. destruct ammoOn; [|done]. intros ?. by apply Hgo. }
  assert (E : (if ammoOn
               then if (length kept =? 0)%nat then inl INSUFFICIENT_AMMO
                    else inr kept
               else inr atks) = inr survivors).
  { subst survivors. destruct ammoOn; [|done].
    destruct kept; [by destruct Hgo|done]. }
  rewrite E. clear E.
  unfold filterCharges. fold chargeOn.
  destruct chargeOn eqn:Hch.
  - cbv zeta.
    set (planned := filter (fun o => notNull (chargeCost o) = true)
                      (assignChargeCost C (rd_chargeCost rollData) survivors)).
    assert (Hp : (with_chargeCost CostUndefined <$> planned)
                   `sublist_of` (with_chargeCost CostUndefined <$> survivors)).
    { apply priced_is_subsequence. intros i a. by case_match. }
    assert (Hin : forall b, b ∈ planned ->
              chargeCost b = CostNum (rd_chargeCost rollData) /\
              exists a, a ∈ survivors /\ hasAmmo b = hasAmmo a).
    { intros b Hb. apply list_elem_of_filter in Hb as [Hn Hb].
      unfold assignChargeCost in Hb.
      apply elem_of_lookup_imap in Hb as (i & a & -> & Ha).
      apply list_elem_of_lookup_2 in Ha.
      case_match; simpl in *; [|done]. eauto. }
    destruct (length planned =? 0)%nat eqn:El.
    + split; [done|]. apply Nat.eqb_eq in El.
      destruct survivors as [|a l] eqn:Es; [done|].
      apply length_zero_iff_nil in El.
      destruct (Z.leb_spec (rd_chargeCost rollData) C) as [Hle|Hgt]; [|lia].
      exfalso. subst planned. unfold assignChargeCost in El.
      rewrite imap_cons in El. cbn beta in El.
      change (timesDouble (Z.of_nat 0 + 1) (rd_chargeCost rollData))
        with (rd_chargeCost rollData) in El.
      apply Z.leb_le in Hle. rewrite Hle in El.
      by rewrite filter_cons_True in El by done.
    + apply Nat.eqb_neq in El. split; [by destruct planned|].
      assert (Hall : (with_chargeCost CostUndefined <$> planned)
                       `sublist_of` (with_chargeCost CostUndefined <$> atks))
        by (by etrans).
      split; [by apply sublist_length in Hall; rewrite !length_fmap in Hall|].
      split; [done|]. split; [|split; [|done]].
      * intros Hon. apply Forall_forall. intros b Hb.
        destruct (Hin b Hb) as (_ & a & Ha & ->).
        specialize (Hsa Hon). rewrite Forall_forall in Hsa. by apply Hsa.
      * intros _. apply Forall_forall. intros b Hb. by apply Hin.
  - split; [done|]. split.
    { apply sublist_length in Hsub. by rewrite !length_fmap in Hsub. }
    split; [done|]. split; [done|]. split; [done|]. intros Hoff _. by apply Hid.
Qed.

(** X11. The two filters together. Planning a non-empty attack list either
    fails or yields a non-empty plan; the plan is, up to the charge cost the
    planner writes, a subsequence of the generated attacks (nothing added,
    nothing reordered); when the ammunition filter applies every planned attack
    has ammunition, when the charge filter applies every planned attack carries
    the per-attack cost, and when neither applies the plan is the input. The
    ammunition error means no attack had ammunition; the charge error means the
    pool does not pay for a single attack. *)
Theorem plan_is_nonempty_subsequence
    (action : Action) (rollData : RollData) (C : Z) (atks : list Attack) :
  atks <> [] ->
  let ammoOn := truthy (ammo_type action) && (0 <? ammo_cost action) in
  let chargeOn := negb (rd_chargeCost rollData =? 0) && uses_perAttack action in
  match planAttacks action rollData C atks with
  | inr planned =>
    planned <> [] /\
    (length planned <= length atks)%nat /\
    (with_chargeCost CostUndefined <$> planned)
      `sublist_of` (with_chargeCost CostUndefined <$> atks) /\
    (ammoOn = true -> Forall (fun a => hasAmmo a = true) planned) /\
    (chargeOn = true ->
       Forall (fun a => chargeCost a = CostNum (rd_chargeCost rollData)) planned) /\
    (ammoOn = false -> chargeOn = false -> planned = atks)
  | inl INSUFFICIENT_AMMO =>
    ammoOn = true /\ Forall (fun a => hasAmmo a = false) atks
  | inl INSUFFICIENT_CHARGES =>
    chargeOn = true /\ C < rd_chargeCost rollData
  end.
Proof. apply planAttacks_cases. Qed.

Lemma plan_is_nonempty_subsequence_witness :
  planAttacks longbow (sampleRollData 6 (Some 6) 0) 0 volley
  = inr (filter (fun o => hasAmmo o = true) volley) /\
  filter (fun o => hasAmmo o = true) volley <> [] /\
  (with_chargeCost CostUndefined <$> filter (fun o => hasAmmo o = true) volley)
    `sublist_of` (with_chargeCost CostUndefined <$> volley).
Proof.
  assert (Hne : volley <> []) by done.
  pose proof (plan_is_nonempty_subsequence longbow
                (sampleRollData 6 (Some 6) 0) 0 volley Hne) as H.
  cbv zeta in H.
  change (planAttacks longbow (sampleRollData 6 (Some 6) 0) 0 volley)
    with (@inr PlanError _ (filter (fun o => hasAmmo o = true) volley)) in H.
  destruct H as (H1 & _ & H2 & _).
  split; [reflexivity|]. split; [exact H1|exact H2].
Defined.

(** ** The isolation of the current attack *)

Lemma prepareStep_attacks chargeLabel action idx rd s :
  sh_attacks (prepareStep chargeLabel action idx rd s) = sh_attacks s.
Proof.
  unfold prepareStep, clearCharge. simpl.
  by destruct ((0 <? idx)%nat && sh_formData_charge s).
Qed.

Section Isolation.

Variable chargeLabel : string.
Variable action : Action.

#[local] Instance keepsIsolation_preorder : PreOrder keepsIsolation.
Proof.
  split.
  - by intros w.
  - intros w1 w2 w3 [H1 H2] [H3 H4]. split; congruence.
Qed.

Lemma subtract_keepsIsolation env atk cost :
  frame keepsIsolation (_subtractSingleAttackAmmo env action atk cost).
Proof.
  unfold _subtractSingleAttackAmmo.
  frame_tac; apply frame_modify; by intros.
Qed.

Lemma commitAndPost_keepsIsolation env idx atk :
  frame keepsIsolation (commitAndPost action env idx atk).
Proof.
  unfold commitAndPost.
  frame_tac;
    first [ apply subtract_keepsIsolation
          | apply frame_modify; by intros ].
Qed.

Lemma isolation_cases env t w w' res atk :
  allAttacks t !! currentIndex t = Some atk ->
  rollCurrentAttack chargeLabel action env t w = (w', res) ->
  match res with
  | inr _ =>
    sh_attacks (shared w') = sh_attacks (shared w) /\
    rd_attackCount (sh_rollData (shared w')) = None
  | inl _ =>
    if decide (fault env = Some AtGetTargets)
    then sh_attacks (shared w') = sh_attacks (shared w)
    else sh_attacks (shared w') = [atk] /\
         rd_attackCount (sh_rollData (shared w')) = Some (currentIndex t)
  end.
Proof.
  intros Hatk. unfold rollCurrentAttack. cbv zeta. rewrite bind_modify.
  set (w1 := set_shared (prepareStep chargeLabel action (currentIndex t)
                           (refreshed env) (shared w)) w).
  assert (H1 : sh_attacks (shared w1) = sh_attacks (shared w))
    by apply prepareStep_attacks.
  destruct (decide (fault env = Some AtGetTargets)) as [Hf|Hf].
  { unfold bind at 1, host at 1. rewrite decide_True by done.
    by intros [= <- <-]. }
  rewrite (host_passes env _ Hf), bind_ret, Hatk.
  rewrite bind_get, bind_modify.
  set (w2 := set_shared _ w1).
  assert (Hkeep : forall v, keepsIsolation w2 v ->
            sh_attacks (shared v) = [atk] /\
            rd_attackCount (sh_rollData (shared v)) = Some (currentIndex t)).
  { intros v [E1 E2]. split; [by rewrite E1|by rewrite E2]. }
  match goal with |- bind ?m ?k w2 = _ -> _ =>
    destruct (bind_cases keepsIsolation m k w2)
      as [(w3 & e & -> & R3)|(w3 & a & -> & R3)]
  end.
  { apply frame_modify; by intros. }
  { intros [= <- <-]. by apply Hkeep. }
  match goal with |- bind ?m ?k w3 = _ -> _ =>
    destruct (bind_cases keepsIsolation m k w3)
      as [(w4 & e & -> & R4)|(w4 & a' & -> & R4)]
  end.
  { frame_tac. }
  { intros [= <- <-]. apply Hkeep. by etrans. }
  match goal with |- bind ?m ?k w4 = _ -> _ =>
    destruct (bind_cases keepsIsolation m k w4)
      as [(w5 & e & -> & R5)|(w5 & a'' & -> & R5)]
  end.
  { frame_tac. }
  { intros [= <- <-]. apply Hkeep.
    etrans; [exact R3|]. etrans; [exact R4|exact R5]. }
  match goal with |- bind ?m ?k w5 = _ -> _ =>
    destruct (bind_cases keepsIsolation m k w5)
      as [(w6 & e & -> & R6)|(w6 & a3 & -> & R6)]
  end.
  { frame_tac;
      first [ apply commitAndPost_keepsIsolation
            | apply subtract_keepsIsolation
            | apply frame_modify; by intros ]. }
  { intros [= <- <-]. apply Hkeep.
    etrans; [exact R3|]. etrans; [exact R4|]. etrans; [exact R5|exact R6]. }
  unfold modify. intros [= <- <-]. done.
Qed.

(** X12. [_resolveCurrentAttack] narrows [shared.attacks] to the current
    attack and sets [rollData.attackCount] for the roll, and undoes both only
    on its last lines. For an attack that exists: an attempt that returns
    leaves [shared.attacks] as it found it and [attackCount] deleted; an
    attempt that throws at the target collection, before the narrowing, leaves
    [shared.attacks] untouched; an attempt that throws later, at any host call
    or at the ammunition read, leaves [shared.attacks] holding the current
    attack alone and [attackCount] at its index: the restore is not
    reached. *)
Theorem isolation_is_undone_only_on_return
    (env : Env) (t : Tracker) (w : World) (atk : Attack) :
  allAttacks t !! currentIndex t = Some atk ->
  let r := _resolveCurrentAttack chargeLabel action env (t, w) in
  let s' := shared (snd (fst r)) in
  match snd r with
  | inr _ =>
    sh_attacks s' = sh_attacks (shared w) /\
    rd_attackCount (sh_rollData s') = None
  | inl _ =>
    if decide (fault env = Some AtGetTargets)
    then sh_attacks s' = sh_attacks (shared w)
    else sh_attacks s' = [atk] /\
         rd_attackCount (sh_rollData s') = Some (currentIndex t)
  end.
Proof.
  intros Hatk r s'. subst s' r.
  unfold _resolveCurrentAttack, bindT, this, setThis, liftW. simpl.
  destruct (rollCurrentAttack chargeLabel action env t w) as [w' res] eqn:E.
  pose proof (isolation_cases env t w w' res atk Hatk E) as H.
  by destruct res as [e|[]].
Qed.

End Isolation.

Lemma isolation_is_undone_only_on_return_witness :
  let w := set_shared (set_attacks volley (shared (quiver 5))) (quiver 5) in
  let r := _resolveCurrentAttack "Charge" longbow hostFailsToPost
             (newTracker volley, w) in
  sh_attacks (shared w) = volley /\
  sh_attacks (shared (snd (fst r))) = [shot "Attack" "" true] /\
  rd_attackCount (sh_rollData (shared (snd (fst r)))) = Some 0%nat.
Proof.
  intros w r. split; [reflexivity|].
  exact (isolation_is_undone_only_on_return "Charge" longbow hostFailsToPost
           (newTracker volley) w (shot "Attack" "" true) eq_refl).
Defined.

(** ** The wrapper: chaining or taking over *)

Ltac decide_templates :=
  repeat match goal with
  | |- context [@bool_decide (@eq Template ?a ?b) ?d] =>
    let v := eval vm_compute in (@bool_decide (a = b) d) in
    change (@bool_decide (a = b) d) with v
  | H : context [@bool_decide (@eq Template ?a ?b) ?d] |- _ =>
    let v := eval vm_compute in (@bool_decide (a = b) d) in
    change (@bool_decide (a = b) d) with v in H
  end.

Ltac wrapper_cases env action leaf :=
  unfold sequentialProcessWrapper, planAttacks in *; cbv zeta in *;
  destruct (setting_sequentialAttacks env) eqn:?;
    cbn [negb] in *; [|leaf];
  destruct (hasAttack action) eqn:?; cbn [negb] in *; [|leaf];
  destruct (arg_skipDialog env) eqn:?; [leaf|];
  destruct (chainsByType env) eqn:?; [leaf|];
  destruct (0 <? checkRequirements env) eqn:?; [leaf|];
  destruct (createAttackDialog env) as [form|] eqn:?; [|leaf];
  destruct (bool_decide (form_fullAttack form = Some false)) eqn:?;
    cbn [negb orb] in *; [leaf|];
  destruct (length (attacks_at_gate env) <=? 1)%nat eqn:?; [leaf|];
  destruct (filterAmmo action (attacks_at_planning env))
    as [?|?attacks] eqn:?; [leaf|];
  match goal with
  | _ : filterAmmo _ _ = inr ?l |- _ =>
    destruct (filterCharges action (rollData_at_planning env)
                (item_charges env) l) as [?|?planned] eqn:?; [leaf|]
  end;
  destruct (0 <? checkAttackRequirements env) eqn:?; [leaf|];
  destruct (needsTemplate env) eqn:?;
    [destruct (promptMeasureTemplate env) eqn:?|];
    decide_templates; cbn [andb] in *; try (leaf; fail);
  match goal with
  | |- context [result (fst ?st)] =>
    destruct (result (fst st)) as [[]|] eqn:?
  | _ : context [result (fst ?st)] |- _ =>
    destruct (result (fst st)) as [[]|] eqn:?
  end;
  decide_templates; try destruct (clearTargets env) eqn:?; leaf.

Ltac split_calls :=
  cbn [calls returned final outcome app] in *;
  repeat match goal with
  | H : _ = ?pre ++ _ :: _ |- _ =>
    is_var pre; destruct pre; cbn [app] in H; simplify_eq
  end.

Ltac calls_done :=
  cbn [calls returned final outcome app last] in *;
  repeat split; try done; try (intros; set_solver); eauto.

(** X13. The order of the wrapper's calls. Whatever the host answers, a call
    made by the wrapper has had the calls before it as this states: [wrapped]
    is the last call and its result is returned; it is called once, never
    after [alterRollData], either first with the caller's [skipDialog] or
    right after the dialog was patched, then with [skipDialog] false; the
    attack dialog is shown once and before any chaining; [alterRollData] is
    called once, after the dialog, and never followed by [wrapped]; the tracker
    is opened once, after [alterRollData] and the target collection, on the
    list the two filters leave; the template is deleted and the targets are
    cleared only as the last call and after the tracker. *)
Theorem wrapper_call_order
    (chargeLabel : string) (action : Action) (env : ProcessEnv)
    (pre : list Call) (c : Call) (post : list Call) :
  calls (sequentialProcessWrapper chargeLabel action env) = pre ++ c :: post ->
  match c with
  | Wrapped b =>
    post = [] /\
    returned (sequentialProcessWrapper chargeLabel action env) = RetWrapped b /\
    (forall b', Wrapped b' ∉ pre) /\ (AlterRollData ∉ pre) /\
    (pre = [] /\ b = arg_skipDialog env \/
     b = false /\ CreateAttackDialog ∈ pre /\ last pre = Some PatchDialog)
  | CreateAttackDialog =>
    (CreateAttackDialog ∉ pre) /\ (PatchDialog ∉ pre) /\
    (forall b, Wrapped b ∉ pre)
  | AlterRollData =>
    (AlterRollData ∉ pre) /\ CreateAttackDialog ∈ pre /\ (PatchDialog ∉ pre) /\
    (forall b, Wrapped b ∉ post)
  | RunTracker l =>
    (forall l', RunTracker l' ∉ pre) /\ (forall l', RunTracker l' ∉ post) /\
    AlterRollData ∈ pre /\ GetTargets ∈ pre /\
    planAttacks action (rollData_at_planning env) (item_charges env)
      (attacks_at_planning env) = inr l
  | DeleteTemplate | ClearTargets =>
    post = [] /\ exists l, RunTracker l ∈ pre
  | _ => True
  end.
Proof.
  intros H.
  wrapper_cases env action ltac:(split_calls; calls_done).
Qed.

Lemma wrapper_call_order_witness :
  RunTracker blows
    ∈ calls (sequentialProcessWrapper "Charge" greatsword fullAttackEnv) /\
  planAttacks greatsword (rollData_at_planning fullAttackEnv)
    (item_charges fullAttackEnv) (attacks_at_planning fullAttackEnv)
  = inr blows.
Proof.
  pose proof (wrapper_call_order "Charge" greatsword fullAttackEnv
    [CheckRequirements; AutoSelectAmmo; GetRollData; GenerateAttacks;
     CreateAttackDialog; AlterRollData; CreateActionUseHook;
     HandleConditionals; PrepareChargeCost; CheckAttackRequirements;
     GetTargets]
    (RunTracker blows) [ClearTargets] eq_refl) as (_ & _ & _ & _ & H).
  split; [|exact H].
  change (calls (sequentialProcessWrapper "Charge" greatsword fullAttackEnv))
    with ([CheckRequirements; AutoSelectAmmo; GetRollData; GenerateAttacks;
           CreateAttackDialog; AlterRollData; CreateActionUseHook;
           HandleConditionals; PrepareChargeCost; CheckAttackRequirements;
           GetTargets] ++ RunTracker blows :: [ClearTargets]).
  apply elem_of_app. right. apply list_elem_of_here.
Defined.

Lemma completed_run_covers chargeLabel action planned w cs :
  let t := fst (run chargeLabel action cs (newTracker planned, w)) in
  result t = Some completed ->
  forall i, (i < length planned)%nat ->
    i ∈ resolvedIndices t \/ i ∈ skippedIndices t.
Proof.
  intros t Hr i Hi.
  assert (Hne : planned <> []) by (intros ->; simpl in Hi; lia).
  pose proof (run_trackerInv chargeLabel action cs (newTracker planned, w)
                (trackerInv_new planned Hne)) as Hinv. fold t in Hinv.
  pose proof (run_allAttacks chargeLabel action cs (newTracker planned, w)) as Ha.
  fold t in Ha. simpl in Ha.
  pose proof (run_bookkeeping chargeLabel action cs (newTracker planned, w)
                (bookkeeping_new planned)) as [_ Hu]. fold t in Hu.
  destruct Hinv as (_ & _ & _ & _ & _ & _ & Hcomp & _).
  destruct (Hcomp Hr) as [_ Heq]. rewrite Ha in Heq.
  apply elem_of_union. rewrite Hu, elem_of_set_seq. lia.
Qed.

Ltac result_leaf :=
  cbn [calls returned final outcome app] in *;
  first
    [ solve [calls_done]
    | eexists; split; [reflexivity|]; split; [reflexivity|];
      match goal with H : result _ = _ |- _ => rewrite H end;
      solve [ calls_done;
              try (intros; eapply completed_run_covers; eassumption) ] ].

(** X14. What the wrapper returns once the tracker is involved. A tracker
    the wrapper has opened runs on the list the two filters produced, with the
    commands its dialog receives. If its promise resolved to completed the
    wrapper returns the action use: then every planned position is resolved
    or skipped, no template is deleted, and the targets are cleared iff the
    host setting asks for it. If it resolved to cancelled the wrapper returns
    nothing and deletes the template iff one was placed; the targets stay.
    While the promise is unresolved the wrapper does not return. Without a
    tracker the wrapper neither returns the action use nor stays pending, and
    neither deletes a template nor clears targets. *)
Theorem wrapper_result_follows_tracker
    (chargeLabel : string) (action : Action) (env : ProcessEnv) :
  let o := sequentialProcessWrapper chargeLabel action env in
  match final o with
  | None =>
    (forall l, RunTracker l ∉ calls o) /\
    returned o <> RetActionUse /\ returned o <> RetPending /\
    (DeleteTemplate ∉ calls o) /\ (ClearTargets ∉ calls o)
  | Some st =>
    exists planned,
      planAttacks action (rollData_at_planning env) (item_charges env)
        (attacks_at_planning env) = inr planned /\
      st = run chargeLabel action (dialogCommands env)
             (newTracker planned, trackerWorld env) /\
      match result (fst st) with
      | Some completed =>
        returned o = RetActionUse /\ (DeleteTemplate ∉ calls o) /\
        (ClearTargets ∈ calls o <-> clearTargets env = true) /\
        (forall i, (i < length planned)%nat ->
           i ∈ resolvedIndices (fst st) \/ i ∈ skippedIndices (fst st))
      | Some cancelled =>
        returned o = RetUndefined /\ (ClearTargets ∉ calls o) /\
        (DeleteTemplate ∈ calls o <->
         needsTemplate env = true /\ promptMeasureTemplate env = TemplatePlaced)
      | None =>
        returned o = RetPending /\
        (DeleteTemplate ∉ calls o) /\ (ClearTargets ∉ calls o)
      end
  end.
Proof.
  intros o. subst o.
  wrapper_cases env action ltac:(result_leaf).
Qed.

Ltac gate_leaf :=
  cbn [calls returned final outcome app] in *;
  repeat match goal with
  | H : (_ <? _) = true |- _ => apply Z.ltb_lt in H
  | H : (_ <? _) = false |- _ => apply Z.ltb_ge in H
  | H : (_ <=? _)%nat = true |- _ => apply Nat.leb_le in H
  | H : (_ <=? _)%nat = false |- _ => apply Nat.leb_gt in H
  | H : bool_decide _ = true |- _ => apply bool_decide_eq_true in H
  | H : bool_decide _ = false |- _ => apply bool_decide_eq_false in H
  end;
  set_unfold; naive_solver (first [lia | eauto]).

(** X15. When the wrapper takes over. The setup before the dialog runs
    exactly when the setting is on, the action has an attack, the caller did
    not skip the dialog and the item is no spell, consumable or class feature.
    [alterRollData] is called, and with it sequential mode entered, exactly
    when in addition the requirements hold, the dialog was confirmed, its
    [fullAttack] is not [false] and more than one attack was generated.
    [wrapped] is called exactly when one of the four conditions fails, or the
    requirements hold and the dialog was confirmed with [fullAttack] false or
    with at most one attack. *)
Theorem sequential_mode_gate
    (chargeLabel : string) (action : Action) (env : ProcessEnv) :
  let o := sequentialProcessWrapper chargeLabel action env in
  let asked :=
    setting_sequentialAttacks env = true /\ hasAttack action = true /\
    arg_skipDialog env = false /\ chainsByType env = false in
  (CheckRequirements ∈ calls o <-> asked) /\
  (AlterRollData ∈ calls o <->
     asked /\ checkRequirements env <= 0 /\
     exists form, createAttackDialog env = Some form /\
       form_fullAttack form <> Some false /\
       (1 < length (attacks_at_gate env))%nat) /\
  ((exists b, Wrapped b ∈ calls o) <->
     ~ asked \/
     checkRequirements env <= 0 /\
     exists form, createAttackDialog env = Some form /\
       (form_fullAttack form = Some false \/
        (length (attacks_at_gate env) <= 1)%nat)).
Proof.
  intros o asked. subst o asked.
  wrapper_cases env action ltac:(gate_leaf).
Qed.

Lemma final_is_a_run chargeLabel action env st :
  final (sequentialProcessWrapper chargeLabel action env) = Some st ->
  (1 < length (attacks_at_gate env))%nat /\
  exists planned,
    planAttacks action (rollData_at_planning env) (item_charges env)
      (attacks_at_planning env) = inr planned /\
    st = run chargeLabel action (dialogCommands env)
           (newTracker planned, trackerWorld env).
Proof.
  intros H.
  wrapper_cases env action
    ltac:(cbn [calls returned final outcome] in *; simplify_eq;
          try (split; [by apply Nat.leb_gt|eexists; split; reflexivity])).
Qed.

(** X16. The tracker never opens on an empty plan. If the host does not
    replace [shared.attacks] between the dialog and the filters, a tracker
    the wrapper opens holds a non-empty list no longer than the generated one;
    so through its dialog the index stays within the list and a rendered next,
    skip or cancel button always has a current attack; when neither filter
    applies the tracker holds the generated list itself, of two attacks or
    more. *)
Theorem tracker_opens_on_a_nonempty_plan
    (chargeLabel : string) (action : Action) (env : ProcessEnv)
    (st : Tracker * World) :
  attacks_at_planning env = attacks_at_gate env ->
  final (sequentialProcessWrapper chargeLabel action env) = Some st ->
  let t := fst st in
  allAttacks t <> [] /\
  (length (allAttacks t) <= length (attacks_at_gate env))%nat /\
  (currentIndex t <= length (allAttacks t))%nat /\
  (forall b, rendered b t = true -> b <> CloseBtn ->
     is_Some (allAttacks t !! currentIndex t)) /\
  (truthy (ammo_type action) && (0 <? ammo_cost action) = false ->
   negb (rd_chargeCost (rollData_at_planning env) =? 0)
     && uses_perAttack action = false ->
   allAttacks t = attacks_at_gate env /\ (2 <= length (allAttacks t))%nat).
Proof.
  intros Hsame Hfin t.
  destruct (final_is_a_run _ _ _ _ Hfin) as (Hlen & planned & Hplan & ->).
  assert (Hne : attacks_at_planning env <> []).
  { rewrite Hsame. intros E. rewrite E in Hlen. simpl in Hlen. lia. }
  pose proof (planAttacks_cases action (rollData_at_planning env)
                (item_charges env) (attacks_at_planning env) Hne) as Hc.
  cbv zeta in Hc. rewrite Hplan in Hc.
  destruct Hc as (Hp & Hle & _ & _ & _ & Hid).
  pose proof (run_allAttacks chargeLabel action (dialogCommands env)
                (newTracker planned, trackerWorld env)) as Ha.
  fold t in Ha. simpl in Ha.
  pose proof (run_trackerInv chargeLabel action (dialogCommands env)
                (newTracker planned, trackerWorld env)
                (trackerInv_new planned Hp)) as Hinv. fold t in Hinv.
  rewrite Ha, <- Hsame.
  split; [done|]. split; [done|]. split.
  { destruct Hinv as (_ & _ & H & _). by rewrite Ha in H. }
  split.
  { intros b Hb Hnc.
    destruct (rendered_running t b Hinv Hb Hnc) as (_ & _ & Hlt & _).
    apply lookup_lt_is_Some. by rewrite <- Ha. }
  intros Ho1 Ho2. specialize (Hid Ho1 Ho2). subst planned.
  split; [done|]. rewrite Hsame. lia.
Qed.

Lemma tracker_opens_on_a_nonempty_plan_witness :
  let st := run "Charge" greatsword (dialogCommands fullAttackEnv)
              (newTracker blows, trackerWorld fullAttackEnv) in
  final (sequentialProcessWrapper "Charge" greatsword fullAttackEnv) = Some st /\
  allAttacks (fst st) <> [] /\
  (currentIndex (fst st) <= length (allAttacks (fst st)))%nat.
Proof.
  intros st.
  assert (Hf : final (sequentialProcessWrapper "Charge" greatsword fullAttackEnv)
               = Some st) by (vm_compute; reflexivity).
  split; [exact Hf|].
  destruct (tracker_opens_on_a_nonempty_plan "Charge" greatsword fullAttackEnv
              st eq_refl Hf) as (H1 & _ & H2 & _).
  split; [exact H1|exact H2].
Defined.

(** ** The chat card: buttons, narrowing and the hook *)

Section CardButtons.
Import ChatCard.

Lemma pushParts_spec (parts : list JsPart) (k : nat) :
  match pushParts k parts with
  | None => PartUndefined ∈ parts
  | Some l =>
    (PartUndefined ∉ parts) /\ length l = length parts /\
    forall j e, l !! j = Some e ->
      entry_index e = (k + j + 1)%nat /\ entry_label e <> "" /\
      exists label, parts !! j = Some (Part (entry_bonus e) label) /\
        entry_label e = if truthy label then label
                        else String.append "Attack " (pretty (entry_index e + 1)%nat)
  end.
Proof.
  revert k. induction parts as [|[|bonus label] parts IH]; intros k; simpl.
  - split; [set_solver|]. split; [done|]. intros j e. by rewrite lookup_nil.
  - set_solver.
  - specialize (IH (S k)). destruct (pushParts (S k) parts) as [l|]; simpl.
    + destruct IH as (Hnot & Hlen & Hall).
      split; [set_solver|]. split; [by rewrite Hlen|].
      intros [|j] e He; simpl in He.
      * injection He as <-. simpl.
        split; [lia|]. split.
        { destruct label; simpl; done. }
        exists label. split; [done|].
        by replace (k + 1 + 1)%nat with (k + 2)%nat by lia.
      * destruct (Hall j e He) as (Hi & Hl & lbl & Hp & Hlab).
        split; [lia|]. split; [done|]. by exists lbl.
    + set_solver.
Qed.

(** X17. The attack list of the card. [buildAttackList] throws exactly when
    an attack part is [undefined]; otherwise it lists one entry more than
    there are attack parts, the entry at position [i] carries index [i], the
    first is the base attack with label Attack and no bonus, each further
    entry carries the bonus of the part before its index and that part's
    label, or Attack followed by its one-based position when the label is
    empty; no label is empty; and the action counts as having multiple attacks
    exactly when the list has more than one entry. *)
Theorem attack_list_is_dense (action : ItemAction) :
  let parts := getAttackParts action in
  match buildAttackList action with
  | None => PartUndefined ∈ parts
  | Some l =>
    (PartUndefined ∉ parts) /\
    length l = S (length parts) /\
    (hasMultipleAttacks action = true <-> (1 < length l)%nat) /\
    forall i e, l !! i = Some e ->
      entry_index e = i /\ entry_label e <> "" /\
      match i with
      | O => entry_label e = "Attack" /\ entry_bonus e = ""
      | S j =>
        exists label, parts !! j = Some (Part (entry_bonus e) label) /\
          entry_label e =
            if truthy label then label
            else String.append "Attack " (pretty (i + 1)%nat)
      end
  end.
Proof.
  intros parts. unfold buildAttackList. fold parts.
  pose proof (pushParts_spec parts 0) as H.
  destruct (pushParts 0 parts) as [l|]; simpl; [|done].
  destruct H as (Hnot & Hlen & Hall).
  split; [done|]. split; [by rewrite Hlen|]. split.
  { unfold hasMultipleAttacks. fold parts. rewrite Hlen, Nat.ltb_lt. lia. }
  intros [|j] e He; simpl in He.
  - injection He as <-. done.
  - destruct (Hall j e He) as (Hi & Hl & lbl & Hp & Hlab). simpl in Hi.
    split; [lia|]. split; [done|]. exists lbl. split; [done|].
    rewrite Hlab. by replace (entry_index e) with (S j) by lia.
Qed.

End CardButtons.

Section CardClicks.
Import ChatCard.

Lemma getAttackParts_narrowed (parts : list JsPart) (action : ItemAction) :
  (parts = [] \/ getAttackParts action <> []) ->
  getAttackParts (setAttackParts parts action) = parts.
Proof.
  destruct action as [[?|] [?|]]; try reflexivity.
  unfold getAttackParts, setAttackParts. simpl. by intros [->|?].
Qed.

(** X18. Every button of the card rolls its own attack and gets past the
    hook. For an entry of the list built from an action, a click that carries
    the entry's index reaches the roll (it is never refused as out of range):
    the roll runs with [attackParts] narrowed to nothing for the base attack
    and to exactly the part the entry was built from otherwise, never to an
    [undefined] entry; the button ends used when the roll returns and free
    when it throws. While that roll runs the hook lets the action through
    because of the pending flag; without the flag it would suppress the roll
    of every button but the first. *)
Theorem card_buttons_roll_their_attack
    (actionId : string) (action : ItemAction) (l : list AttackEntry)
    (e : AttackEntry) (env : UseEnv) (st : State) :
  actions st !! actionId = Some action ->
  buildAttackList action = Some l ->
  e ∈ l ->
  let i := Z.of_nat (entry_index e) in
  let narrowed := singlePart (getAttackParts action) i in
  let st' := onRollClick actionId i env st in
  st' = rollSingle actionId action narrowed env st /\
  btn st' = (if use_throws env then markFree else markUsed) /\
  match entry_index e with
  | O => narrowed = []
  | S j => exists label,
      getAttackParts action !! j = Some (Part (entry_bonus e) label) /\
      narrowed = [Part (entry_bonus e) label]
  end /\
  getAttackParts (setAttackParts narrowed action) = narrowed /\
  pf1PreActionUse true (Some actionId) actionId
    (setAttackParts narrowed action) = Proceed /\
  (pf1PreActionUse true None actionId (setAttackParts narrowed action)
   = Suppress <-> entry_index e <> 0%nat).
Proof.
  intros Hact Hl He i narrowed st'.
  pose proof (pushParts_spec (getAttackParts action) 0) as Hspec.
  unfold buildAttackList in Hl.
  destruct (pushParts 0 (getAttackParts action)) as [rest|] eqn:Hp;
    simpl in Hl; [|done].
  injection Hl as <-. destruct Hspec as (Hnot & Hlen & Hall).
  assert (Hrange : (entry_index e <= length (getAttackParts action))%nat /\
            match entry_index e with
            | O => True
            | S j => exists label,
                getAttackParts action !! j = Some (Part (entry_bonus e) label)
            end).
  { apply elem_of_cons in He as [->|He]; [simpl; split; [lia|done]|].
    apply list_elem_of_lookup in He as [j He].
    destruct (Hall j e He) as (Hi & _ & lbl & Hpart & _).
    pose proof (lookup_lt_Some _ _ _ Hpart). simpl in Hi.
    rewrite Hi. replace (j + 1)%nat with (S j) by lia.
    split; [lia|]. by exists lbl. }
  destruct Hrange as [Hle Hpart].
  assert (Hn : match entry_index e with
               | O => narrowed = []
               | S j => exists label,
                   getAttackParts action !! j = Some (Part (entry_bonus e) label) /\
                   narrowed = [Part (entry_bonus e) label]
               end).
  { subst narrowed i. unfold singlePart.
    destruct (entry_index e) as [|j]; [done|].
    destruct Hpart as [lbl Hpart]. exists lbl. split; [done|].
    destruct (Z.eqb_spec (Z.of_nat (S j)) 0) as [?|_]; [lia|].
    unfold at_index.
    destruct (Z.ltb_spec (Z.of_nat (S j) - 1) 0) as [?|_]; [lia|].
    replace (Z.to_nat (Z.of_nat (S j) - 1)) with j by lia.
    by rewrite Hpart. }
  assert (Hst : st' = rollSingle actionId action narrowed env st).
  { subst st' narrowed. unfold onRollClick, rollSingle, singlePart.
    rewrite Hact. cbv zeta.
    destruct (Z.ltb_spec (Z.of_nat (length (getAttackParts action))) i)
      as [?|_]; [subst i; lia|].
    by destruct (use env _). }
  assert (Hget : getAttackParts (setAttackParts narrowed action) = narrowed).
  { apply getAttackParts_narrowed.
    destruct (entry_index e) as [|j]; [by left|right].
    destruct Hpart as [lbl Hpart]. intros E. by rewrite E in Hpart. }
  split; [done|]. split.
  { rewrite Hst. unfold rollSingle, use. simpl. done. }
  split; [done|]. split; [done|]. split.
  { unfold pf1PreActionUse. simpl. by rewrite bool_decide_eq_true_2. }
  unfold pf1PreActionUse, hasMultipleAttacks. simpl. rewrite Hget.
  destruct (entry_index e) as [|j].
  - rewrite Hn. simpl. split; done.
  - destruct Hn as (lbl & _ & ->). simpl. split; done.
Qed.

Lemma card_buttons_roll_their_attack_witness :
  let env := {| use_throws := false; use_leaves := None |} in
  let e := {| entry_index := 2; entry_label := "Third"; entry_bonus := "-10" |} in
  buildAttackList flurry
  = Some [ {| entry_index := 0; entry_label := "Attack"; entry_bonus := "" |};
           {| entry_index := 1; entry_label := "Second"; entry_bonus := "-5" |};
           e ] /\
  onRollClick "flurry" 2 env cardState
  = rollSingle "flurry" flurry [Part "-10" "Third"] env cardState /\
  btn (onRollClick "flurry" 2 env cardState) = markUsed.
Proof.
  intros env e.
  assert (Hl : buildAttackList flurry
    = Some [ {| entry_index := 0; entry_label := "Attack"; entry_bonus := "" |};
             {| entry_index := 1; entry_label := "Second"; entry_bonus := "-5" |};
             e ]) by reflexivity.
  assert (He : e ∈ [ {| entry_index := 0; entry_label := "Attack";
                        entry_bonus := "" |};
                     {| entry_index := 1; entry_label := "Second";
                        entry_bonus := "-5" |}; e ])
    by (apply list_elem_of_further, list_elem_of_further, list_elem_of_here).
  assert (Ha : actions cardState !! "flurry" = Some flurry) by reflexivity.
  destruct (card_buttons_roll_their_attack "flurry" flurry _ e env cardState
              Ha Hl He) as (H1 & H2 & _).
  split; [exact Hl|]. split; [exact H1|exact H2].
Defined.

End CardClicks.

(** ** The trace follows the current attack *)

Lemma eventOf_index action atks idx e i :
  eventOf action atks idx e -> eventIndex e = Some i -> i = idx.
Proof. destruct e; simpl; intros H [= <-]; by destruct H. Qed.

Lemma inOrder_app (l evs : list Event) (idx : nat) :
  inOrder l ->
  (forall e i, e ∈ l -> eventIndex e = Some i -> (i <= idx)%nat) ->
  (forall e i, e ∈ evs -> eventIndex e = Some i -> i = idx) ->
  inOrder (l ++ evs).
Proof.
  intros Hl Hle Hevs p q e1 e2 i j Hpq H1 H2 Hi Hj.
  apply lookup_app_Some in H1 as [H1|[Hp H1]];
    apply lookup_app_Some in H2 as [H2|[Hq H2]].
  - by eapply Hl.
  - apply list_elem_of_lookup_2 in H1, H2.
    rewrite (Hevs _ _ H2 Hj). by eapply Hle.
  - apply lookup_lt_Some in H2. lia.
  - apply list_elem_of_lookup_2 in H1, H2.
    rewrite (Hevs _ _ H1 Hi), (Hevs _ _ H2 Hj). done.
Qed.

Section Trace.

Variable chargeLabel : string.
Variable action : Action.

#[local] Instance emitsFor_preorder atks idx : PreOrder (emitsFor action atks idx).
Proof.
  split.
  - intros w. exists []. by rewrite app_nil_r.
  - intros w1 w2 w3 (evs1 & H1 & F1) (evs2 & H2 & F2).
    exists (evs1 ++ evs2). split.
    + by rewrite H2, H1, app_assoc.
    + by apply Forall_app.
Qed.

Lemma emitsFor_quiet atks idx (f : World -> World) :
  (forall w, trace (f w) = trace w) -> frame (emitsFor action atks idx) (modify f).
Proof.
  intros H. apply frame_modify. intros w. exists []. by rewrite app_nil_r, H.
Qed.

Lemma emitsFor_emit atks idx (e : Event) :
  eventOf action atks idx e -> frame (emitsFor action atks idx) (modify (emit e)).
Proof.
  intros H. apply frame_modify. intros w. exists [e]. split; [done|].
  by repeat constructor.
Qed.

Lemma emitsFor_emit_at atks idx (f : World -> Event) :
  (forall w, eventOf action atks idx (f w)) ->
  frame (emitsFor action atks idx) (modify (fun w => emit (f w) w)).
Proof.
  intros H. apply frame_modify. intros w. exists [f w]. split; [done|].
  by repeat constructor.
Qed.

Ltac t_leaf :=
  first [apply frame_ret | apply frame_throw | apply frame_get | apply frame_host];
  apply _.
Ltac t_bind := apply frame_bind; [apply _ | | intros ?].
Ltac t_when := apply frame_when; [apply _ | ].

Lemma subtract_emitsFor atks idx env atk cost :
  frame (emitsFor action atks idx) (_subtractSingleAttackAmmo env action atk cost).
Proof.
  unfold _subtractSingleAttackAmmo.
  destruct (negb (hasAttack action)); [t_leaf|].
  destruct (negb (truthy (ammo_type action))); [t_leaf|].
  destruct (ammo atk) as [id|]; [|t_leaf].
  t_bind; [t_leaf|].
  destruct (items _ !! id) as [ammoItem|]; [|t_leaf].
  destruct (abundant ammoItem); [t_leaf|].
  t_bind; [t_leaf|]. by apply emitsFor_quiet.
Qed.

Lemma commitAndPost_emitsFor atks idx env atk :
  atks !! idx = Some atk ->
  frame (emitsFor action atks idx) (commitAndPost action env idx atk).
Proof.
  intros Hatk. unfold commitAndPost. cbv zeta.
  t_bind.
  { destruct (negb (ammo_cost action =? 0) && hasAmmo atk) eqn:E;
      cbn [when]; [|t_leaf].
    apply andb_prop in E as [Hc Hh]. apply negb_true_iff, Z.eqb_neq in Hc.
    t_bind; [|apply subtract_emitsFor].
    apply emitsFor_emit. simpl. eauto. }
  t_bind.
  { destruct (chargeDue atk) as [c|] eqn:Hdue; [|t_leaf].
    assert (chargeCost atk = CostNum c /\ 0 < c) as [Hcost Hpos].
    { unfold chargeDue in Hdue. destruct (chargeCost atk) as [| |c0]; try done.
      destruct (Z.ltb_spec 0 c0); by simplify_eq. }
    t_bind; [by apply emitsFor_quiet|].
    t_bind; [apply emitsFor_emit; simpl; eauto|].
    t_bind; [t_leaf|]. by apply emitsFor_quiet. }
  t_bind.
  { t_when. t_bind; [t_leaf|]. by apply emitsFor_quiet. }
  t_bind; [t_leaf|].
  t_bind; [apply emitsFor_emit; simpl; eauto|]. t_leaf.
Qed.

Lemma resolve_emitsFor env t :
  frame (emitsFor action (allAttacks t) (currentIndex t))
    (rollCurrentAttack chargeLabel action env t).
Proof.
  unfold rollCurrentAttack. cbv zeta.
  t_bind; [by apply emitsFor_quiet|].
  t_bind; [t_leaf|].
  destruct (allAttacks t !! currentIndex t) as [atk|] eqn:E; [|t_leaf].
  t_bind; [t_leaf|].
  t_bind; [by apply emitsFor_quiet|].
  t_bind; [apply emitsFor_emit_at; intros; simpl; rewrite E; eauto|].
  t_bind; [t_leaf|].
  t_bind.
  { destruct (hasAmmo atk); [|t_leaf]. destruct (ammo atk); t_leaf. }
  t_bind.
  { t_when. t_bind; [t_leaf|]. t_when. by apply commitAndPost_emitsFor. }
  by apply emitsFor_quiet.
Qed.

Lemma traceInv_grow (t t' : Tracker) (w w' : World) :
  traceInv action (t, w) ->
  emitsFor action (allAttacks t) (currentIndex t) w w' ->
  allAttacks t' = allAttacks t ->
  (currentIndex t <= currentIndex t')%nat ->
  traceInv action (t', w').
Proof.
  intros [Hall Hord] (evs & Htr & Hevs) Ha Hle. unfold traceInv. simpl in *.
  rewrite Htr, Ha. rewrite Forall_forall in Hevs. split.
  - intros e He. apply elem_of_app in He as [He|He].
    + destruct (Hall e He) as (idx & Hi & Hof). exists idx. split; [lia|done].
    + exists (currentIndex t). split; [done|]. by apply Hevs.
  - apply (inOrder_app _ _ (currentIndex t)); [done| |].
    + intros e i He Hi. destruct (Hall e He) as (idx & Hidx & Hof).
      by rewrite (eventOf_index _ _ _ _ _ Hof Hi).
    + intros e i He Hi. by eapply eventOf_index; [apply Hevs|].
Qed.

Lemma traceInv_run atks w0 cs :
  trace w0 = [] ->
  traceInv action (run chargeLabel action cs (newTracker atks, w0)).
Proof.
  intros H0.
  apply (run_invariant chargeLabel action (fun _ => True) (traceInv action)).
  - intros env [t w] _ Hinv. rewrite onNext_roll. simpl.
    pose proof (resolve_emitsFor env t w) as Hfr.
    destruct (rollCurrentAttack chargeLabel action env t w)
      as [w' [e|u]]; simpl in *.
    + apply (traceInv_grow t t w
               (emit (NotifyError "Error resolving attack. Check console.") w'));
        [done| |done|done].
      destruct Hfr as (evs & E & F).
      exists (evs ++ [NotifyError "Error resolving attack. Check console."]).
      split; [simpl; by rewrite E, app_assoc|].
      apply Forall_app. split; [done|]. by repeat constructor.
    + destruct (updateDialog_core (markResolved t)) as (Ha & Hc & _).
      apply (traceInv_grow t _ w w'); [done|done|done|].
      rewrite Hc. simpl. lia.
  - intros [t w] Hinv. unfold onSkip, _skipCurrentAttack. simpl.
    destruct (updateDialog_core (markSkipped t)) as (Ha & Hc & _).
    apply (traceInv_grow t _ w w); [done|reflexivity|done|].
    rewrite Hc. simpl. lia.
  - intros [t w] t' Hinv (Ha & Hc & _). simpl in *.
    apply (traceInv_grow t t' w w); [done|reflexivity|done|lia].
  - apply hostIs_any.
  - split; simpl; rewrite H0.
    + intros e He. by apply elem_of_nil in He.
    + intros p q e1 e2 i j _ H1. by rewrite lookup_nil in H1.
Qed.

End Trace.

(** X19. The tracker only ever works on the current attack. Whatever the
    host answers or throws, in the trace of any run every roll, commit and chat
    card belongs to an attack of the plan at or before the current index;
    ammunition is committed only for an attack that has ammunition and with a
    cost that is not zero, charges only by the attack's own positive charge
    cost; and the events come in the order of their attacks: once the index
    has moved past an attack nothing is rolled, committed or posted for it
    again. *)
Theorem events_stay_with_the_current_attack
    (chargeLabel : string) (action : Action)
    (atks : list Attack) (w0 : World) (cs : list Command) :
  trace w0 = [] ->
  let st := run chargeLabel action cs (newTracker atks, w0) in
  (forall e i, e ∈ trace (snd st) -> eventIndex e = Some i ->
     (i <= currentIndex (fst st))%nat /\ (i < length atks)%nat /\
     eventOf action atks i e) /\
  inOrder (trace (snd st)).
Proof.
  intros H0 st.
  pose proof (traceInv_run chargeLabel action atks w0 cs H0) as [Hall Hord].
  pose proof (run_allAttacks chargeLabel action cs (newTracker atks, w0)) as Ha.
  fold st in Hall, Hord, Ha. simpl in Ha. rewrite Ha in Hall.
  split; [|done].
  intros e i He Hi. destruct (Hall e He) as (idx & Hle & Hof).
  rewrite (eventOf_index _ _ _ _ _ Hof Hi). split; [done|]. split; [|done].
  destruct e; simpl in Hof, Hi; try done.
  - destruct Hof as [_ Hs]. by apply lookup_lt_is_Some.
  - destruct Hof as (_ & _ & atk & Hs & _). by eapply lookup_lt_Some.
  - destruct Hof as (_ & _ & atk & Hs & _). by eapply lookup_lt_Some.
  - destruct Hof as [_ Hs]. by apply lookup_lt_is_Some.
Qed.

Lemma events_stay_with_the_current_attack_witness :
  let st := run "Charge" longbow
              [Click NextBtn hostFailsToPost; Click SkipBtn hostOk;
               Click NextBtn hostOk]
              (newTracker volley, quiver 5) in
  trace (quiver 5) = [] /\
  count (isCommitAmmo 0) (trace (snd st)) = 1%nat /\
  0%nat ∈ skippedIndices (fst st) /\
  inOrder (trace (snd st)).
Proof.
  intros st.
  destruct (events_stay_with_the_current_attack "Charge" longbow volley
              (quiver 5)
              [Click NextBtn hostFailsToPost; Click SkipBtn hostOk;
               Click NextBtn hostOk] eq_refl) as [_ H].
  split; [reflexivity|]. split; [vm_compute; reflexivity|].
  split; [|exact H].
  apply (bool_decide_unpack _). vm_compute. exact I.
Defined.

(** ** Working through the whole plan *)

Section Progress.

Variable chargeLabel : string.
Variable action : Action.

Lemma awaiting_new atks : atks <> [] -> awaiting (newTracker atks).
Proof.
  intros H. unfold awaiting. simpl. repeat split.
  destruct atks; [done|simpl; lia].
Qed.

(** One served click on the next button, or one on the skip button, moves an
    open tracker to the next attack. *)
Lemma advances_step c t w :
  advances c -> awaiting t -> _completed t = false ->
  Forall namesAmmo (allAttacks t) ->
  let st' := step chargeLabel action c (t, w) in
  awaiting (fst st') /\
  allAttacks (fst st') = allAttacks t /\
  currentIndex (fst st') = S (currentIndex t) /\
  (forall i, i ∈ resolvedIndices (fst st') <->
     i ∈ resolvedIndices t \/
     (i = currentIndex t /\ exists env, c = Click NextBtn env)) /\
  (forall i, i ∈ skippedIndices (fst st') <->
     i ∈ skippedIndices t \/
     (i = currentIndex t /\ exists env, c = Click SkipBtn env)).
Proof.
  intros Hc (Hres & Hdlg & Hph) Hrun Hnames. rewrite Hrun in Hph.
  destruct Hph as [Hlt Htim].
  assert (Hbody : dialog t = Some [NextBtn; SkipBtn; CancelBtn])
    by (rewrite Hdlg; unfold _buildTrackerBody; by rewrite Hrun).
  assert (Hmark : forall t',
            allAttacks t' = allAttacks t ->
            currentIndex t' = S (currentIndex t) ->
            _completed t'
            = (if (length (allAttacks t) <=? currentIndex t + 1)%nat
               then true else false) ->
            dialog t' = dialog t -> result t' = result t ->
            timers t' = timers t ->
            awaiting (_updateDialog t')).
  { intros t' Ha Hi Hcomp Hd Hr Ht.
    unfold awaiting, _updateDialog, _buildTrackerBody.
    rewrite Hd, Hbody. simpl. rewrite Hr, Ha, Hi, Ht, Htim, Hcomp.
    destruct (Nat.leb_spec (length (allAttacks t)) (currentIndex t + 1));
      simpl; repeat split; try done; lia. }
  destruct c as [[| | |] env| |]; simpl in Hc; try done; intros st'.
  - (* next *)
    subst st'. simpl. unfold rendered. rewrite Hbody. simpl.
    rewrite onNext_roll. simpl.
    rewrite (resolve_ok chargeLabel action env t w Hc). cbv zeta.
    destruct (lookup_lt_is_Some_2 _ _ Hlt) as [atk Hatk]. rewrite Hatk.
    assert (Hok : hasAmmo atk && bool_decide (ammo atk = None) = false).
    { rewrite Forall_forall in Hnames.
      pose proof (Hnames atk (list_elem_of_lookup_2 _ _ _ Hatk)) as Hn.
      destruct (hasAmmo atk) eqn:Hh; [|done]. destruct (Hn Hh) as [id ->].
      done. }
    rewrite Hok. simpl.
    destruct (updateDialog_core (markResolved t)) as (Ha & Hi & Hr & Hs).
    split.
    { apply Hmark; try done; simpl.
      - by replace (currentIndex t + 1)%nat with (S (currentIndex t)) by lia.
      - by rewrite Hrun. }
    rewrite Ha, Hi, Hr, Hs. simpl.
    split; [done|]. split; [lia|]. split.
    + intros i. rewrite elem_of_union, elem_of_singleton. naive_solver.
    + intros i. naive_solver.
  - (* skip *)
    subst st'. simpl. unfold rendered. rewrite Hbody. simpl.
    unfold _skipCurrentAttack.
    destruct (updateDialog_core (markSkipped t)) as (Ha & Hi & Hr & Hs).
    split.
    { apply Hmark; try done; simpl.
      - by replace (currentIndex t + 1)%nat with (S (currentIndex t)) by lia.
      - by rewrite Hrun. }
    rewrite Ha, Hi, Hr, Hs. simpl.
    split; [done|]. split; [lia|]. split.
    + intros i. naive_solver.
    + intros i. rewrite elem_of_union, elem_of_singleton. naive_solver.
Qed.

Lemma advances_run cs t w :
  Forall advances cs -> awaiting t ->
  (currentIndex t + length cs)%nat = length (allAttacks t) ->
  Forall namesAmmo (allAttacks t) ->
  let st' := run chargeLabel action cs (t, w) in
  awaiting (fst st') /\
  allAttacks (fst st') = allAttacks t /\
  currentIndex (fst st') = length (allAttacks t) /\
  (forall i, i ∈ resolvedIndices (fst st') <->
     i ∈ resolvedIndices t \/
     exists j env, i = (currentIndex t + j)%nat /\
       cs !! j = Some (Click NextBtn env)) /\
  (forall i, i ∈ skippedIndices (fst st') <->
     i ∈ skippedIndices t \/
     exists j env, i = (currentIndex t + j)%nat /\
       cs !! j = Some (Click SkipBtn env)).
Proof.
  revert t w. induction cs as [|c cs IH]; intros t w Hcs Haw Hlen Hnames.
  - simpl in *. split; [done|]. split; [done|]. split; [lia|].
    split; intros i.
    + split; [by left|]. intros [?|(j & env & _ & Hj)]; [done|].
      by rewrite lookup_nil in Hj.
    + split; [by left|]. intros [?|(j & env & _ & Hj)]; [done|].
      by rewrite lookup_nil in Hj.
  - apply Forall_cons in Hcs as [Hc Hcs]. simpl in Hlen.
    assert (Hrun : _completed t = false).
    { destruct Haw as (_ & _ & Hph).
      destruct (_completed t); [|done]. lia. }
    destruct (advances_step c t w Hc Haw Hrun Hnames)
      as (Haw1 & Ha1 & Hi1 & Hr1 & Hs1).
    simpl. destruct (step chargeLabel action c (t, w)) as [t1 w1] eqn:E.
    simpl in *.
    destruct (IH t1 w1 Hcs Haw1) as (Haw2 & Ha2 & Hi2 & Hr2 & Hs2).
    { rewrite Ha1, Hi1. lia. }
    { by rewrite Ha1. }
    split; [done|]. split; [congruence|]. split; [congruence|].
    split; intros i.
    + rewrite Hr2, Hr1, Hi1. split.
      * intros [[?|[-> (env & ->)]]|(j & env & -> & Hj)].
        -- by left.
        -- right. exists 0%nat, env. split; [lia|done].
        -- right. exists (S j), env. split; [lia|done].
      * intros [?|(j & env & -> & Hj)]; [by left; left|].
        destruct j as [|j]; simpl in Hj.
        -- left. right. split; [lia|]. injection Hj as ->. by exists env.
        -- right. exists j, env. split; [lia|done].
    + rewrite Hs2, Hs1, Hi1. split.
      * intros [[?|[-> (env & ->)]]|(j & env & -> & Hj)].
        -- by left.
        -- right. exists 0%nat, env. split; [lia|done].
        -- right. exists (S j), env. split; [lia|done].
      * intros [?|(j & env & -> & Hj)]; [by left; left|].
        destruct j as [|j]; simpl in Hj.
        -- left. right. split; [lia|]. injection Hj as ->. by exists env.
        -- right. exists j, env. split; [lia|done].
Qed.

(** X20. Working through the plan finishes the run. From a non-empty plan
    whose attacks name the ammunition they claim, one command per attack, each
    a click on the next button served by the host without throwing or a click
    on the skip button, leaves the dialog open on a completed tracker with the
    promise still unresolved; the auto-close timeout or a click on the done
    button then closes the dialog and resolves the promise to completed. The
    resolved positions are exactly those whose command was a click on next,
    the skipped positions exactly those whose command was a click on skip. *)
Theorem working_through_the_plan_completes
    (atks : list Attack) (w0 : World) (cs : list Command) (fin : Command) :
  atks <> [] ->
  Forall namesAmmo atks ->
  Forall advances cs ->
  length cs = length atks ->
  (fin = Timeout \/ exists env, fin = Click CloseBtn env) ->
  let t := fst (run chargeLabel action cs (newTracker atks, w0)) in
  let t' := fst (run chargeLabel action (cs ++ [fin]) (newTracker atks, w0)) in
  result t = None /\ rendered CloseBtn t = true /\
  result t' = Some completed /\ dialog t' = None /\
  currentIndex t' = length atks /\
  forall i,
    (i ∈ resolvedIndices t' <-> exists env, cs !! i = Some (Click NextBtn env)) /\
    (i ∈ skippedIndices t' <-> exists env, cs !! i = Some (Click SkipBtn env)).
Proof.
  intros Hne Hnames Hcs Hlen Hfin t t'.
  destruct (advances_run cs (newTracker atks) w0 Hcs (awaiting_new atks Hne))
    as (Haw & Ha & Hi & Hr & Hs); [simpl; lia|done|].
  fold t in Haw, Ha, Hi, Hr, Hs. simpl in Ha, Hi, Hr, Hs.
  destruct Haw as (Hres & Hdlg & Hph).
  assert (Hcomp : _completed t = true).
  { destruct (_completed t); [done|]. rewrite Ha in Hph. lia. }
  rewrite Hcomp in Hph. destruct Hph as [_ Htim].
  assert (Hbody : dialog t = Some [CloseBtn])
    by (rewrite Hdlg; unfold _buildTrackerBody; by rewrite Hcomp).
  split; [done|]. split; [unfold rendered; by rewrite Hbody|].
  assert (Hsets : forall i,
    (i ∈ resolvedIndices t <-> exists env, cs !! i = Some (Click NextBtn env)) /\
    (i ∈ skippedIndices t <-> exists env, cs !! i = Some (Click SkipBtn env))).
  { intros i. rewrite Hr, Hs. split; split.
    - intros [H|(j & env & -> & Hj)]; [by apply elem_of_empty in H|].
      by exists env.
    - intros [env Hj]. right. by exists i, env.
    - intros [H|(j & env & -> & Hj)]; [by apply elem_of_empty in H|].
      by exists env.
    - intros [env Hj]. right. by exists i, env. }
  assert (Ht' : t' = fst (step chargeLabel action fin
                            (run chargeLabel action cs (newTracker atks, w0)))).
  { subst t'. unfold run. by rewrite foldl_app. }
  destruct (run chargeLabel action cs (newTracker atks, w0)) as [t0 w1] eqn:E.
  simpl in t. subst t. rewrite Ht'. clear Ht'.
  destruct Hfin as [->|[env ->]]; simpl.
  - unfold onTimeout. simpl. rewrite Htim, Hbody. simpl.
    unfold dialog_close, _resolve. simpl. rewrite Hcomp, Hres. simpl.
    repeat split; try done; try apply Hsets.
  - unfold rendered. rewrite Hbody. simpl.
    unfold dialog_close, _resolve. simpl. rewrite Hres. simpl.
    repeat split; try done; try apply Hsets.
Qed.

End Progress.

Lemma working_through_the_plan_completes_witness :
  let t' := fst (run "Charge" longbow
                   ([Click NextBtn hostOk; Click SkipBtn hostOk] ++ [Timeout])
                   (newTracker volley, quiver 5)) in
  result t' = Some completed /\ dialog t' = None /\
  currentIndex t' = length volley.
Proof.
  assert (Hn : Forall namesAmmo volley).
  { repeat constructor; intros _; by eexists. }
  assert (Hc : Forall advances [Click NextBtn hostOk; Click SkipBtn hostOk]).
  { repeat constructor. }
  destruct (working_through_the_plan_completes "Charge" longbow volley
              (quiver 5) [Click NextBtn hostOk; Click SkipBtn hostOk] Timeout
              ltac:(discriminate) Hn Hc eq_refl (or_introl eq_refl))
    as (_ & _ & H1 & H2 & H3 & _).
  intros t'. split; [exact H1|]. split; [exact H2|exact H3].
Defined.

(** ** The ledger is the sum of the commits *)


Section LedgerSum.

Variable chargeLabel : string.
Variable action : Action.






End LedgerSum.


